(** * myblockchain: a shallow embedding of [src/blockchain.js]

    The three classes of the source, [Transaction], [Block] and [Blockchain],
    are embedded as three modules of the same names.  Each method keeps its
    source name.  Conventions:

    - an amount, the mining reward and a balance are JavaScript numbers, of
      type [number]: [NaN], [Infinity] and [-Infinity] are values of their
      own, which the comparisons, [+] and [-], the conversion to a string
      and [JSON.stringify] treat as JavaScript does; a finite number is an
      integer, computed with exactly, which is JavaScript's arithmetic on the
      integers up to 2^53 in absolute value (fractions, the rounding beyond
      2^53 and the exponent notation from 10^21 on are outside the model, and
      [-0] is not told from [0], as [===] does not tell them apart either);
    - a clock reading ([Date.now()]) and the nonce (a counter from 0) are
      integers, [Z];
    - an address is [option string]: [None] is the JavaScript [null] that the
      mining routine passes as the sender of a reward;
    - [Date.now()] is an explicit argument (the clock reading);
    - a method that can [throw] returns a [completion]; a method that mutates
      [this] is a state transformer returning the completion together with
      the object as it is left (JavaScript does not roll back on [throw]);
    - the [while] loop of [mineBlock] takes fuel, and returns [None] when the
      fuel does not suffice;
    - the two third-party capabilities, the SHA-256 digest of Node's [crypto]
      and the secp256k1 signatures of [elliptic], are the operations of the
      class [Crypto]; decoding a public key and decoding a signature can
      throw, as [elliptic] does on a string that is not one;
    - the longest string the JavaScript engine builds is the parameter of the
      class [Engine];
    - objects are values: where one transaction object stands at several
      places, an outside write to it is the write at all those places
      ([Places]);
    - [console.debug] writes a log line and changes nothing: it is left out;
    - the driver script of the README is the module [Main]: what it prints
      is the value it returns. *)

From Stdlib Require Import Ascii.
From stdpp Require Import base numbers list strings pretty.

Local Open Scope Z_scope.

(* ================================================================== *)
(** ** JavaScript values and conversions used by the source            *)
(* ================================================================== *)

(** An address: a hexadecimal public key, or [null]. *)
Definition Address : Type := option string.

(** A number. *)
Inductive number : Type :=
  | Finite (z : Z)
  | NaN
  | Infinity
  | NegInfinity.

Coercion Finite : Z >-> number.

Global Instance number_eq_dec : EqDecision number.
Proof. solve_decision. Defined.

Module Number.

Definition is_finite (a : number) : bool :=
  match a with
  | Finite _ => true
  | _ => false
  end.

(** [-a] *)
Definition opp (a : number) : number :=
  match a with
  | Finite x => Finite (- x)
  | NaN => NaN
  | Infinity => NegInfinity
  | NegInfinity => Infinity
  end.

(** [a + b] on two numbers. *)
Definition add (a b : number) : number :=
  match a, b with
  | Finite x, Finite y => Finite (x + y)
  | NaN, _ => NaN
  | _, NaN => NaN
  | Infinity, NegInfinity => NaN
  | NegInfinity, Infinity => NaN
  | Infinity, _ => Infinity
  | _, Infinity => Infinity
  | NegInfinity, _ => NegInfinity
  | _, NegInfinity => NegInfinity
  end.

(** [a - b], which is [a + (-b)] in floating point too. *)
Definition sub (a b : number) : number := add a (opp b).

(** [a <= b]: false as soon as one side is [NaN]. *)
Definition leb (a b : number) : bool :=
  match a, b with
  | Finite x, Finite y => x <=? y
  | NaN, _ => false
  | _, NaN => false
  | NegInfinity, _ => true
  | _, Infinity => true
  | Infinity, _ => false
  | _, NegInfinity => false
  end.

(** [a < b]: false as soon as one side is [NaN]. *)
Definition ltb (a b : number) : bool :=
  match a, b with
  | Finite x, Finite y => x <? y
  | NaN, _ => false
  | _, NaN => false
  | Infinity, _ => false
  | _, NegInfinity => false
  | NegInfinity, _ => true
  | _, Infinity => true
  end.

Definition le (a b : number) : Prop := leb a b = true.
Definition lt (a b : number) : Prop := ltb a b = true.

End Number.

Declare Scope number_scope.
Delimit Scope number_scope with number.
Bind Scope number_scope with number.
Infix "+" := Number.add : number_scope.
Infix "-" := Number.sub : number_scope.
Notation "- a" := (Number.opp a) : number_scope.
Infix "<=" := Number.le : number_scope.
Infix "<" := Number.lt : number_scope.
Notation "a < b <= c" := (Number.lt a b /\ Number.le b c) : number_scope.

(** [ToString] as applied by [+] when the other operand is a string. *)
Definition number_to_string (n : number) : string :=
  match n with
  | Finite z => pretty z
  | NaN => "NaN"
  | Infinity => "Infinity"
  | NegInfinity => "-Infinity"
  end.

Definition address_to_string (a : Address) : string :=
  match a with
  | None => "null"
  | Some s => s
  end.

(** [!a] is true on [null] and on the empty string. *)
Definition truthy (a : Address) : bool :=
  match a with
  | None => false
  | Some s => negb (String.eqb s "")
  end.

(** The string of [n] zeros. *)
Fixpoint zero_run (n : nat) : string :=
  match n with
  | O => ""
  | S n' => String "0"%char (zero_run n')
  end.

(** *** [JSON.stringify] *)

Definition dquote : string := String "034"%char "".

Definition hex_digit (n : N) : ascii :=
  match n with
  | 0 => "0" | 1 => "1" | 2 => "2" | 3 => "3" | 4 => "4" | 5 => "5"
  | 6 => "6" | 7 => "7" | 8 => "8" | 9 => "9" | 10 => "a" | 11 => "b"
  | 12 => "c" | 13 => "d" | 14 => "e" | _ => "f"
  end%char%N.

(** The escape of one character inside a JSON string: the quote, the
    backslash and the control characters below U+0020. *)
Definition json_escape_char (c : ascii) : string :=
  let n := N_of_ascii c in
  if (n =? 34)%N then "\" +:+ dquote
  else if (n =? 92)%N then "\\"
  else if (n =? 8)%N then "\b"
  else if (n =? 9)%N then "\t"
  else if (n =? 10)%N then "\n"
  else if (n =? 12)%N then "\f"
  else if (n =? 13)%N then "\r"
  else if (n <? 32)%N then
    "\u00" +:+ String (hex_digit (n / 16)%N) (String (hex_digit (n mod 16)%N) "")
  else String c "".

Fixpoint json_escape (s : string) : string :=
  match s with
  | EmptyString => ""
  | String c s' => json_escape_char c +:+ json_escape s'
  end.

Definition json_string (s : string) : string :=
  dquote +:+ json_escape s +:+ dquote.

(** A number that is not finite is serialised as [null]. *)
Definition json_number (n : number) : string :=
  match n with
  | Finite z => pretty z
  | NaN | Infinity | NegInfinity => "null"
  end.

Definition json_address (a : Address) : string :=
  match a with
  | None => "null"
  | Some s => json_string s
  end.

(** ["key":] *)
Definition json_key (k : string) : string := dquote +:+ k +:+ dquote +:+ ":".

(** The elements of an array, joined by commas. *)
Fixpoint json_join (l : list string) : string :=
  match l with
  | [] => ""
  | [x] => x
  | x :: xs => x +:+ "," +:+ json_join xs
  end.

Definition json_array (l : list string) : string := "[" +:+ json_join l +:+ "]".

(* ================================================================== *)
(** ** Errors and completions                                          *)
(* ================================================================== *)

(** The errors of the program: [new Error(message)], thrown by the source
    and by [elliptic]; the [TypeError] the engine throws on a bad property
    access, call or argument; the [RangeError] it throws on an array or a
    string that is too long. *)
Inductive JsError : Type :=
  | Error (message : string)
  | TypeError (message : string)
  | RangeError (message : string).

Global Instance JsError_eq_dec : EqDecision JsError.
Proof. solve_decision. Defined.

Inductive completion (A : Type) : Type :=
  | Normal (a : A)
  | Throw (e : JsError).
Arguments Normal {A} a.
Arguments Throw {A} e.

Definition completion_bind {A B} (c : completion A) (k : A -> completion B)
  : completion B :=
  match c with
  | Normal a => k a
  | Throw e => Throw e
  end.

(** A method that may mutate the object it is called on. *)
Definition Method (S A : Type) : Type := S -> completion A * S.

Definition ret {S A} (a : A) : Method S A := fun s => (Normal a, s).
Definition throw {S A} (e : JsError) : Method S A := fun s => (Throw e, s).
Definition this {S} : Method S S := fun s => (Normal s, s).
Definition assign {S} (s' : S) : Method S unit := fun _ => (Normal tt, s').
Definition lift {S A} (c : completion A) : Method S A := fun s => (c, s).
Definition bind {S A B} (m : Method S A) (k : A -> Method S B) : Method S B :=
  fun s =>
    match m s with
    | (Normal a, s') => k a s'
    | (Throw e, s') => (Throw e, s')
    end.
(** [if (c) { throw e; }] *)
Definition throw_if {S} (c : bool) (e : JsError) : Method S unit :=
  if c then throw e else ret tt.

Declare Scope method_scope.
Delimit Scope method_scope with method.
Notation "x <~ m ;; k" := (bind m (fun x => k))
  (at level 100, m at next level, right associativity) : method_scope.
Notation "m ;;; k" := (bind m (fun _ => k))
  (at level 100, right associativity) : method_scope.

(** Expose the state transformer under a method's combinators. *)
Ltac unfold_method :=
  unfold bind, throw_if, lift, this, assign, ret, throw in *.

(* ================================================================== *)
(** ** The JavaScript engine                                           *)
(* ================================================================== *)

(** The longest string the engine builds ([join] throws a [RangeError]
    beyond it).  The limit differs between engines and versions; no engine
    stops short of the 64 characters of a digest. *)
Class Engine : Type := {
  max_string_length : N;
  max_string_length_digest : (64 <= max_string_length)%N
}.

(** The greatest length of an array: 2^32 - 1. *)
Definition max_array_length : N := 4294967295.

(** [Array(n + 1).join('0')]: [Array] throws unless its argument is an array
    length; [join] puts a zero between each two of the [n + 1] empty slots,
    and throws when the [n] zeros exceed the longest string. *)
Definition zeros `{Engine} (n : nat) : completion string :=
  if (max_array_length <? N.of_nat n + 1)%N
  then Throw (RangeError "Invalid array length")
  else if (max_string_length <? N.of_nat n)%N
  then Throw (RangeError "Invalid string length")
  else Normal (zero_run n).

(* ================================================================== *)
(** ** The external cryptographic capabilities                         *)
(* ================================================================== *)

(** - [sha256_hex s] is
      [crypto.createHash('sha256').update(s).digest('hex')];
    - [KeyPair] is an [EC.KeyPair] holding a private key,
      [getPublic k] is [k.getPublic('hex')],
      [ec_sign k h] is [k.sign(h, 'base64').toDER('hex')];
    - [keyFromPublic pub] is [ec.keyFromPublic(pub, 'hex')]: it decodes
      the point, and throws on a string that does not encode one
      (['Unknown point format'], ['invalid point']);
    - [publicKey.verify(h, sig)] first decodes the signature,
      [importSignature sig], throwing on a string that is not the DER
      encoding of one (['Signature without r or s']), and then answers with
      a boolean, [ec_verify key h s]. *)
Class Crypto : Type := {
  sha256_hex : string -> string;
  KeyPair : Type;
  getPublic : KeyPair -> string;
  ec_sign : KeyPair -> string -> string;
  PublicKey : Type;
  keyFromPublic : string -> completion PublicKey;
  Signature : Type;
  importSignature : string -> completion Signature;
  ec_verify : PublicKey -> string -> Signature -> bool
}.

(** [publicKey.verify(h, sig)] *)
Definition verify `{Crypto} (publicKey : PublicKey) (h sig : string)
  : completion bool :=
  completion_bind (importSignature sig) (fun s =>
    Normal (ec_verify publicKey h s)).

(** [ec.keyFromPublic(pub, 'hex').verify(h, sig)] *)
Definition verify_under `{Crypto} (pub h sig : string) : completion bool :=
  completion_bind (keyFromPublic pub) (fun publicKey => verify publicKey h sig).

(* ================================================================== *)
(** ** class Transaction                                               *)
(* ================================================================== *)

Module Transaction.

Record t : Type := mk {
  fromAddress : Address;
  toAddress : Address;
  amount : number;
  timestamp : Z;
  (** absent until [signTransaction] assigns it *)
  signature : option string
}.

Global Instance eq_dec : EqDecision t.
Proof. solve_decision. Defined.

(** [constructor(fromAddress, toAddress, amount)], with [now = Date.now()]. *)
Definition new (now : Z) (fromAddress toAddress : Address) (amount : number) : t :=
  mk fromAddress toAddress amount now None.

Definition set_signature (sig : string) (tx : t) : t :=
  mk (fromAddress tx) (toAddress tx) (amount tx) (timestamp tx) (Some sig).

(** Direct assignment [tx.amount = v], as an outside caller can do. *)
Definition set_amount (v : number) (tx : t) : t :=
  mk (fromAddress tx) (toAddress tx) v (timestamp tx) (signature tx).

(** [JSON.stringify(tx)]: the own properties in creation order; [signature]
    exists only once assigned. *)
Definition toJSON (tx : t) : string :=
  "{" +:+ json_key "fromAddress" +:+ json_address (fromAddress tx) +:+
  "," +:+ json_key "toAddress" +:+ json_address (toAddress tx) +:+
  "," +:+ json_key "amount" +:+ json_number (amount tx) +:+
  "," +:+ json_key "timestamp" +:+ json_number (timestamp tx) +:+
  match signature tx with
  | None => ""
  | Some sig => "," +:+ json_key "signature" +:+ json_string sig
  end +:+ "}".

Section WithCrypto.
Context `{Crypto}.

(** [this.fromAddress + this.toAddress + this.amount + this.timestamp],
    evaluated left to right: as soon as one address is a string every [+] is
    a concatenation; with both addresses [null] every [+] is an addition and
    [update] is handed a number, which it refuses. *)
Definition calculateHash (tx : t) : completion string :=
  match fromAddress tx, toAddress tx with
  | None, None =>
      Throw (TypeError "The data argument must be of type string")
  | from, to =>
      Normal (sha256_hex (address_to_string from +:+ address_to_string to +:+
                          number_to_string (amount tx) +:+
                          number_to_string (timestamp tx)))
  end.

(** [!this.signature || this.signature.length === 0] *)
Definition no_signature (tx : t) : bool :=
  match signature tx with
  | None => true
  | Some sig => String.eqb sig ""
  end.

Definition signTransaction (signingKey : KeyPair) : Method t unit :=
  (tx <~ this ;;
   throw_if (bool_decide (Some (getPublic signingKey) ≠ fromAddress tx))
            (Error "You cannot sign transactions for other wallets!") ;;;
   hashTx <~ lift (calculateHash tx) ;;
   assign (set_signature (ec_sign signingKey hashTx) tx))%method.

Definition isValid (tx : t) : completion bool :=
  match fromAddress tx with
  | None => Normal true
  | Some from =>
      if no_signature tx then Throw (Error "No signature in this transaction")
      else
        completion_bind (keyFromPublic from) (fun publicKey =>
          completion_bind (calculateHash tx) (fun h =>
            verify publicKey h (default "" (signature tx))))
  end.

End WithCrypto.

End Transaction.

(* ================================================================== *)
(** ** class Block                                                     *)
(* ================================================================== *)

Module Block.

(** The [timestamp] argument of the constructor: [createGenesisBlock] passes
    a date label (a string), [minePendingTransactions] passes [Date.now()]
    (a number). *)
Inductive Time : Type :=
  | DateLabel (s : string)
  | Millis (n : Z).

(** The [transactions] argument of the constructor: [createGenesisBlock]
    passes a text, [minePendingTransactions] passes the pending array. *)
Inductive Body : Type :=
  | Text (s : string)
  | Txs (l : list Transaction.t).

Global Instance Time_eq_dec : EqDecision Time.
Proof. solve_decision. Defined.
Global Instance Body_eq_dec : EqDecision Body.
Proof. solve_decision. Defined.

Record t : Type := mk {
  previousHash : string;
  timestamp : Time;
  transactions : Body;
  nonce : Z;
  hash : string
}.

Global Instance eq_dec : EqDecision t.
Proof. solve_decision. Defined.

Definition time_to_string (ts : Time) : string :=
  match ts with
  | DateLabel s => s
  | Millis n => number_to_string n
  end.

Definition time_toJSON (ts : Time) : string :=
  match ts with
  | DateLabel s => json_string s
  | Millis n => json_number n
  end.

(** [JSON.stringify(this.transactions)] *)
Definition body_toJSON (body : Body) : string :=
  match body with
  | Text s => json_string s
  | Txs l => json_array (Transaction.toJSON <$> l)
  end.

(** [JSON.stringify(block)] *)
Definition toJSON (b : t) : string :=
  "{" +:+ json_key "previousHash" +:+ json_string (previousHash b) +:+
  "," +:+ json_key "timestamp" +:+ time_toJSON (timestamp b) +:+
  "," +:+ json_key "transactions" +:+ body_toJSON (transactions b) +:+
  "," +:+ json_key "nonce" +:+ json_number (nonce b) +:+
  "," +:+ json_key "hash" +:+ json_string (hash b) +:+ "}".

(** What [for (const tx of this.transactions)] visits: the elements of the
    array, or the characters of the text. *)
Inductive Element : Type :=
  | Tx (tx : Transaction.t)
  | Char (c : ascii).

Definition elements (body : Body) : list Element :=
  match body with
  | Text s => Char <$> String.list_ascii_of_string s
  | Txs l => Tx <$> l
  end.

(** Direct assignment [block.transactions[k].amount = v], when the
    transaction object stands at no other place. *)
Definition set_amount (k : nat) (v : number) (b : t) : t :=
  match transactions b with
  | Txs l =>
      mk (previousHash b) (timestamp b)
         (Txs (alter (Transaction.set_amount v) k l)) (nonce b) (hash b)
  | Text _ => b
  end.

(** The write [tx.amount = v] as it shows in a block where the object [tx]
    stands at the indices selected by [here]. *)
Definition write_amount (here : nat -> bool) (v : number) (b : t) : t :=
  match transactions b with
  | Txs l =>
      mk (previousHash b) (timestamp b)
         (Txs (imap (fun k tx => if here k then Transaction.set_amount v tx else tx) l))
         (nonce b) (hash b)
  | Text _ => b
  end.

Section WithCrypto.
Context `{Crypto} `{Engine}.

(** The string handed to the digest: all four operands are concatenated,
    [previousHash] being a string. *)
Definition preimage (previousHash : string) (timestamp : Time)
    (transactions : Body) (nonce : Z) : string :=
  previousHash +:+ time_to_string timestamp +:+ body_toJSON transactions +:+
  number_to_string nonce.

Definition calculateHash (b : t) : string :=
  sha256_hex (preimage (previousHash b) (timestamp b) (transactions b) (nonce b)).

(** [constructor(timestamp, transactions, previousHash)] *)
Definition new (timestamp : Time) (transactions : Body) (previousHash : string)
  : t :=
  mk previousHash timestamp transactions 0
     (sha256_hex (preimage previousHash timestamp transactions 0)).

(** The loop condition of [mineBlock], negated:
    [this.hash.substring(0, difficulty) === Array(difficulty + 1).join('0')]. *)
Definition meets_difficulty (difficulty : nat) (b : t) : completion bool :=
  let prefix := String.substring 0 difficulty (hash b) in
  completion_bind (zeros difficulty) (fun z => Normal (String.eqb prefix z)).

(** One turn of the loop body: [this.nonce++; this.hash = this.calculateHash()]. *)
Definition try_next_nonce (b : t) : t :=
  let b' := mk (previousHash b) (timestamp b) (transactions b) (nonce b + 1)
               (hash b) in
  mk (previousHash b') (timestamp b') (transactions b') (nonce b')
     (calculateHash b').

(** [mineBlock(difficulty)]: the completion and the block as the loop leaves
    it, or [None] when [fuel] turns of the loop were not enough. *)
Fixpoint mineBlock (difficulty : nat) (fuel : nat) (b : t)
  : option (completion unit * t) :=
  match meets_difficulty difficulty b with
  | Throw e => Some (Throw e, b)
  | Normal true => Some (Normal tt, b)
  | Normal false =>
      match fuel with
      | O => None
      | S fuel' => mineBlock difficulty fuel' (try_next_nonce b)
      end
  end.

Fixpoint all_valid (l : list Element) : completion bool :=
  match l with
  | [] => Normal true
  | Tx tx :: rest =>
      completion_bind (Transaction.isValid tx) (fun ok =>
        if negb ok then Normal false else all_valid rest)
  | Char _ :: _ => Throw (TypeError "tx.isValid is not a function")
  end.

Definition hasValidTransactions (b : t) : completion bool :=
  all_valid (elements (transactions b)).

End WithCrypto.

End Block.

(* ================================================================== *)
(** ** class Blockchain                                                *)
(* ================================================================== *)

Module Blockchain.

Record t : Type := mk {
  chain : list Block.t;
  difficulty : nat;
  pendingTransactions : list Transaction.t;
  miningReward : number
}.

(** [this.pendingTransactions.push(tx)] *)
Definition push_pending (tx : Transaction.t) (bc : t) : t :=
  mk (chain bc) (difficulty bc) (pendingTransactions bc ++ [tx]) (miningReward bc).

(** Direct assignment [bc.chain[i].transactions[k].amount = v], when the
    transaction object stands at no other place. *)
Definition set_amount (i k : nat) (v : number) (bc : t) : t :=
  mk (alter (Block.set_amount k v) i (chain bc)) (difficulty bc)
     (pendingTransactions bc) (miningReward bc).

(** The body of the inner loop of [getBalanceOfAddress].  On a character of
    a text both [trans.fromAddress] and [trans.toAddress] are [undefined],
    which is [===] to no address. *)
Definition balance_step (address : Address) (balance : number)
    (trans : Block.Element) : number :=
  match trans with
  | Block.Tx tx =>
      let balance :=
        if decide (Transaction.fromAddress tx = address)
        then (balance - Transaction.amount tx)%number else balance in
      if decide (Transaction.toAddress tx = address)
      then (balance + Transaction.amount tx)%number else balance
  | Block.Char _ => balance
  end.

Definition getBalanceOfAddress (address : Address) (bc : t) : number :=
  fold_left
    (fun balance block =>
       fold_left (balance_step address)
                 (Block.elements (Block.transactions block)) balance)
    (chain bc) (Finite 0).

Definition involves (address : Address) (e : Block.Element) : bool :=
  match e with
  | Block.Tx tx =>
      bool_decide (Transaction.fromAddress tx = address)
      || bool_decide (Transaction.toAddress tx = address)
  | Block.Char _ => false
  end.

Definition getAllTransactionsForWallet (address : Address) (bc : t)
  : list Block.Element :=
  fold_left
    (fun txs block =>
       txs ++ filter (fun e => involves address e = true)
                     (Block.elements (Block.transactions block)))
    (chain bc) [].

(** [this.chain[this.chain.length - 1]]; [None] is the [undefined] read from
    an empty array. *)
Definition getLatestBlock (bc : t) : option Block.t := last (chain bc).

Section WithCrypto.
Context `{Crypto} `{Engine}.

Definition createGenesisBlock : Block.t :=
  Block.new (Block.DateLabel "01/01/2022") (Block.Text "Genesis block") "0".

(** [constructor()] *)
Definition new : t := mk [createGenesisBlock] 2 [] 100.

(** [minePendingTransactions(miningRewardAddress)].  [now_tx] and
    [now_block] are the two readings of [Date.now()], in the reward's
    constructor and in the block's.  [None]: the proof-of-work loop did not
    finish within [fuel] turns.  When [mineBlock] throws, the reward has
    been pushed and nothing else has happened. *)
Definition minePendingTransactions (now_tx now_block : Z)
    (miningRewardAddress : Address) (fuel : nat) (bc : t)
  : option (completion unit * t) :=
  let rewardTx :=
    Transaction.new now_tx None miningRewardAddress (miningReward bc) in
  let bc := push_pending rewardTx bc in
  match getLatestBlock bc with
  | None =>
      Some (Throw (TypeError "Cannot read properties of undefined (reading 'hash')"),
            bc)
  | Some latest =>
      let block :=
        Block.new (Block.Millis now_block) (Block.Txs (pendingTransactions bc))
                  (Block.hash latest) in
      match Block.mineBlock (difficulty bc) fuel block with
      | None => None
      | Some (Throw e, _) => Some (Throw e, bc)
      | Some (Normal _, block) =>
          Some (Normal tt,
                mk (chain bc ++ [block]) (difficulty bc) [] (miningReward bc))
      end
  end.

Definition addTransaction (transaction : Transaction.t) : Method t unit :=
  (throw_if (negb (truthy (Transaction.fromAddress transaction))
             || negb (truthy (Transaction.toAddress transaction)))
            (Error "Transaction must include from and to address") ;;;
   valid <~ lift (Transaction.isValid transaction) ;;
   throw_if (negb valid) (Error "Cannot add invalid transaction to chain") ;;;
   throw_if (Number.leb (Transaction.amount transaction) 0)
            (Error "Transaction amount should be higher than 0") ;;;
   bc <~ this ;;
   throw_if (Number.ltb
               (getBalanceOfAddress (Transaction.fromAddress transaction) bc)
               (Transaction.amount transaction))
            (Error "Not enough balance") ;;;
   assign (push_pending transaction bc))%method.

(** The [for] loop of [isChainValid], entered at index [i] with [turns]
    turns to go ([turns = chain.length - i]). *)
Fixpoint isChainValid_loop (chain : list Block.t) (i : nat) (turns : nat)
  : completion bool :=
  match turns with
  | O => Normal true
  | S turns' =>
      match chain !! i, chain !! (i - 1)%nat with
      | Some currentBlock, Some previousBlock =>
          if decide (Block.hash previousBlock ≠ Block.previousHash currentBlock)
          then Normal false
          else
            completion_bind (Block.hasValidTransactions currentBlock) (fun ok =>
              if negb ok then Normal false
              else if decide (Block.hash currentBlock
                              ≠ Block.calculateHash currentBlock)
              then Normal false
              else isChainValid_loop chain (S i) turns')
      | _, _ => Throw (TypeError "Cannot read properties of undefined")
      end
  end.

(** [JSON.stringify(this.chain[0])] is [undefined] on an empty chain. *)
Definition isChainValid (bc : t) : completion bool :=
  let realGenesis := Block.toJSON createGenesisBlock in
  if decide (Some realGenesis ≠ Block.toJSON <$> chain bc !! 0%nat)
  then Normal false
  else isChainValid_loop (chain bc) 1 (length (chain bc) - 1).

End WithCrypto.

End Blockchain.

(* ================================================================== *)
(** ** Outside writes through a transaction object                     *)
(* ================================================================== *)

(** [addTransaction] accepts a transaction object it has accepted before, so
    one object can stand at several places of the chain and of the pending
    pool.  An outside write [chain[i].transactions[k].amount = v] goes to
    the object found at that place and shows at every place where that
    object stands.  [Places] selects those places: the pairs (block index,
    transaction index) in the chain, and the indices in the pending pool. *)
Record Places : Type := mkPlaces {
  in_chain : nat -> nat -> bool;
  in_pool : nat -> bool
}.

(** The one place [(i, k)] of the chain. *)
Definition only_place (i k : nat) : Places :=
  mkPlaces (fun j m => bool_decide (j = i) && bool_decide (m = k))
           (fun _ => false).

(** The write [tx.amount = v] to the object that stands at [places]. *)
Definition write_amount (places : Places) (v : number) (bc : Blockchain.t)
  : Blockchain.t :=
  Blockchain.mk
    (imap (fun j b => Block.write_amount (in_chain places j) v b)
          (Blockchain.chain bc))
    (Blockchain.difficulty bc)
    (imap (fun m tx => if in_pool places m then Transaction.set_amount v tx else tx)
          (Blockchain.pendingTransactions bc))
    (Blockchain.miningReward bc).

(* ================================================================== *)
(** ** A small instance of the capabilities, to run the definitions    *)
(* ================================================================== *)

(** A rolling checksum printed as eight hexadecimal digits, lowest digit
    first, stands in for the digest; a public key is the private key behind
    the prefix [pk-], and a signature is the checksum of the private key
    followed by the message.  Decoding throws the errors of [elliptic]: on
    an address without the prefix, and on a signature that is not eight
    hexadecimal digits.  Nothing below is a statement about SHA-256 or
    secp256k1: the instance only serves to evaluate the embedding on
    concrete chains. *)
Module Toy.

Fixpoint rolling (acc : N) (s : string) : N :=
  match s with
  | EmptyString => acc
  | String c s' => rolling ((acc * 33 + N_of_ascii c) mod 4294967296)%N s'
  end.

Fixpoint hex_le (digits : nat) (n : N) : string :=
  match digits with
  | O => ""
  | S d => String (hex_digit (n mod 16)%N) (hex_le d (n / 16)%N)
  end.

Definition digest (s : string) : string := hex_le 8 (rolling 5381%N s).

Definition public_of (private : string) : string := "pk-" +:+ private.

Definition sign (private : string) (h : string) : string :=
  digest (private +:+ ":" +:+ h).

(** The private key behind a public key. *)
Definition decode_key (pub : string) : completion string :=
  if String.prefix "pk-" pub
  then Normal (String.substring 3 (String.length pub - 3) pub)
  else Throw (Error "Unknown point format").

Definition is_hex (c : ascii) : bool :=
  let n := N_of_ascii c in
  ((48 <=? n) && (n <=? 57))%N || ((97 <=? n) && (n <=? 102))%N.

Definition decode_signature (sig : string) : completion string :=
  if forallb is_hex (String.list_ascii_of_string sig)
     && (String.length sig =? 8)%nat
  then Normal sig
  else Throw (Error "Signature without r or s").

Definition crypto : Crypto := {|
  sha256_hex := digest;
  KeyPair := string;
  getPublic := public_of;
  ec_sign := sign;
  PublicKey := string;
  keyFromPublic := decode_key;
  Signature := string;
  importSignature := decode_signature;
  ec_verify := fun private h sig => String.eqb sig (sign private h)
|}.

(** The longest string of a recent V8. *)
Definition engine : Engine.
Proof. refine {| max_string_length := 536870888 |}. lia. Defined.

End Toy.

(* ================================================================== *)
(** ** Vocabulary of the properties                                    *)
(* ================================================================== *)

(** The four errors of [addTransaction]. *)
Definition err_addresses : JsError :=
  Error "Transaction must include from and to address".
Definition err_invalid : JsError :=
  Error "Cannot add invalid transaction to chain".
Definition err_amount : JsError :=
  Error "Transaction amount should be higher than 0".
Definition err_balance : JsError := Error "Not enough balance".

(** The first check of [addTransaction] passes: neither address is [null]
    or empty. *)
Definition names_both_parties (tx : Transaction.t) : Prop :=
  truthy (Transaction.fromAddress tx) = true /\
  truthy (Transaction.toAddress tx) = true.

(** The transactions a block holds: those of its array; a text holds none. *)
Definition block_transactions (b : Block.t) : list Transaction.t :=
  match Block.transactions b with
  | Block.Txs l => l
  | Block.Text _ => []
  end.

(** Every transaction of every block, from the genesis block forward. *)
Definition all_transactions (bc : Blockchain.t) : list Transaction.t :=
  concat (block_transactions <$> Blockchain.chain bc).

(** What one transaction contributes to the balance of [address]. *)
Definition contribution (address : Address) (tx : Transaction.t) : number :=
  ((if decide (Transaction.fromAddress tx = address)
    then - Transaction.amount tx else Finite 0)
   + (if decide (Transaction.toAddress tx = address)
      then Transaction.amount tx else Finite 0))%number.

(** The sum of a list of numbers, from zero. *)
Definition sum (l : list number) : number := foldr Number.add (Finite 0) l.

(** The balance as the specification words it: the sum of the contributions,
    starting from zero. *)
Definition balance_by_replay (address : Address) (bc : Blockchain.t) : number :=
  sum (contribution address <$> all_transactions bc).

(** No comma occurs in the string. *)
Fixpoint comma_free (s : string) : Prop :=
  match s with
  | EmptyString => True
  | String c s' => c <> ","%char /\ comma_free s'
  end.

(** Two transactions that agree on every field but, possibly, [amount]. *)
Definition same_but_amount (tx tx' : Transaction.t) : Prop :=
  Transaction.fromAddress tx = Transaction.fromAddress tx' /\
  Transaction.toAddress tx = Transaction.toAddress tx' /\
  Transaction.timestamp tx = Transaction.timestamp tx' /\
  Transaction.signature tx = Transaction.signature tx'.

(** Two blocks that agree on everything but, possibly, the amounts of their
    transactions. *)
Definition amounts_overwritten (b b' : Block.t) : Prop :=
  Block.previousHash b' = Block.previousHash b /\
  Block.timestamp b' = Block.timestamp b /\
  Block.nonce b' = Block.nonce b /\
  Block.hash b' = Block.hash b /\
  match Block.transactions b, Block.transactions b' with
  | Block.Txs l, Block.Txs l' => Forall2 same_but_amount l l'
  | Block.Text s, Block.Text s' => s = s'
  | _, _ => False
  end.

(** Two transactions that [JSON.stringify] does not tell apart: they agree
    on every field but the amount, and their amounts are serialised
    alike. *)
Definition same_json (tx tx' : Transaction.t) : Prop :=
  same_but_amount tx tx' /\
  json_number (Transaction.amount tx) = json_number (Transaction.amount tx').

(** Two bodies that [JSON.stringify] does not tell apart. *)
Definition body_same_json (body body' : Block.Body) : Prop :=
  match body, body' with
  | Block.Txs l, Block.Txs l' => Forall2 same_json l l'
  | Block.Text s, Block.Text s' => s = s'
  | _, _ => False
  end.

(** The string a block hands to the digest. *)
Definition block_preimage (b : Block.t) : string :=
  Block.preimage (Block.previousHash b) (Block.timestamp b)
                 (Block.transactions b) (Block.nonce b).


Section Vocabulary.
Context `{Crypto} `{Engine}.

(** The digest of the block's content with the nonce moved [n] steps on. *)
Definition hash_at (b : Block.t) (n : nat) : string :=
  sha256_hex (Block.preimage (Block.previousHash b) (Block.timestamp b)
                             (Block.transactions b)
                             (Block.nonce b + Z.of_nat n)).

(** The block with its nonce moved [n] steps on and its hash brought up to
    date. *)
Definition at_nonce (b : Block.t) (n : nat) : Block.t :=
  Block.mk (Block.previousHash b) (Block.timestamp b) (Block.transactions b)
           (Block.nonce b + Z.of_nat n) (hash_at b n).

(** The nonce [n] steps on ends the loop of [mineBlock(d)]: the comparison
    string is built and the digest starts with it. *)
Definition solves (d : nat) (b : Block.t) (n : nat) : Prop :=
  Block.meets_difficulty d (at_nonce b n) = Normal true.

(** The first statement of [isChainValid]: the serialisation of [chain[0]]
    is that of a newly built genesis block. *)
Definition genesis_intact (bc : Blockchain.t) : Prop :=
  Block.toJSON <$> Blockchain.chain bc !! 0%nat
  = Some (Block.toJSON Blockchain.createGenesisBlock).

Global Instance genesis_intact_dec (bc : Blockchain.t) :
  Decision (genesis_intact bc).
Proof. unfold genesis_intact. apply _. Defined.

(** The three checks of the loop body at index [i], all passed. *)
Definition block_passes (chain : list Block.t) (i : nat) : Prop :=
  exists cur prev,
    chain !! i = Some cur /\ chain !! (i - 1)%nat = Some prev /\
    Block.previousHash cur = Block.hash prev /\
    Block.hasValidTransactions cur = Normal true /\
    Block.hash cur = Block.calculateHash cur.

(** The first of the three checks at index [i] that does not pass answers
    false. *)
Definition block_fails (chain : list Block.t) (i : nat) : Prop :=
  exists cur prev,
    chain !! i = Some cur /\ chain !! (i - 1)%nat = Some prev /\
    (Block.previousHash cur <> Block.hash prev \/
     (Block.previousHash cur = Block.hash prev /\
      Block.hasValidTransactions cur = Normal false) \/
     (Block.previousHash cur = Block.hash prev /\
      Block.hasValidTransactions cur = Normal true /\
      Block.hash cur <> Block.calculateHash cur)).

(** The link at index [i] holds and [hasValidTransactions()] throws [e]. *)
Definition block_raises (chain : list Block.t) (i : nat) (e : JsError) : Prop :=
  exists cur prev,
    chain !! i = Some cur /\ chain !! (i - 1)%nat = Some prev /\
    Block.previousHash cur = Block.hash prev /\
    Block.hasValidTransactions cur = Throw e.

End Vocabulary.

(** The states a caller reaches through the public operations: the
    constructor, [addTransaction] (returning or throwing) and
    [minePendingTransactions]; the queries change nothing.  The index lists
    the miner addresses passed to the calls of [minePendingTransactions], in
    order. *)
Inductive reachable `{Crypto} `{Engine} : list Address -> Blockchain.t -> Prop :=
  | reachable_new : reachable [] Blockchain.new
  | reachable_add miners bc tx r bc' :
      reachable miners bc ->
      Blockchain.addTransaction tx bc = (r, bc') ->
      reachable miners bc'
  | reachable_mine miners bc now_tx now_block miner fuel r bc' :
      reachable miners bc ->
      Blockchain.minePendingTransactions now_tx now_block miner fuel bc
        = Some (r, bc') ->
      reachable (miners ++ [miner]) bc'.

(** The block's transactions are transfers with a sender, followed by one
    reward for [miner]. *)
Definition ends_with_reward (reward : number) (miner : Address) (b : Block.t)
  : Prop :=
  exists transfers now,
    Block.transactions b
      = Block.Txs (transfers ++ [Transaction.mk None miner reward now None]) /\
    Forall (fun tx => Transaction.fromAddress tx <> None) transfers.

(** ** Concrete chains under the toy instance *)

Module Examples.

Definition alice : Address := Some "pk-alice".
Definition bob : Address := Some "pk-bob".
Definition carol : Address := Some "pk-carol".
Definition dave : Address := Some "pk-dave".

(** The genesis block under the toy digest. *)
Definition genesis : Block.t :=
  Block.mk "0" (Block.DateLabel "01/01/2022") (Block.Text "Genesis block") 0
           "82e3395f".

Definition reward_alice : Transaction.t := Transaction.mk None alice 100 1000 None.

(** The block [minePendingTransactions] builds on the genesis block at clock
    reading 1001, before and after the search. *)
Definition candidate1 : Block.t :=
  @Block.new Toy.crypto (Block.Millis 1001) (Block.Txs [reward_alice]) "82e3395f".
Definition block1 : Block.t :=
  Block.mk "82e3395f" (Block.Millis 1001) (Block.Txs [reward_alice]) 288
           "003cdecc".

(** A block whose [hash] field was overwritten after construction. *)
Definition stale_block : Block.t :=
  Block.mk "0" (Block.Millis 1) (Block.Txs []) 0 "00stale".

(** The blockchain after that first block, mined for [alice]. *)
Definition chain1 : Blockchain.t :=
  Blockchain.mk [genesis; block1] 2 [] 100.

(** Two transfers from [alice], signed with her key: 60 and 70 out of a
    balance of 100. *)
Definition transfer1 : Transaction.t :=
  Transaction.mk alice bob 60 1002 (Some "b92311ab").
Definition transfer2 : Transaction.t :=
  Transaction.mk alice carol 70 1003 (Some "4d5214bd").
Definition reward_dave : Transaction.t := Transaction.mk None dave 100 1004 None.

(** The block that holds both transfers, mined for [dave]. *)
Definition block2 : Block.t :=
  Block.mk "003cdecc" (Block.Millis 1005)
           (Block.Txs [transfer1; transfer2; reward_dave]) 120 "00f7a182".

Definition chain3 : Blockchain.t :=
  Blockchain.mk [genesis; block1; block2] 2 [] 100.

(** A transfer of 30 from [alice] that [addTransaction] accepted twice, and
    the block mined for [dave] in which that one object stands at the
    places 0 and 1. *)
Definition transfer30 : Transaction.t :=
  Transaction.mk alice bob 30 1002 (Some "29d56e4f").

Definition block_twice : Block.t :=
  Block.mk "003cdecc" (Block.Millis 1005)
           (Block.Txs [transfer30; transfer30; reward_dave]) 240 "00e0da85".

Definition chain_twice : Blockchain.t :=
  Blockchain.mk [genesis; block1; block_twice] 2 [] 100.

Definition transfer30_places : Places :=
  mkPlaces (fun j m => (j =? 2)%nat && (m <? 2)%nat) (fun _ => false).

(** The end-to-end scenario: mine for [alice], transfer 40 to [bob], mine
    again for [alice]. *)
Definition transfer40 : Transaction.t :=
  snd (@Transaction.signTransaction Toy.crypto "alice"
         (Transaction.new 2002 alice bob 40)).

Definition scenario : option Blockchain.t :=
  r1 ← @Blockchain.minePendingTransactions Toy.crypto Toy.engine 2000 2001 alice
         2000 (@Blockchain.new Toy.crypto);
  r2 ← @Blockchain.minePendingTransactions Toy.crypto Toy.engine 2003 2004 alice
         2000 (snd (@Blockchain.addTransaction Toy.crypto transfer40 (snd r1)));
  Some (snd r2).

End Examples.

Module TamperedExamples.

(** A chain whose second block links to the genesis block and holds a
    transfer that carries no signature, as left by an outside write such as
    [chain[1].transactions.push(new Transaction('pk-alice', 'pk-bob', 5))]. *)
Definition unsigned_transfer : Transaction.t :=
  Transaction.mk Examples.alice Examples.bob 5 1002 None.

Definition unsigned_chain : Blockchain.t :=
  Blockchain.mk
    [Examples.genesis;
     Block.mk "82e3395f" (Block.Millis 1001)
              (Block.Txs [Examples.reward_alice; unsigned_transfer]) 288 "003cdecc"]
    2 [] 100.

(** A chain whose one mined block pays a reward of [NaN], as mined after
    the outside write [bc.miningReward = NaN]. *)
Definition nan_reward : Transaction.t :=
  Transaction.mk None Examples.alice NaN 1000 None.

Definition nan_reward_chain : Blockchain.t :=
  Blockchain.mk
    [Examples.genesis;
     Block.mk "82e3395f" (Block.Millis 1001) (Block.Txs [nan_reward]) 8 "00a9fe77"]
    2 [] NaN.

(** A transfer whose sender is one of the addresses the driver script sends
    to, ['address2'], which is no public key; it carries a signature made
    for another transfer. *)
Definition foreign_transfer : Transaction.t :=
  Transaction.mk (Some "address2") Examples.bob 5 1002 (Some "b92311ab").

(** A transfer from a public key whose [signature] is not the encoding of a
    signature. *)
Definition garbled_transfer : Transaction.t :=
  Transaction.mk Examples.alice Examples.bob 5 1002 (Some "abc").

(** A chain whose second block links to the genesis block and opens with
    that transfer. *)
Definition garbled_chain : Blockchain.t :=
  Blockchain.mk
    [Examples.genesis;
     Block.mk "82e3395f" (Block.Millis 1001)
              (Block.Txs [garbled_transfer; Examples.reward_alice]) 288 "003cdecc"]
    2 [] 100.

End TamperedExamples.

(* ================================================================== *)
(** ** Outside writes to a block, and the driver script                *)
(* ================================================================== *)

(** Direct assignments [block.previousHash = v], [block.hash = v],
    [block.nonce = v] and [block.transactions = l]. *)
Definition with_previousHash (v : string) (b : Block.t) : Block.t :=
  Block.mk v (Block.timestamp b) (Block.transactions b) (Block.nonce b)
           (Block.hash b).

Definition with_hash (v : string) (b : Block.t) : Block.t :=
  Block.mk (Block.previousHash b) (Block.timestamp b) (Block.transactions b)
           (Block.nonce b) v.

Definition with_nonce (v : Z) (b : Block.t) : Block.t :=
  Block.mk (Block.previousHash b) (Block.timestamp b) (Block.transactions b)
           v (Block.hash b).

Definition with_transactions (l : list Transaction.t) (b : Block.t) : Block.t :=
  Block.mk (Block.previousHash b) (Block.timestamp b) (Block.Txs l)
           (Block.nonce b) (Block.hash b).

(** The same write applied to [bc.chain[i]]. *)
Definition overwrite_block (f : Block.t -> Block.t) (i : nat)
    (bc : Blockchain.t) : Blockchain.t :=
  Blockchain.mk (alter f i (Blockchain.chain bc)) (Blockchain.difficulty bc)
                (Blockchain.pendingTransactions bc) (Blockchain.miningReward bc).

(** [signTransaction] returned, having stored the signature of the digest. *)
Definition signTransaction_result_ok `{Crypto} (signingKey : KeyPair)
    (tx : Transaction.t) : Prop :=
  exists h,
    Transaction.calculateHash tx = Normal h /\
    Transaction.signTransaction signingKey tx
    = (Normal tt, Transaction.set_signature (ec_sign signingKey h) tx).

Section SoundChains.
Context `{Crypto} `{Engine}.

(** A transfer as [addTransaction] lets it in: the test [amount <= 0] was
    false on it. *)
Definition sound_transfer (tx : Transaction.t) : Prop :=
  names_both_parties tx /\ Number.leb (Transaction.amount tx) 0 = false /\
  Transaction.isValid tx = Normal true.

(** A block as [minePendingTransactions] appends it after [prev]. *)
Definition sound_block (prev b : Block.t) : Prop :=
  Block.previousHash b = Block.hash prev /\
  Block.hash b = Block.calculateHash b /\
  Block.meets_difficulty 2 b = Normal true /\
  (exists n, Block.timestamp b = Block.Millis n) /\
  exists transfers reward,
    Block.transactions b = Block.Txs (transfers ++ [reward]) /\
    Transaction.fromAddress reward = None /\
    Forall sound_transfer transfers.

(** Every block after the first is sound with respect to the one before. *)
Fixpoint sound_from (prev : Block.t) (blocks : list Block.t) : Prop :=
  match blocks with
  | [] => True
  | b :: rest => sound_block prev b /\ sound_from b rest
  end.

End SoundChains.

(** The transactions [getAllTransactionsForWallet] is to collect. *)
Definition concerns (address : Address) (tx : Transaction.t) : Prop :=
  Transaction.fromAddress tx = address \/ Transaction.toAddress tx = address.

Global Instance concerns_dec (address : Address) (tx : Transaction.t) :
  Decision (concerns address tx).
Proof. unfold concerns. apply _. Defined.

(** The driver script ([main.js] of the README): it mines a first block for
    its own wallet, sends 100 to ['address2'], mines, sends 50 to
    ['address3'], mines, prints three balances and whether the chain is
    valid.  [now] gives the successive readings of [Date.now()]; [tamper]
    is the line the script leaves commented out,
    [myBlockChain.chain[1].transactions[0].amount = 10]. *)
Module Main.

Record Output : Type := mkOutput {
  balance_mine : number;
  balance_address2 : number;
  balance_address3 : number;
  chain_valid : string
}.

Section WithCrypto.
Context `{Crypto} `{Engine}.

(** [minePendingTransactions] as one statement of the script: a throw ends
    the script, [None] is a search that does not finish. *)
Definition mine (now_tx now_block : Z) (miner : string) (fuel : nat)
    (bc : Blockchain.t) : option (completion Blockchain.t) :=
  match Blockchain.minePendingTransactions now_tx now_block (Some miner) fuel bc with
  | None => None
  | Some (Normal _, bc') => Some (Normal bc')
  | Some (Throw e, _) => Some (Throw e)
  end.

(** [const tx = new Transaction(from, to, amount); tx.signTransaction(key);
    bc.addTransaction(tx);] *)
Definition send (now : Z) (key : KeyPair) (from to : string) (amount : number)
    (bc : Blockchain.t) : completion Blockchain.t :=
  match Transaction.signTransaction key
          (Transaction.new now (Some from) (Some to) amount) with
  | (Throw e, _) => Throw e
  | (Normal _, tx) =>
      match Blockchain.addTransaction tx bc with
      | (Throw e, _) => Throw e
      | (Normal _, bc') => Normal bc'
      end
  end.

(** The script up to its last call of [minePendingTransactions]. *)
Definition setup (myKeyPair : KeyPair) (now : nat -> Z) (fuel : nat)
  : option (completion Blockchain.t) :=
  let myWalletAddress := getPublic myKeyPair in
  match mine (now 0%nat) (now 1%nat) myWalletAddress fuel Blockchain.new with
  | None => None
  | Some (Throw e) => Some (Throw e)
  | Some (Normal bc) =>
      match send (now 2%nat) myKeyPair myWalletAddress "address2" 100 bc with
      | Throw e => Some (Throw e)
      | Normal bc =>
          match mine (now 3%nat) (now 4%nat) myWalletAddress fuel bc with
          | None => None
          | Some (Throw e) => Some (Throw e)
          | Some (Normal bc) =>
              match send (now 5%nat) myKeyPair myWalletAddress "address3" 50 bc with
              | Throw e => Some (Throw e)
              | Normal bc => mine (now 6%nat) (now 7%nat) myWalletAddress fuel bc
              end
          end
      end
  end.

(** [myBlockChain.chain[1].transactions[0].amount = 10]: a [TypeError] when
    the block or the transaction is not there; on a text the write goes to a
    character, a primitive, and is dropped.  The transaction written to is
    the first reward, an object [minePendingTransactions] has made and put
    at that one place. *)
Definition tamper_line (bc : Blockchain.t) : completion Blockchain.t :=
  match Blockchain.chain bc !! 1%nat with
  | None => Throw (TypeError "Cannot read properties of undefined")
  | Some b =>
      match Block.transactions b with
      | Block.Txs l =>
          match l !! 0%nat with
          | None => Throw (TypeError "Cannot set properties of undefined")
          | Some _ => Normal (Blockchain.set_amount 1 0 10 bc)
          end
      | Block.Text EmptyString =>
          Throw (TypeError "Cannot set properties of undefined")
      | Block.Text _ => Normal bc
      end
  end.

(** The printing part: the three balances, then the validity check. *)
Definition report (myKeyPair : KeyPair) (tamper : bool) (bc : Blockchain.t)
  : completion Output :=
  let mine := Blockchain.getBalanceOfAddress (Some (getPublic myKeyPair)) bc in
  let address2 := Blockchain.getBalanceOfAddress (Some "address2") bc in
  let address3 := Blockchain.getBalanceOfAddress (Some "address3") bc in
  completion_bind (if tamper then tamper_line bc else Normal bc) (fun bc =>
    completion_bind (Blockchain.isChainValid bc) (fun valid =>
      Normal (mkOutput mine address2 address3 (if valid then "Yes" else "No")))).

Definition main (myKeyPair : KeyPair) (now : nat -> Z) (fuel : nat)
    (tamper : bool) : option (completion Output) :=
  match setup myKeyPair now fuel with
  | None => None
  | Some (Throw e) => Some (Throw e)
  | Some (Normal bc) => Some (report myKeyPair tamper bc)
  end.

End WithCrypto.

End Main.

(** *** Reading a serialised string back

    The inverse of [json_escape], used to show that the serialisation of a
    block's transactions determines them. *)

Definition hex_value (c : ascii) : option N :=
  let n := N_of_ascii c in
  if ((48 <=? n) && (n <=? 57))%N then Some (n - 48)%N
  else if ((97 <=? n) && (n <=? 102))%N then Some (n - 87)%N
  else None.

(** The character a two-character escape stands for. *)
Definition simple_escape (e : ascii) : option ascii :=
  let n := N_of_ascii e in
  if (n =? 34)%N then Some (ascii_of_N 34)
  else if (n =? 92)%N then Some (ascii_of_N 92)
  else if (n =? 98)%N then Some (ascii_of_N 8)
  else if (n =? 116)%N then Some (ascii_of_N 9)
  else if (n =? 110)%N then Some (ascii_of_N 10)
  else if (n =? 102)%N then Some (ascii_of_N 12)
  else if (n =? 114)%N then Some (ascii_of_N 13)
  else None.

Definition prepend (c : ascii) (r : option (string * string))
  : option (string * string) :=
  match r with
  | Some (s, rest) => Some (String c s, rest)
  | None => None
  end.

(** Reads the inside of a serialised string up to its closing quote:
    the string it stands for, and what follows the quote. *)
Fixpoint json_unescape (s : string) : option (string * string) :=
  match s with
  | EmptyString => None
  | String c s1 =>
      if (N_of_ascii c =? 34)%N then Some (EmptyString, s1)
      else if (N_of_ascii c =? 92)%N then
        match s1 with
        | EmptyString => None
        | String e s2 =>
            match simple_escape e with
            | Some ch => prepend ch (json_unescape s2)
            | None =>
                match s2 with
                | String _ (String _ (String h1 (String h2 s3))) =>
                    match hex_value h1, hex_value h2 with
                    | Some a, Some b =>
                        prepend (ascii_of_N (16 * a + b)) (json_unescape s3)
                    | _, _ => None
                    end
                | _ => None
                end
            end
        end
      else prepend c (json_unescape s1)
  end.

(** A digit or the minus sign. *)
Definition numeric_char (c : ascii) : bool :=
  let n := N_of_ascii c in
  ((48 <=? n) && (n <=? 57))%N || (n =? 45)%N.

Fixpoint numeric (s : string) : Prop :=
  match s with
  | EmptyString => True
  | String c s' => numeric_char c = true /\ numeric s'
  end.

(** An outside write that replaces the transactions of a block and then
    brings its hash up to date:
    [block.transactions = l; block.hash = block.calculateHash()]. *)
Definition rewrite_transactions `{Crypto} (l : list Transaction.t) (b : Block.t)
  : Block.t :=
  with_hash (Block.calculateHash (with_transactions l b)) (with_transactions l b).

(** A key pair whose signatures are never empty and verify under its public
    key. *)
Definition signs_correctly `{Crypto} (key : KeyPair) : Prop :=
  forall h,
    ec_sign key h <> "" /\
    verify_under (getPublic key) h (ec_sign key h) = Normal true.

(** A clock for running the script under the toy instance, and the
    blockchain the script has built with it when it starts printing. *)
Definition toy_clock (n : nat) : Z := 3000 + Z.of_nat n.

Definition toy_script_block1 : Block.t :=
  Block.mk "82e3395f" (Block.Millis 3001)
    (Block.Txs [Transaction.mk None (Some "pk-alice") 100 3000 None])
    185 "005f313d".

Definition toy_script_chain : Blockchain.t :=
  Blockchain.mk
    [Examples.genesis;
     toy_script_block1;
     Block.mk "005f313d" (Block.Millis 3004)
       (Block.Txs [Transaction.mk (Some "pk-alice") (Some "address2") 100 3002
                                  (Some "b406919a");
                   Transaction.mk None (Some "pk-alice") 100 3003 None])
       13 "00bcfcc0";
     Block.mk "00bcfcc0" (Block.Millis 3007)
       (Block.Txs [Transaction.mk (Some "pk-alice") (Some "address3") 50 3005
                                  (Some "e85633ef");
                   Transaction.mk None (Some "pk-alice") 100 3006 None])
       396 "002efc81"]
    2 [] 100.

(* ================================================================== *)
(** * Properties                                                       *)
(* ================================================================== *)

(** ** Numbers *)

Section NumberFacts.

Lemma add_comm (a b : number) : (a + b)%number = (b + a)%number.
Proof. destruct a, b; simpl; try reflexivity. f_equal. lia. Qed.

Lemma add_assoc (a b c : number) : (a + (b + c))%number = (a + b + c)%number.
Proof. destruct a, b, c; simpl; try reflexivity. f_equal. lia. Qed.

Lemma add_0_l (a : number) : (Finite 0 + a)%number = a.
Proof. destruct a; reflexivity. Qed.

Lemma add_0_r (a : number) : (a + Finite 0)%number = a.
Proof. destruct a; simpl; try reflexivity. f_equal. lia. Qed.

Lemma add_NaN_l (a : number) : (NaN + a)%number = NaN.
Proof. reflexivity. Qed.

Lemma add_NaN_r (a : number) : (a + NaN)%number = NaN.
Proof. destruct a; reflexivity. Qed.

Lemma sub_add_opp (a b : number) : (a - b)%number = (a + - b)%number.
Proof. reflexivity. Qed.

Lemma sum_app (l1 l2 : list number) : sum (l1 ++ l2) = (sum l1 + sum l2)%number.
Proof.
  unfold sum. induction l1 as [|x l1 IH]; cbn [app foldr].
  - now rewrite add_0_l.
  - now rewrite IH, add_assoc.
Qed.

(** No comparison holds of [NaN]. *)
Lemma leb_NaN_l (a : number) : Number.leb NaN a = false.
Proof. reflexivity. Qed.

Lemma ltb_NaN_r (a : number) : Number.ltb a NaN = false.
Proof. destruct a; reflexivity. Qed.

Lemma ltb_NaN_l (a : number) : Number.ltb NaN a = false.
Proof. reflexivity. Qed.

(** The numbers on which [amount <= 0] is false: the positive ones and
    [NaN]. *)
Lemma leb_0_false (a : number) :
  Number.leb a 0 = false <->
  a = NaN \/ a = Infinity \/ exists z, a = Finite z /\ 0 < z.
Proof.
  destruct a as [z| | |]; simpl.
  - rewrite Z.leb_gt. split.
    + intros Hz. right. right. eauto.
    + intros [Hn | [Hn | (z' & [= ->] & Hz)]]; [discriminate|discriminate|exact Hz].
  - split; auto.
  - split; auto.
  - split; [discriminate|]. intros [Hn | [Hn | (z' & Hn & _)]]; discriminate.
Qed.

Lemma lt_finite (x y : Z) : (Finite x < Finite y)%number <-> x < y.
Proof. unfold Number.lt. simpl. apply Z.ltb_lt. Qed.

Lemma le_finite (x y : Z) : (Finite x <= Finite y)%number <-> x <= y.
Proof. unfold Number.le. simpl. apply Z.leb_le. Qed.

(** A number between two integers is an integer. *)
Lemma between_finite (a : number) (x y : Z) :
  (Finite x < a <= Finite y)%number -> exists z, a = Finite z /\ x < z <= y.
Proof.
  destruct a as [z| | |]; unfold Number.lt, Number.le; simpl;
    intros [Hlt Hle]; try discriminate.
  exists z. apply Z.ltb_lt in Hlt. apply Z.leb_le in Hle. auto.
Qed.

End NumberFacts.

(** ** The comparison string of the proof of work *)

Section EngineFacts.
Context `{Engine}.

Lemma zeros_Normal (d : nat) (z : string) : zeros d = Normal z -> z = zero_run d.
Proof.
  unfold zeros. destruct (_ <? _)%N; [discriminate|].
  destruct (_ <? _)%N; [discriminate|]. congruence.
Qed.

(** [Array(d + 1).join('0')] yields its string exactly when [d + 1] is an
    array length and [d] characters are not too long a string. *)
Lemma zeros_Normal_iff (d : nat) :
  zeros d = Normal (zero_run d) <->
  (N.of_nat d + 1 <= max_array_length)%N /\ (N.of_nat d <= max_string_length)%N.
Proof.
  unfold zeros.
  destruct (max_array_length <? N.of_nat d + 1)%N eqn:Ha.
  - apply N.ltb_lt in Ha. split; [discriminate|lia].
  - apply N.ltb_ge in Ha.
    destruct (max_string_length <? N.of_nat d)%N eqn:Hs.
    + apply N.ltb_lt in Hs. split; [discriminate|lia].
    + apply N.ltb_ge in Hs. split; auto.
Qed.

Lemma zeros_Throw (d : nat) (e : JsError) :
  zeros d = Throw e ->
  (e = RangeError "Invalid array length"
   /\ (max_array_length < N.of_nat d + 1)%N) \/
  (e = RangeError "Invalid string length"
   /\ (max_string_length < N.of_nat d)%N).
Proof.
  unfold zeros.
  destruct (max_array_length <? N.of_nat d + 1)%N eqn:Ha.
  - apply N.ltb_lt in Ha. intros [= <-]. left. auto.
  - destruct (max_string_length <? N.of_nat d)%N eqn:Hs; [|discriminate].
    apply N.ltb_lt in Hs. intros [= <-]. right. auto.
Qed.

(** The difficulty of the constructor, 2, is within every engine's limits. *)
Lemma zeros_short (d : nat) : (d <= 64)%nat -> zeros d = Normal (zero_run d).
Proof.
  intros Hd. apply zeros_Normal_iff. pose proof max_string_length_digest.
  unfold max_array_length. lia.
Qed.

End EngineFacts.

(** ** The toy instance runs the source's scenario *)

Example createGenesisBlock_toy :
  @Blockchain.createGenesisBlock Toy.crypto = Examples.genesis.
Proof. vm_compute. reflexivity. Qed.

Example sign_transfer_toy :
  @Transaction.signTransaction Toy.crypto "alice"
     (Transaction.new 1002 Examples.alice Examples.bob 60)
  = (Normal tt, Examples.transfer1).
Proof. vm_compute. reflexivity. Qed.

Example scenario_balances :
  Blockchain.getBalanceOfAddress Examples.alice <$> Examples.scenario
    = Some (Finite 160) /\
  Blockchain.getBalanceOfAddress Examples.bob <$> Examples.scenario
    = Some (Finite 40) /\
  @Blockchain.isChainValid Toy.crypto <$> Examples.scenario = Some (Normal true) /\
  @Blockchain.isChainValid Toy.crypto
    <$> (Blockchain.set_amount 2 0 999 <$> Examples.scenario)
  = Some (Normal false).
Proof. vm_compute. auto. Qed.

Example overdraft_rejected :
  @Blockchain.addTransaction Toy.crypto
     (snd (@Transaction.signTransaction Toy.crypto "bob"
             (Transaction.new 1002 Examples.bob Examples.alice 1)))
     Examples.chain1
  = (Throw err_balance, Examples.chain1).
Proof. vm_compute. reflexivity. Qed.

Example twice_accepted_toy :
  @Blockchain.minePendingTransactions Toy.crypto Toy.engine 1004 1005
     Examples.dave 300
     (snd (@Blockchain.addTransaction Toy.crypto Examples.transfer30
             (snd (@Blockchain.addTransaction Toy.crypto Examples.transfer30
                     Examples.chain1))))
  = Some (Normal tt, Examples.chain_twice).
Proof. vm_compute. reflexivity. Qed.

(** ** Transaction *)

Section TransactionFacts.
Context `{Crypto}.
Import Transaction.

Lemma calculateHash_of_sender (tx : t) (from : string) :
  fromAddress tx = Some from ->
  calculateHash tx =
    Normal (sha256_hex (from +:+ address_to_string (toAddress tx) +:+
                        number_to_string (amount tx) +:+
                        number_to_string (timestamp tx))).
Proof.
  intros Hfrom. unfold calculateHash. rewrite Hfrom. reflexivity.
Qed.

Lemma no_signature_true (tx : t) :
  no_signature tx = true <-> signature tx = None \/ signature tx = Some "".
Proof.
  unfold no_signature. destruct (signature tx) as [sig|].
  - rewrite String.eqb_eq. split.
    + intros ->. now right.
    + intros [Hn | Hs]; congruence.
  - split; auto.
Qed.

(** [isValid] on a transaction with a sender and a signature: the public
    key is decoded, then the digest computed, then the signature decoded
    and verified. *)
Lemma isValid_signed_sender (tx : t) (from sig : string) :
  fromAddress tx = Some from -> signature tx = Some sig -> sig <> "" ->
  exists h, calculateHash tx = Normal h /\ isValid tx = verify_under from h sig.
Proof.
  intros Hfrom Hsig Hne.
  eexists. split; [apply (calculateHash_of_sender _ _ Hfrom)|].
  unfold isValid, verify_under, no_signature. rewrite Hfrom, Hsig.
  apply String.eqb_neq in Hne. rewrite Hne.
  rewrite (calculateHash_of_sender _ _ Hfrom). reflexivity.
Qed.

(** [isValid] in every case.  It answers true at once on a transaction
    without sender; on a transaction with a sender it throws when the
    signature is absent or empty; otherwise it returns what
    [ec.keyFromPublic(fromAddress, 'hex').verify(calculateHash(), signature)]
    returns, and throws what that throws: the error of decoding the sender's
    key, else the error of decoding the signature, else it returns the
    boolean of the verification. *)
Lemma isValid_cases (tx : t) :
  (fromAddress tx = None -> isValid tx = Normal true) /\
  (forall from, fromAddress tx = Some from ->
     (signature tx = None \/ signature tx = Some "" ->
      isValid tx = Throw (Error "No signature in this transaction")) /\
     (forall sig, signature tx = Some sig -> sig <> "" ->
      exists h, calculateHash tx = Normal h /\
        isValid tx = verify_under from h sig /\
        (forall e, keyFromPublic from = Throw e -> isValid tx = Throw e) /\
        (forall key e, keyFromPublic from = Normal key ->
           importSignature sig = Throw e -> isValid tx = Throw e) /\
        (forall key s, keyFromPublic from = Normal key ->
           importSignature sig = Normal s ->
           isValid tx = Normal (ec_verify key h s)))).
Proof.
  split.
  - intros Hfrom. unfold isValid. now rewrite Hfrom.
  - intros from Hfrom. split.
    + intros Hsig. apply no_signature_true in Hsig.
      unfold isValid. now rewrite Hfrom, Hsig.
    + intros sig Hsig Hne.
      destruct (isValid_signed_sender tx from sig Hfrom Hsig Hne) as (h & Hh & Hv).
      exists h. split; [exact Hh|]. split; [exact Hv|]. rewrite Hv.
      unfold verify_under, verify. repeat split.
      * intros e ->. reflexivity.
      * intros key e -> ->. reflexivity.
      * intros key s -> ->. reflexivity.
Qed.

(** What [isValid] throws, and on what. *)
Lemma isValid_throws (tx : t) (e : JsError) :
  isValid tx = Throw e ->
  exists from,
    fromAddress tx = Some from /\
    ((no_signature tx = true /\ e = Error "No signature in this transaction") \/
     (no_signature tx = false /\ keyFromPublic from = Throw e) \/
     (no_signature tx = false /\
      exists sig, signature tx = Some sig /\ importSignature sig = Throw e)).
Proof.
  unfold isValid. destruct (fromAddress tx) as [from|] eqn:Hfrom; [|discriminate].
  intros Hthrow. exists from. split; [reflexivity|].
  destruct (no_signature tx) eqn:Hno.
  - left. split; [reflexivity|]. congruence.
  - right. destruct (keyFromPublic from) as [key|e'] eqn:Hkey; simpl in Hthrow.
    + right. split; [reflexivity|].
      rewrite (calculateHash_of_sender _ _ Hfrom) in Hthrow. simpl in Hthrow.
      unfold verify in Hthrow. unfold no_signature in Hno.
      destruct (signature tx) as [sig|]; [|discriminate].
      exists sig. split; [reflexivity|]. simpl in Hthrow.
      destruct (importSignature sig); [discriminate|]. simpl in Hthrow. congruence.
    + left. split; [reflexivity|]. congruence.
Qed.

(** When [isValid] returns, a transaction with a sender has a signature and
    both decodings went through. *)
Lemma isValid_returns (tx : t) (r : bool) :
  isValid tx = Normal r ->
  fromAddress tx = None \/
  exists from sig key s,
    fromAddress tx = Some from /\ signature tx = Some sig /\ sig <> "" /\
    keyFromPublic from = Normal key /\ importSignature sig = Normal s.
Proof.
  unfold isValid. destruct (fromAddress tx) as [from|] eqn:Hfrom; [|now left].
  unfold no_signature. destruct (signature tx) as [sig|] eqn:Hsig; [|discriminate].
  destruct (String.eqb sig "") eqn:Hne; [discriminate|].
  apply String.eqb_neq in Hne.
  destruct (keyFromPublic from) as [key|e] eqn:Hkey; [|discriminate].
  simpl. rewrite (calculateHash_of_sender _ _ Hfrom). simpl. unfold verify.
  destruct (importSignature sig) as [s|e] eqn:Hs; [|discriminate].
  intros _. right. exists from, sig, key, s. auto.
Qed.

(** C8. [signTransaction] throws the wrong-wallet error and leaves the
    transaction as it was, without a new signature, whenever the public key
    of the signing key pair differs from [fromAddress]; when they are equal
    it returns normally, and the transaction it leaves has in its
    [signature] field the signature, by that key pair, of the digest
    [calculateHash()] returns, every other field being as before (so that
    [calculateHash()] still returns that digest). *)
Theorem signTransaction_spec (signingKey : KeyPair) (tx : t) :
  (Some (getPublic signingKey) <> fromAddress tx ->
   signTransaction signingKey tx =
     (Throw (Error "You cannot sign transactions for other wallets!"), tx) /\
   signature (snd (signTransaction signingKey tx)) = signature tx) /\
  (Some (getPublic signingKey) = fromAddress tx ->
   exists h tx',
     calculateHash tx = Normal h /\
     signTransaction signingKey tx = (Normal tt, tx') /\
     signature tx' = Some (ec_sign signingKey h) /\
     fromAddress tx' = fromAddress tx /\ toAddress tx' = toAddress tx /\
     amount tx' = amount tx /\ timestamp tx' = timestamp tx /\
     calculateHash tx' = Normal h).
Proof.
  split; intros Hkey.
  - unfold signTransaction. unfold_method.
    rewrite bool_decide_eq_true_2 by exact Hkey. split; reflexivity.
  - symmetry in Hkey.
    pose proof (calculateHash_of_sender _ _ Hkey) as Hh.
    eexists. eexists. split; [exact Hh|].
    unfold signTransaction. unfold_method.
    rewrite bool_decide_eq_false_2 by (intros Hne; apply Hne; now symmetry).
    rewrite Hh. split; [reflexivity|]. simpl. repeat split. exact Hh.
Qed.

(** A freshly signed transaction keeps every field but [signature]. *)
Lemma signTransaction_fields (signingKey : KeyPair) (tx : t) :
  let tx' := snd (signTransaction signingKey tx) in
  fromAddress tx' = fromAddress tx /\ toAddress tx' = toAddress tx /\
  amount tx' = amount tx /\ timestamp tx' = timestamp tx.
Proof.
  unfold signTransaction. unfold_method.
  destruct (bool_decide (Some (getPublic signingKey) <> fromAddress tx));
    [simpl; auto|].
  destruct (calculateHash tx); simpl; auto.
Qed.

End TransactionFacts.

(** C7. [isValid()] does not always return the boolean of the verification
    when a signature is present.  Whatever the signature scheme, on a
    transaction with a sender and a non-empty signature an error thrown by
    [ec.keyFromPublic] on the sender, or by [verify] on decoding the
    signature, leaves [isValid()] uncaught.  Run on a transfer whose sender
    is ['address2'], no public key, [isValid()] throws 'Unknown point
    format'; on a transfer whose signature is ['abc'], not the encoding of
    a signature, it throws 'Signature without r or s'. *)
Theorem isValid_raises_on_malformed :
  (forall (C : Crypto) (tx : Transaction.t) (from sig : string) (e : JsError),
     Transaction.fromAddress tx = Some from ->
     Transaction.signature tx = Some sig -> sig <> "" ->
     (keyFromPublic from = Throw e -> Transaction.isValid tx = Throw e) /\
     (forall key, keyFromPublic from = Normal key ->
        importSignature sig = Throw e -> Transaction.isValid tx = Throw e)) /\
  @Transaction.isValid Toy.crypto TamperedExamples.foreign_transfer
    = Throw (Error "Unknown point format") /\
  @Transaction.isValid Toy.crypto TamperedExamples.garbled_transfer
    = Throw (Error "Signature without r or s").
Proof.
  split; [|split; vm_compute; reflexivity].
  intros C tx from sig e Hfrom Hsig Hne.
  destruct (isValid_cases tx) as [_ Hcases].
  destruct (Hcases from Hfrom) as [_ Hsigned].
  destruct (Hsigned sig Hsig Hne) as (h & _ & _ & Hkey & Hdecode & _).
  split; [apply Hkey|intros key; apply Hdecode].
Qed.

(** ** addTransaction *)

Section AddTransactionFacts.
Context `{Crypto}.
Import Blockchain.

Lemma absent_not_truthy (a : Address) : a = None \/ a = Some "" <-> truthy a = false.
Proof.
  destruct a as [s|]; simpl.
  - rewrite negb_false_iff, String.eqb_eq. split.
    + intros [Hn | Hs]; congruence.
    + intros ->. now right.
  - split; auto.
Qed.

Lemma names_both_parties_dec (tx : Transaction.t) :
  names_both_parties tx <->
  negb (truthy (Transaction.fromAddress tx))
  || negb (truthy (Transaction.toAddress tx)) = false.
Proof.
  unfold names_both_parties.
  destruct (truthy (Transaction.fromAddress tx)),
           (truthy (Transaction.toAddress tx)); simpl; intuition congruence.
Qed.

(** The complete case analysis of [addTransaction], in the order of the
    source. *)
Lemma addTransaction_cases (tx : Transaction.t) (bc : t) :
  addTransaction tx bc =
    if negb (truthy (Transaction.fromAddress tx))
       || negb (truthy (Transaction.toAddress tx))
    then (Throw err_addresses, bc)
    else match Transaction.isValid tx with
         | Throw e => (Throw e, bc)
         | Normal false => (Throw err_invalid, bc)
         | Normal true =>
             if Number.leb (Transaction.amount tx) 0 then (Throw err_amount, bc)
             else if Number.ltb
                       (getBalanceOfAddress (Transaction.fromAddress tx) bc)
                       (Transaction.amount tx)
                  then (Throw err_balance, bc)
                  else (Normal tt, push_pending tx bc)
         end.
Proof.
  unfold addTransaction. unfold_method.
  destruct (negb (truthy (Transaction.fromAddress tx))
            || negb (truthy (Transaction.toAddress tx))); [reflexivity|].
  destruct (Transaction.isValid tx) as [[|]|e]; simpl; try reflexivity.
  destruct (Number.leb (Transaction.amount tx) 0); [reflexivity|].
  destruct (Number.ltb (getBalanceOfAddress (Transaction.fromAddress tx) bc)
                       (Transaction.amount tx)); reflexivity.
Qed.

(** C4. [addTransaction] runs its four checks in the order of the source,
    the first failing one deciding the error, and the four errors are
    pairwise different: (1) an address is absent ([null]; the empty string
    counts as absent too), (2) [isValid()] is false, (3) [amount <= 0],
    (4) the balance of the sender over the chain is below [amount].  Whenever
    the call throws, the blockchain is left exactly as it was; when it
    returns, the blockchain differs only in that the transaction has been
    appended to [pendingTransactions].  The comparisons are JavaScript's:
    both are false on an amount that is [NaN]. *)
Theorem addTransaction_spec (tx : Transaction.t) (bc : t) :
  (* the four checks, in order *)
  ((Transaction.fromAddress tx = None \/ Transaction.toAddress tx = None \/
    ~ names_both_parties tx) ->
   addTransaction tx bc = (Throw err_addresses, bc)) /\
  (names_both_parties tx -> Transaction.isValid tx = Normal false ->
   addTransaction tx bc = (Throw err_invalid, bc)) /\
  (names_both_parties tx -> Transaction.isValid tx = Normal true ->
   (Transaction.amount tx <= 0)%number ->
   addTransaction tx bc = (Throw err_amount, bc)) /\
  (names_both_parties tx -> Transaction.isValid tx = Normal true ->
   ~ (Transaction.amount tx <= 0)%number ->
   (getBalanceOfAddress (Transaction.fromAddress tx) bc < Transaction.amount tx)%number ->
   addTransaction tx bc = (Throw err_balance, bc)) /\
  (* success *)
  (names_both_parties tx -> Transaction.isValid tx = Normal true ->
   ~ (Transaction.amount tx <= 0)%number ->
   ~ (getBalanceOfAddress (Transaction.fromAddress tx) bc < Transaction.amount tx)%number ->
   addTransaction tx bc = (Normal tt, push_pending tx bc)) /\
  (* on integers the two comparisons are the usual ones *)
  (forall a balance : Z,
     ((Finite a <= 0)%number <-> a <= 0) /\
     ((Finite balance < Finite a)%number <-> balance < a)) /\
  (* the errors are distinct *)
  NoDup [err_addresses; err_invalid; err_amount; err_balance] /\
  (* no partial commit *)
  (forall e bc', addTransaction tx bc = (Throw e, bc') -> bc' = bc) /\
  (forall bc', addTransaction tx bc = (Normal tt, bc') ->
     chain bc' = chain bc /\ difficulty bc' = difficulty bc /\
     miningReward bc' = miningReward bc /\
     pendingTransactions bc' = pendingTransactions bc ++ [tx]).
Proof.
  rewrite addTransaction_cases. unfold Number.le, Number.lt.
  split; [|split; [|split; [|split; [|split; [|split; [|split; [|split]]]]]]].
  - intros Habs.
    assert (Hnot : ~ names_both_parties tx).
    { destruct Habs as [Hn | [Hn | Hn]]; [| |exact Hn];
        intros [Hf Ht]; rewrite Hn in *; discriminate. }
    rewrite names_both_parties_dec in Hnot.
    destruct (negb _ || negb _); [reflexivity|congruence].
  - intros Hboth ->. apply names_both_parties_dec in Hboth. now rewrite Hboth.
  - intros Hboth -> Hamt. apply names_both_parties_dec in Hboth.
    now rewrite Hboth, Hamt.
  - intros Hboth -> Hamt Hbal. apply names_both_parties_dec in Hboth.
    apply not_true_is_false in Hamt. now rewrite Hboth, Hamt, Hbal.
  - intros Hboth -> Hamt Hbal. apply names_both_parties_dec in Hboth.
    apply not_true_is_false in Hamt, Hbal. now rewrite Hboth, Hamt, Hbal.
  - intros a balance. simpl. rewrite Z.leb_le, Z.ltb_lt. tauto.
  - apply (bool_decide_unpack _). vm_compute. reflexivity.
  - intros e bc'.
    destruct (negb _ || negb _); [congruence|].
    destruct (Transaction.isValid tx) as [[|]|e']; try congruence.
    destruct (Number.leb _ _); [congruence|].
    destruct (Number.ltb _ _); congruence.
  - intros bc'.
    destruct (negb _ || negb _); [congruence|].
    destruct (Transaction.isValid tx) as [[|]|e']; try congruence.
    destruct (Number.leb _ _); [congruence|].
    destruct (Number.ltb _ _); [congruence|].
    intros [= <-]. simpl. auto.
Qed.

(** The outcome of [addTransaction] does not depend on the pending pool. *)
Lemma addTransaction_ignores_pending (tx : Transaction.t) (bc : t)
    (pool : list Transaction.t) :
  fst (addTransaction tx (mk (chain bc) (difficulty bc) pool (miningReward bc)))
  = fst (addTransaction tx bc).
Proof.
  rewrite !addTransaction_cases. unfold getBalanceOfAddress. simpl.
  destruct (negb _ || negb _); [reflexivity|].
  destruct (Transaction.isValid tx) as [[|]|e']; try reflexivity.
  destruct (Number.leb _ _); [reflexivity|].
  destruct (Number.ltb _ _); reflexivity.
Qed.

End AddTransactionFacts.

(** ** Block: proof of work *)

Section BlockFacts.
Context `{Crypto} `{Engine}.
Import Block.

Lemma substring_zeros_get (d : nat) (s : string) :
  String.substring 0 d s = zero_run d ->
  forall i, (i < d)%nat -> String.get i s = Some "0"%char.
Proof.
  revert s. induction d as [|d IH]; intros s Hs i Hi; [lia|].
  destruct s as [|c s]; simpl in Hs; [discriminate|].
  injection Hs as -> Hs.
  destruct i as [|i]; simpl; [reflexivity|].
  apply IH; [exact Hs|lia].
Qed.

Lemma get_zeros_substring (d : nat) (s : string) :
  (forall i, (i < d)%nat -> String.get i s = Some "0"%char) ->
  String.substring 0 d s = zero_run d.
Proof.
  revert s. induction d as [|d IH]; intros s Hget.
  - destruct s; reflexivity.
  - destruct s as [|c s].
    + specialize (Hget 0%nat ltac:(lia)). discriminate.
    + simpl. f_equal.
      * specialize (Hget 0%nat ltac:(lia)). simpl in Hget. congruence.
      * apply IH. intros i Hi. apply (Hget (S i)). lia.
Qed.

(** The loop condition reads nothing of the block but its hash. *)
Lemma meets_difficulty_hash (d : nat) (b b' : t) :
  hash b = hash b' -> meets_difficulty d b = meets_difficulty d b'.
Proof. unfold meets_difficulty. now intros ->. Qed.

(** The loop condition throws exactly when the comparison string cannot be
    built, and then whatever the block. *)
Lemma meets_difficulty_Throw (d : nat) (b : t) (e : JsError) :
  meets_difficulty d b = Throw e <-> zeros d = Throw e.
Proof.
  unfold meets_difficulty. destruct (zeros d) as [z|e']; simpl.
  - split; discriminate.
  - split; intros [= ->]; reflexivity.
Qed.

Lemma meets_difficulty_Normal (d : nat) (b : t) (r : bool) :
  meets_difficulty d b = Normal r <->
  zeros d = Normal (zero_run d) /\
  r = String.eqb (String.substring 0 d (hash b)) (zero_run d).
Proof.
  unfold meets_difficulty. destruct (zeros d) as [z|e'] eqn:Hz; simpl.
  - apply zeros_Normal in Hz as ->. split.
    + intros [= <-]. auto.
    + intros [_ ->]. reflexivity.
  - split; [discriminate|]. intros [Hn _]. discriminate.
Qed.

(** The loop of [mineBlock] stops without an error exactly on a hash whose
    first [d] characters are all ['0'], the comparison string having been
    built. *)
Lemma meets_difficulty_leading_zeros (d : nat) (b : t) :
  meets_difficulty d b = Normal true <->
  zeros d = Normal (zero_run d) /\
  forall i, (i < d)%nat -> String.get i (hash b) = Some "0"%char.
Proof.
  rewrite meets_difficulty_Normal. split.
  - intros [Hz Heq]. split; [exact Hz|].
    symmetry in Heq. apply String.eqb_eq in Heq.
    now apply substring_zeros_get.
  - intros [Hz Hget]. split; [exact Hz|].
    symmetry. apply String.eqb_eq. now apply get_zeros_substring.
Qed.

Lemma try_next_nonce_fresh (b : t) :
  hash (try_next_nonce b) = calculateHash (try_next_nonce b).
Proof. reflexivity. Qed.

Lemma new_fresh (ts : Time) (body : Body) (prev : string) :
  hash (new ts body prev) = calculateHash (new ts body prev).
Proof. reflexivity. Qed.

(** Every turn of the loop keeps the header and the body, and moves the
    nonce up. *)
Lemma mineBlock_fields (d fuel : nat) (b b' : t) (r : completion unit) :
  mineBlock d fuel b = Some (r, b') ->
  previousHash b' = previousHash b /\ timestamp b' = timestamp b /\
  transactions b' = transactions b /\ nonce b <= nonce b'.
Proof.
  revert b. induction fuel as [|fuel IH]; intros b; simpl;
    destruct (meets_difficulty d b) as [[|]|e].
  - intros [= <- <-]. repeat split; lia.
  - discriminate.
  - intros [= <- <-]. repeat split; lia.
  - intros [= <- <-]. repeat split; lia.
  - intros Hrun. apply IH in Hrun as (Hp & Ht & Hb & Hn). simpl in *.
    repeat split; try assumption. lia.
  - intros [= <- <-]. repeat split; lia.
Qed.

Lemma mineBlock_meets (d fuel : nat) (b b' : t) :
  mineBlock d fuel b = Some (Normal tt, b') -> meets_difficulty d b' = Normal true.
Proof.
  revert b. induction fuel as [|fuel IH]; intros b; simpl;
    destruct (meets_difficulty d b) as [[|]|e] eqn:Hm; try discriminate;
    try (intros [= <-]; exact Hm).
  apply IH.
Qed.

(** A block that already meets the difficulty is returned as it is. *)
Lemma mineBlock_already_met (d fuel : nat) (b : t) :
  meets_difficulty d b = Normal true -> mineBlock d fuel b = Some (Normal tt, b).
Proof. intros Hm. destruct fuel; simpl; now rewrite Hm. Qed.

(** When the comparison string cannot be built, [mineBlock] throws at its
    first test and leaves the block as it was. *)
Lemma mineBlock_throws (d fuel : nat) (b : t) (e : JsError) :
  zeros d = Throw e -> mineBlock d fuel b = Some (Throw e, b).
Proof.
  intros Hz. apply (meets_difficulty_Throw d b) in Hz.
  destruct fuel; simpl; now rewrite Hz.
Qed.

(** [mineBlock] throws nothing else. *)
Lemma mineBlock_thrown (d fuel : nat) (b b' : t) (e : JsError) :
  mineBlock d fuel b = Some (Throw e, b') -> zeros d = Throw e.
Proof.
  revert b. induction fuel as [|fuel IH]; intros b; simpl;
    destruct (meets_difficulty d b) as [[|]|e'] eqn:Hm; try discriminate.
  - intros [= <- <-]. now apply meets_difficulty_Throw in Hm.
  - apply IH.
  - intros [= <- <-]. now apply meets_difficulty_Throw in Hm.
Qed.

Lemma mineBlock_fresh (d fuel : nat) (b b' : t) :
  mineBlock d fuel b = Some (Normal tt, b') ->
  hash b = calculateHash b \/ meets_difficulty d b = Normal false ->
  hash b' = calculateHash b'.
Proof.
  revert b. induction fuel as [|fuel IH]; intros b; simpl;
    destruct (meets_difficulty d b) as [[|]|e] eqn:Hm; try discriminate.
  - intros [= <-] [Hf | Hf]; [exact Hf|discriminate].
  - intros [= <-] [Hf | Hf]; [exact Hf|discriminate].
  - intros Hrun _. apply (IH _ Hrun). left. apply try_next_nonce_fresh.
Qed.

Lemma mineBlock_more_fuel (d fuel fuel' : nat) (b : t)
    (out : completion unit * t) :
  mineBlock d fuel b = Some out -> (fuel <= fuel')%nat ->
  mineBlock d fuel' b = Some out.
Proof.
  revert fuel' b. induction fuel as [|fuel IH]; intros fuel' b; simpl;
    destruct (meets_difficulty d b) as [[|]|e] eqn:Hm; try discriminate.
  - intros [= <-] _. now apply mineBlock_already_met.
  - intros [= <-] _. destruct fuel'; simpl; now rewrite Hm.
  - intros [= <-] _. now apply mineBlock_already_met.
  - intros Hrun Hle. destruct fuel' as [|fuel']; [lia|].
    simpl. rewrite Hm. apply IH; [exact Hrun|lia].
  - intros [= <-] _. destruct fuel'; simpl; now rewrite Hm.
Qed.

Lemma at_nonce_0 (b : t) : hash b = calculateHash b -> at_nonce b 0 = b.
Proof.
  intros Hfresh. unfold at_nonce, hash_at. simpl. rewrite Z.add_0_r.
  destruct b. simpl in *. now rewrite Hfresh.
Qed.

Lemma at_nonce_next (b : t) (n : nat) :
  at_nonce (try_next_nonce b) n = at_nonce b (S n).
Proof.
  unfold at_nonce, hash_at. simpl.
  replace (nonce b + 1 + Z.of_nat n) with (nonce b + Z.of_nat (S n)) by lia.
  reflexivity.
Qed.

(** Termination of the search: when some nonce [n] steps ahead ends the
    loop, the loop of [mineBlock] on a block whose hash is up to date
    returns within [n] turns. *)
Lemma mineBlock_terminates (d n : nat) (b : t) :
  hash b = calculateHash b -> solves d b n ->
  exists b', mineBlock d n b = Some (Normal tt, b').
Proof.
  revert b. induction n as [|n IH]; intros b Hfresh Hsol.
  - exists b. apply mineBlock_already_met.
    unfold solves in Hsol. now rewrite at_nonce_0 in Hsol.
  - simpl. destruct (meets_difficulty d b) as [[|]|e] eqn:Hm.
    + now exists b.
    + apply IH; [apply try_next_nonce_fresh|].
      unfold solves. now rewrite at_nonce_next.
    + exfalso. apply meets_difficulty_Throw in Hm.
      apply meets_difficulty_Normal in Hsol as [Hz _]. congruence.
Qed.

End BlockFacts.


Section MineBlockSpec.
Context `{Crypto} `{Engine}.
Import Block.

(** C3 (amended). Whenever [mineBlock(d)] returns, the first [d] characters
    of the block's hash are all ['0']; and the stored hash equals
    [calculateHash()] on the block's fields as they then are, provided it
    did so when [mineBlock] was called (as it does on a block just
    constructed) or the hash on entry did not yet have its [d] zeros.  A
    block whose hash already has them is left untouched. *)
Theorem mineBlock_spec (d fuel : nat) (b b' : t) :
  mineBlock d fuel b = Some (Normal tt, b') ->
  (forall i, (i < d)%nat -> String.get i (hash b') = Some "0"%char) /\
  (hash b = calculateHash b \/ meets_difficulty d b = Normal false ->
   hash b' = calculateHash b') /\
  (meets_difficulty d b = Normal true -> b' = b).
Proof.
  intros Hrun. repeat split.
  - apply meets_difficulty_leading_zeros. exact (mineBlock_meets _ _ _ _ Hrun).
  - exact (mineBlock_fresh _ _ _ _ Hrun).
  - intros Hm. rewrite (mineBlock_already_met d fuel b Hm) in Hrun. congruence.
Qed.

End MineBlockSpec.

Lemma mineBlock_spec_witness :
  @Block.mineBlock Toy.crypto Toy.engine 2 300 Examples.candidate1
    = Some (Normal tt, Examples.block1) /\
  (forall i, (i < 2)%nat ->
     String.get i (Block.hash Examples.block1) = Some "0"%char) /\
  Block.hash Examples.block1 = @Block.calculateHash Toy.crypto Examples.block1.
Proof.
  assert (Hrun : @Block.mineBlock Toy.crypto Toy.engine 2 300 Examples.candidate1
                 = Some (Normal tt, Examples.block1)) by (vm_compute; reflexivity).
  destruct (@mineBlock_spec Toy.crypto Toy.engine 2 300 _ _ Hrun) as (Hz & Hf & _).
  split; [exact Hrun|]. split; [exact Hz|].
  apply Hf. left. reflexivity.
Defined.

(** C3 as stated fails on a block whose stored hash is out of date:
    [mineBlock(2)] finds the two zeros in place, returns at once, and the
    stored hash is not the digest of the block. *)
Lemma mineBlock_keeps_stale_hash :
  @Block.mineBlock Toy.crypto Toy.engine 2 0 Examples.stale_block
    = Some (Normal tt, Examples.stale_block) /\
  Block.hash Examples.stale_block
  <> @Block.calculateHash Toy.crypto Examples.stale_block.
Proof. split; [reflexivity|]. vm_compute. discriminate. Qed.

(** The same under any digest: a block that meets the difficulty with an
    out-of-date hash leaves [mineBlock(d)] with that hash. *)
Lemma mineBlock_keeps_any_stale_hash `{Crypto} `{Engine} (d fuel : nat)
    (b : Block.t) :
  Block.meets_difficulty d b = Normal true ->
  Block.hash b <> Block.calculateHash b ->
  exists b', Block.mineBlock d fuel b = Some (Normal tt, b') /\
             Block.hash b' <> Block.calculateHash b'.
Proof.
  intros Hm Hstale. exists b. split; [now apply mineBlock_already_met|exact Hstale].
Qed.

(** ** Balances *)

Section BalanceFacts.
Context `{Crypto} `{Engine}.
Import Blockchain.

Lemma balance_step_contribution (address : Address) (balance : number)
    (tx : Transaction.t) :
  balance_step address balance (Block.Tx tx)
  = (balance + contribution address tx)%number.
Proof.
  unfold balance_step, contribution.
  destruct (decide (Transaction.fromAddress tx = address)),
           (decide (Transaction.toAddress tx = address)).
  - now rewrite sub_add_opp, add_assoc.
  - now rewrite sub_add_opp, add_0_r.
  - now rewrite add_0_l.
  - now rewrite add_0_l, add_0_r.
Qed.

Lemma fold_balance_chars (address : Address) (cs : list ascii) (balance : number) :
  fold_left (balance_step address) (Block.Char <$> cs) balance = balance.
Proof. revert balance. induction cs as [|c cs IH]; intros; simpl; auto. Qed.

Lemma fold_balance_txs (address : Address) (l : list Transaction.t)
    (balance : number) :
  fold_left (balance_step address) (Block.Tx <$> l) balance
  = (balance + sum (contribution address <$> l))%number.
Proof.
  revert balance. induction l as [|tx l IH]; intros balance.
  - simpl. unfold sum. simpl. now rewrite add_0_r.
  - change (fold_left (balance_step address) (Block.Tx <$> l)
              (balance_step address balance (Block.Tx tx))
            = (balance + (contribution address tx
                          + sum (contribution address <$> l)))%number).
    rewrite IH, balance_step_contribution. now rewrite add_assoc.
Qed.

Lemma fold_balance_block (address : Address) (b : Block.t) (balance : number) :
  fold_left (balance_step address) (Block.elements (Block.transactions b)) balance
  = (balance + sum (contribution address <$> block_transactions b))%number.
Proof.
  unfold block_transactions. destruct (Block.transactions b) as [s|l]; simpl.
  - rewrite fold_balance_chars. unfold sum. simpl. now rewrite add_0_r.
  - apply fold_balance_txs.
Qed.

Lemma fold_balance_chain (address : Address) (blocks : list Block.t)
    (balance : number) :
  fold_left
    (fun balance block =>
       fold_left (balance_step address)
                 (Block.elements (Block.transactions block)) balance)
    blocks balance
  = (balance
     + sum (contribution address <$> concat (block_transactions <$> blocks)))%number.
Proof.
  revert balance. induction blocks as [|b blocks IH]; intros balance.
  - simpl. unfold sum. simpl. now rewrite add_0_r.
  - rewrite fmap_cons. cbn [fold_left concat].
    rewrite IH, fold_balance_block, fmap_app, sum_app. now rewrite add_assoc.
Qed.

Lemma getBalanceOfAddress_replay (address : Address) (bc : t) :
  getBalanceOfAddress address bc = balance_by_replay address bc.
Proof.
  unfold getBalanceOfAddress, balance_by_replay, all_transactions.
  now rewrite fold_balance_chain, add_0_l.
Qed.

(** The state [minePendingTransactions] leaves when it returns, for any
    state with a latest block. *)
Lemma minePendingTransactions_returns (now_tx now_block : Z) (miner : Address)
    (fuel : nat) (bc bc' : t) :
  chain bc <> [] ->
  minePendingTransactions now_tx now_block miner fuel bc = Some (Normal tt, bc') ->
  exists latest block,
    getLatestBlock bc = Some latest /\
    Block.mineBlock (difficulty bc) fuel
      (Block.new (Block.Millis now_block)
         (Block.Txs (pendingTransactions bc
                     ++ [Transaction.mk None miner (miningReward bc) now_tx None]))
         (Block.hash latest)) = Some (Normal tt, block) /\
    bc' = mk (chain bc ++ [block]) (difficulty bc) [] (miningReward bc).
Proof.
  intros Hne. unfold minePendingTransactions, getLatestBlock. simpl.
  destruct (last (chain bc)) as [latest|] eqn:Hlast.
  - destruct (Block.mineBlock _ _ _) as [[[[]|e] block]|] eqn:Hmine;
      try discriminate.
    intros [= <-]. exists latest, block. auto.
  - apply last_None in Hlast. contradiction.
Qed.

(** With a latest block and a difficulty within the engine's limits,
    [minePendingTransactions] throws nothing. *)
Lemma minePendingTransactions_no_throw (now_tx now_block : Z) (miner : Address)
    (fuel : nat) (bc bc' : t) (r : completion unit) :
  chain bc <> [] -> zeros (difficulty bc) = Normal (zero_run (difficulty bc)) ->
  minePendingTransactions now_tx now_block miner fuel bc = Some (r, bc') ->
  r = Normal tt.
Proof.
  intros Hne Hz. unfold minePendingTransactions, getLatestBlock. simpl.
  destruct (last (chain bc)) as [latest|] eqn:Hlast.
  - destruct (Block.mineBlock _ _ _) as [[[[]|e] block]|] eqn:Hmine;
      try discriminate.
    + now intros [= <- _].
    + apply mineBlock_thrown in Hmine. congruence.
  - apply last_None in Hlast. contradiction.
Qed.

(** C5. [getBalanceOfAddress(address)] is the sum, from zero, over every
    transaction of every block from the genesis block forward, of [-amount]
    when the sender is [address] and [+amount] when the recipient is; so once
    a fresh blockchain has mined its first block for the miner [A], who gets
    the reward of 100, the balance of [A] is 100 and that of any other
    address [B] is 0. *)
Theorem getBalanceOfAddress_spec (now_tx now_block : Z) (A : string)
    (fuel : nat) (bc1 : t) :
  minePendingTransactions now_tx now_block (Some A) fuel new
    = Some (Normal tt, bc1) ->
  (forall address bc,
     getBalanceOfAddress address bc = balance_by_replay address bc) /\
  miningReward bc1 = 100 /\
  getBalanceOfAddress (Some A) bc1 = 100 /\
  (forall B : string, B <> A -> getBalanceOfAddress (Some B) bc1 = 0).
Proof.
  intros Hmine. split; [exact getBalanceOfAddress_replay|].
  apply minePendingTransactions_returns in Hmine
    as (latest & block & Hlatest & Hblock & ->); [|discriminate].
  apply mineBlock_fields in Hblock as (_ & _ & Hbody & _).
  simpl in Hbody.
  split; [reflexivity|].
  assert (Hall : forall a, getBalanceOfAddress a
                   (mk (chain new ++ [block]) (difficulty new) [] (miningReward new))
                 = contribution a (Transaction.mk None (Some A) 100 now_tx None)).
  { intros a. rewrite getBalanceOfAddress_replay.
    unfold balance_by_replay, all_transactions, block_transactions. simpl.
    rewrite Hbody. unfold sum. simpl. now rewrite add_0_r. }
  split.
  - rewrite Hall. unfold contribution. cbn [Transaction.fromAddress
      Transaction.toAddress Transaction.amount].
    rewrite (decide_False (P := None = Some A)) by discriminate.
    rewrite (decide_True (P := Some A = Some A)) by reflexivity. reflexivity.
  - intros B HB. rewrite Hall. unfold contribution. cbn [Transaction.fromAddress
      Transaction.toAddress Transaction.amount].
    rewrite (decide_False (P := None = Some B)) by discriminate.
    rewrite (decide_False (P := Some A = Some B)) by congruence. reflexivity.
Qed.

End BalanceFacts.

Lemma getBalanceOfAddress_spec_witness :
  Blockchain.getBalanceOfAddress Examples.alice
    (Blockchain.mk [Examples.genesis; Examples.block1] 2 [] 100) = 100 /\
  Blockchain.getBalanceOfAddress Examples.bob
    (Blockchain.mk [Examples.genesis; Examples.block1] 2 [] 100) = 0.
Proof.
  assert (Hmine : @Blockchain.minePendingTransactions Toy.crypto Toy.engine
                    1000 1001 (Some "pk-alice") 300 (@Blockchain.new Toy.crypto)
                  = Some (Normal tt,
                          Blockchain.mk [Examples.genesis; Examples.block1] 2 [] 100))
    by (vm_compute; reflexivity).
  destruct (@getBalanceOfAddress_spec Toy.crypto Toy.engine 1000 1001 "pk-alice"
              300 _ Hmine)
    as (_ & _ & HA & HB).
  split; [exact HA|]. apply HB. discriminate.
Defined.

(** ** minePendingTransactions *)

Section MiningFacts.
Context `{Crypto} `{Engine}.
Import Blockchain.

(** C6. On a blockchain with a latest block, and when some nonce gives the
    new block a digest with [difficulty] leading zeros,
    [minePendingTransactions(minerAddress)] returns (any fuel from that nonce
    on suffices) and has: appended the reward transaction
    [(null, minerAddress, miningReward)] to the pending pool; built a block
    whose transactions are that whole pool, reward last, and whose
    [previousHash] is the hash of the block that was latest; mined it at the
    chain's difficulty; appended it to [chain], which is one block longer and
    otherwise as before; and left [pendingTransactions] empty. *)
Theorem minePendingTransactions_spec (now_tx now_block : Z) (miner : Address)
    (bc : t) (latest : Block.t) (n : nat) :
  getLatestBlock bc = Some latest ->
  solves (difficulty bc)
    (Block.new (Block.Millis now_block)
       (Block.Txs (pendingTransactions bc
                   ++ [Transaction.mk None miner (miningReward bc) now_tx None]))
       (Block.hash latest)) n ->
  exists block bc',
    (forall fuel, (n <= fuel)%nat ->
       minePendingTransactions now_tx now_block miner fuel bc
       = Some (Normal tt, bc')) /\
    (* the new block *)
    Block.transactions block
      = Block.Txs (pendingTransactions bc
                   ++ [Transaction.mk None miner (miningReward bc) now_tx None]) /\
    Block.previousHash block = Block.hash latest /\
    Block.timestamp block = Block.Millis now_block /\
    (forall i, (i < difficulty bc)%nat ->
       String.get i (Block.hash block) = Some "0"%char) /\
    Block.hash block = Block.calculateHash block /\
    (* the blockchain afterwards *)
    chain bc' = chain bc ++ [block] /\
    length (chain bc') = S (length (chain bc)) /\
    (forall i b, chain bc !! i = Some b -> chain bc' !! i = Some b) /\
    getLatestBlock bc' = Some block /\
    pendingTransactions bc' = [] /\
    difficulty bc' = difficulty bc /\ miningReward bc' = miningReward bc.
Proof.
  intros Hlatest Hsol.
  destruct (mineBlock_terminates _ _ _ (new_fresh _ _ _) Hsol) as [block Hblock].
  exists block, (mk (chain bc ++ [block]) (difficulty bc) [] (miningReward bc)).
  pose proof (mineBlock_fields _ _ _ _ _ Hblock) as (Hprev & Hts & Hbody & _).
  repeat apply conj; simpl.
  - intros fuel Hfuel.
    unfold minePendingTransactions, getLatestBlock, push_pending, Transaction.new in *.
    cbn [chain pendingTransactions difficulty miningReward]. rewrite Hlatest.
    now rewrite (mineBlock_more_fuel _ _ _ _ _ Hblock Hfuel).
  - exact Hbody.
  - exact Hprev.
  - exact Hts.
  - apply meets_difficulty_leading_zeros. exact (mineBlock_meets _ _ _ _ Hblock).
  - apply (mineBlock_fresh _ _ _ _ Hblock). left. apply new_fresh.
  - reflexivity.
  - rewrite length_app. simpl. lia.
  - intros i b Hi. now apply lookup_app_l_Some.
  - unfold getLatestBlock. simpl. apply last_snoc.
  - reflexivity.
  - reflexivity.
  - reflexivity.
Qed.

(** On an empty chain the call throws after the reward has already been
    pushed to the pending pool. *)
Lemma minePendingTransactions_empty_chain (now_tx now_block : Z)
    (miner : Address) (fuel : nat) (bc : t) :
  chain bc = [] ->
  exists e, minePendingTransactions now_tx now_block miner fuel bc
            = Some (Throw e,
                    push_pending (Transaction.new now_tx None miner (miningReward bc)) bc).
Proof.
  intros Hempty. unfold minePendingTransactions, getLatestBlock. simpl.
  rewrite Hempty. simpl. eauto.
Qed.

End MiningFacts.

Lemma minePendingTransactions_spec_witness :
  exists block bc',
    @Blockchain.minePendingTransactions Toy.crypto Toy.engine 1000 1001
      Examples.alice 300 (@Blockchain.new Toy.crypto) = Some (Normal tt, bc') /\
    Blockchain.chain bc' = [Examples.genesis; block] /\
    Block.transactions block = Block.Txs [Examples.reward_alice] /\
    Blockchain.pendingTransactions bc' = [].
Proof.
  destruct (@minePendingTransactions_spec Toy.crypto Toy.engine 1000 1001
              Examples.alice (@Blockchain.new Toy.crypto) Examples.genesis 288)
    as (block & bc' & Hrun & Hbody & _ & _ & _ & _ & Hchain & _ & _ & _ & Hpool & _).
  - reflexivity.
  - vm_compute. reflexivity.
  - exists block, bc'. split; [apply Hrun; lia|]. auto.
Defined.

(** ** isChainValid *)

Section ChainValidity.
Context `{Crypto}.
Import Blockchain.

Lemma block_passes_not_fails (chain : list Block.t) (i : nat) :
  block_passes chain i -> block_fails chain i -> False.
Proof.
  intros (cur & prev & Hc & Hp & Hl & Hv & Hh) (cur' & prev' & Hc' & Hp' & Hf).
  rewrite Hc in Hc'. rewrite Hp in Hp'. injection Hc' as <-. injection Hp' as <-.
  destruct Hf as [Hf | [[_ Hf] | (_ & _ & Hf)]]; congruence.
Qed.

Lemma block_passes_not_raises (chain : list Block.t) (i : nat) (e : JsError) :
  block_passes chain i -> block_raises chain i e -> False.
Proof.
  intros (cur & prev & Hc & Hp & Hl & Hv & Hh) (cur' & prev' & Hc' & Hp' & _ & Hf).
  rewrite Hc in Hc'. injection Hc' as <-. congruence.
Qed.

Lemma block_fails_not_raises (chain : list Block.t) (i : nat) (e : JsError) :
  block_fails chain i -> block_raises chain i e -> False.
Proof.
  intros (cur & prev & Hc & Hp & Hf) (cur' & prev' & Hc' & Hp' & Hl & Hr).
  rewrite Hc in Hc'. rewrite Hp in Hp'. injection Hc' as <-. injection Hp' as <-.
  destruct Hf as [Hf | [[_ Hf] | (_ & Hf & _)]]; congruence.
Qed.

(** The loop from index [i] on: what each of its outcomes says about the
    blocks it visited. *)
Lemma isChainValid_loop_outcome (chain : list Block.t) (turns i : nat) :
  (1 <= i)%nat -> (i + turns)%nat = length chain ->
  match isChainValid_loop chain i turns with
  | Normal true =>
      forall j, (i <= j < length chain)%nat -> block_passes chain j
  | Normal false =>
      exists k, (i <= k < length chain)%nat /\
                (forall j, (i <= j < k)%nat -> block_passes chain j) /\
                block_fails chain k
  | Throw e =>
      exists k, (i <= k < length chain)%nat /\
                (forall j, (i <= j < k)%nat -> block_passes chain j) /\
                block_raises chain k e
  end.
Proof.
  revert i. induction turns as [|turns IH]; intros i Hi Hlen.
  - simpl. intros j Hj. lia.
  - destruct (lookup_lt_is_Some_2 chain i ltac:(lia)) as [cur Hcur].
    destruct (lookup_lt_is_Some_2 chain (i - 1) ltac:(lia)) as [prev Hprev].
    simpl. rewrite Hcur, Hprev.
    destruct (decide (Block.hash prev <> Block.previousHash cur)) as [Hbroken|Hlink].
    { exists i. split; [lia|]. split; [intros j Hj; lia|].
      exists cur, prev. repeat split; try assumption. left. congruence. }
    apply dec_stable in Hlink.
    destruct (Block.hasValidTransactions cur) as [[|]|e] eqn:Hvalid; simpl.
    + destruct (decide (Block.hash cur <> Block.calculateHash cur)) as [Hstale|Hfresh].
      { exists i. split; [lia|]. split; [intros j Hj; lia|].
        exists cur, prev. repeat split; try assumption. right. right. auto. }
      apply dec_stable in Hfresh.
      assert (Hpass : block_passes chain i).
      { exists cur, prev. repeat split; auto. }
      specialize (IH (S i) ltac:(lia) ltac:(lia)).
      destruct (isChainValid_loop chain (S i) turns) as [[|]|e].
      * intros j Hj. destruct (decide (j = i)) as [->|Hne]; [exact Hpass|].
        apply IH. lia.
      * destruct IH as (k & Hk & Hbefore & Hfail). exists k.
        split; [lia|]. split; [|exact Hfail].
        intros j Hj. destruct (decide (j = i)) as [->|Hne]; [exact Hpass|].
        apply Hbefore. lia.
      * destruct IH as (k & Hk & Hbefore & Hraise). exists k.
        split; [lia|]. split; [|exact Hraise].
        intros j Hj. destruct (decide (j = i)) as [->|Hne]; [exact Hpass|].
        apply Hbefore. lia.
    + exists i. split; [lia|]. split; [intros j Hj; lia|].
      exists cur, prev. repeat split; try assumption. right. left. auto.
    + exists i. split; [lia|]. split; [intros j Hj; lia|].
      exists cur, prev. repeat split; auto.
Qed.

Lemma isChainValid_genesis (bc : t) :
  isChainValid bc =
    if decide (genesis_intact bc)
    then isChainValid_loop (chain bc) 1 (length (chain bc) - 1)
    else Normal false.
Proof.
  unfold isChainValid, genesis_intact.
  destruct (decide (Some (Block.toJSON createGenesisBlock)
                    <> Block.toJSON <$> chain bc !! 0%nat)) as [Hne|Heq].
  - rewrite decide_False; [reflexivity|congruence].
  - apply dec_stable in Heq. rewrite decide_True; [reflexivity|congruence].
Qed.

Lemma genesis_intact_nonempty (bc : t) :
  genesis_intact bc -> (1 + (length (chain bc) - 1))%nat = length (chain bc).
Proof.
  unfold genesis_intact. destruct (chain bc); simpl; [discriminate|lia].
Qed.

(** The outcome of [isChainValid], in every case. *)
Lemma isChainValid_outcome (bc : t) :
  match isChainValid bc with
  | Normal true =>
      genesis_intact bc /\
      forall j, (1 <= j < length (chain bc))%nat -> block_passes (chain bc) j
  | Normal false =>
      ~ genesis_intact bc \/
      exists k, (1 <= k < length (chain bc))%nat /\
                (forall j, (1 <= j < k)%nat -> block_passes (chain bc) j) /\
                block_fails (chain bc) k
  | Throw e =>
      genesis_intact bc /\
      exists k, (1 <= k < length (chain bc))%nat /\
                (forall j, (1 <= j < k)%nat -> block_passes (chain bc) j) /\
                block_raises (chain bc) k e
  end.
Proof.
  rewrite isChainValid_genesis.
  destruct (decide (genesis_intact bc)) as [Hgen|Hgen]; [|now left].
  pose proof (isChainValid_loop_outcome (chain bc) (length (chain bc) - 1) 1
                ltac:(lia) (genesis_intact_nonempty bc Hgen)) as Hloop.
  destruct (isChainValid_loop (chain bc) 1 (length (chain bc) - 1)) as [[|]|e];
    auto.
Qed.

End ChainValidity.

Section ChainValiditySpec.
Context `{Crypto}.
Import Blockchain.

Lemma block_raises_functional (chain : list Block.t) (i : nat) (e e' : JsError) :
  block_raises chain i e -> block_raises chain i e' -> e = e'.
Proof.
  intros (cur & prev & Hc & _ & _ & Hr) (cur' & prev' & Hc' & _ & _ & Hr').
  rewrite Hc in Hc'. injection Hc' as <-. congruence.
Qed.

(** [hasValidTransactions] throws only what [isValid] throws on one of the
    block's transactions, or the [TypeError] of calling [isValid] on a
    character of a text. *)
Lemma all_valid_throws (l : list Transaction.t) (e : JsError) :
  Block.all_valid (Block.Tx <$> l) = Throw e ->
  exists tx, tx ∈ l /\ Transaction.isValid tx = Throw e.
Proof.
  induction l as [|tx l IH]; simpl; [discriminate|].
  destruct (Transaction.isValid tx) as [[|]|e'] eqn:Hv; simpl.
  - intros Hrest. destruct (IH Hrest) as (tx' & Hin & Hthrow).
    exists tx'. split; [apply elem_of_cons; now right|exact Hthrow].
  - discriminate.
  - intros [= <-]. exists tx. split; [apply elem_of_cons; now left|exact Hv].
Qed.

Lemma hasValidTransactions_throws (b : Block.t) (e : JsError) :
  Block.hasValidTransactions b = Throw e ->
  (exists s, Block.transactions b = Block.Text s /\ s <> "" /\
             e = TypeError "tx.isValid is not a function") \/
  (exists l tx, Block.transactions b = Block.Txs l /\ tx ∈ l /\
                Transaction.isValid tx = Throw e).
Proof.
  unfold Block.hasValidTransactions.
  destruct (Block.transactions b) as [s|l]; simpl.
  - destruct s as [|c s]; simpl; [discriminate|].
    intros [= <-]. left. exists (String c s). repeat split. discriminate.
  - intros Hthrow. apply all_valid_throws in Hthrow as (tx & Hin & Hthrow).
    right. exists l, tx. auto.
Qed.

(** Each outcome of [isChainValid], characterised: it returns true exactly
    when the serialised [chain[0]] equals the serialised fresh genesis block
    and every block at an index [i >= 1] passes the three checks (link to
    [chain[i-1].hash], [hasValidTransactions()] true, [hash] equal to
    [calculateHash()]); it returns false exactly when the genesis comparison
    fails or, the blocks before it passing, some block fails its first
    non-passing check with the answer false; and it throws exactly when, the
    blocks before it passing, a block with an intact link makes
    [hasValidTransactions()] throw. *)
Lemma isChainValid_iff (bc : t) :
  (isChainValid bc = Normal true <->
     genesis_intact bc /\
     forall i, (1 <= i < length (chain bc))%nat -> block_passes (chain bc) i) /\
  (isChainValid bc = Normal false <->
     ~ genesis_intact bc \/
     exists i, (1 <= i < length (chain bc))%nat /\
               (forall j, (1 <= j < i)%nat -> block_passes (chain bc) j) /\
               block_fails (chain bc) i) /\
  (forall e, isChainValid bc = Throw e <->
     genesis_intact bc /\
     exists i, (1 <= i < length (chain bc))%nat /\
               (forall j, (1 <= j < i)%nat -> block_passes (chain bc) j) /\
               block_raises (chain bc) i e).
Proof.
  pose proof (isChainValid_outcome bc) as Hout.
  assert (Hfirst : forall i k (P Q : nat -> Prop),
             (forall j, (1 <= j < i)%nat -> block_passes (chain bc) j) ->
             (forall j, (1 <= j < k)%nat -> block_passes (chain bc) j) ->
             (1 <= i)%nat -> (1 <= k)%nat -> P i -> Q k ->
             (forall j, P j -> block_passes (chain bc) j -> False) ->
             (forall j, Q j -> block_passes (chain bc) j -> False) ->
             i = k).
  { intros i k P Q Hi Hk Hi1 Hk1 HP HQ HnP HnQ.
    destruct (lt_eq_lt_dec i k) as [[Hlt|Heq]|Hgt]; [|exact Heq|].
    - exfalso. apply (HnP i HP). apply Hk. lia.
    - exfalso. apply (HnQ k HQ). apply Hi. lia. }
  split; [|split].
  - split.
    + intros Heq. rewrite Heq in Hout. exact Hout.
    + intros [Hgen Hall].
      destruct (isChainValid bc) as [[|]|e]; [reflexivity| |].
      * exfalso. destruct Hout as [Hout | (k & Hk & _ & Hfail)]; [auto|].
        exact (block_passes_not_fails _ _ (Hall k Hk) Hfail).
      * exfalso. destruct Hout as (_ & k & Hk & _ & Hraise).
        exact (block_passes_not_raises _ _ _ (Hall k Hk) Hraise).
  - split.
    + intros Heq. rewrite Heq in Hout. exact Hout.
    + intros Hfalse.
      destruct (isChainValid bc) as [[|]|e]; [|reflexivity|]; exfalso.
      * destruct Hout as [Hgen Hall].
        destruct Hfalse as [Hno | (i & Hi & _ & Hfail)]; [auto|].
        exact (block_passes_not_fails _ _ (Hall i Hi) Hfail).
      * destruct Hout as (Hgen & k & Hk & Hbefore & Hraise).
        destruct Hfalse as [Hno | (i & Hi & Hbefore' & Hfail)]; [auto|].
        assert (i = k) as ->.
        { apply (Hfirst i k (block_fails (chain bc))
                   (fun j => block_raises (chain bc) j e)); try assumption; try lia.
          - intros j Hf Hp. exact (block_passes_not_fails _ _ Hp Hf).
          - intros j Hr Hp. exact (block_passes_not_raises _ _ _ Hp Hr). }
        exact (block_fails_not_raises _ _ _ Hfail Hraise).
  - intros e. split.
    + intros Heq. rewrite Heq in Hout. exact Hout.
    + intros (Hgen & i & Hi & Hbefore & Hraise).
      destruct (isChainValid bc) as [[|]|e'].
      * exfalso. destruct Hout as [_ Hall].
        exact (block_passes_not_raises _ _ _ (Hall i Hi) Hraise).
      * exfalso. destruct Hout as [Hno | (k & Hk & Hbefore' & Hfail)]; [auto|].
        assert (k = i) as ->.
        { apply (Hfirst k i (block_fails (chain bc))
                   (fun j => block_raises (chain bc) j e)); try assumption; try lia.
          - intros j Hf Hp. exact (block_passes_not_fails _ _ Hp Hf).
          - intros j Hr Hp. exact (block_passes_not_raises _ _ _ Hp Hr). }
        exact (block_fails_not_raises _ _ _ Hfail Hraise).
      * destruct Hout as (_ & k & Hk & Hbefore' & Hraise').
        assert (k = i) as ->.
        { apply (Hfirst k i (fun j => block_raises (chain bc) j e')
                   (fun j => block_raises (chain bc) j e)); try assumption; try lia.
          - intros j Hr Hp. exact (block_passes_not_raises _ _ _ Hp Hr).
          - intros j Hr Hp. exact (block_passes_not_raises _ _ _ Hp Hr). }
        f_equal. exact (block_raises_functional _ _ _ _ Hraise' Hraise).
Qed.

(** The errors that leave [isChainValid()]: the [TypeError] of a block whose
    [transactions] is a text, and whatever [isValid()] throws on a
    transaction of a block, which is its own missing-signature error or an
    error of decoding the sender's key or the signature. *)
Lemma isChainValid_errors (bc : t) (e : JsError) :
  isChainValid bc = Throw e ->
  e = TypeError "tx.isValid is not a function" \/
  exists tx from,
    tx ∈ all_transactions bc /\ Transaction.fromAddress tx = Some from /\
    Transaction.isValid tx = Throw e /\
    (e = Error "No signature in this transaction" \/
     keyFromPublic from = Throw e \/
     exists sig, Transaction.signature tx = Some sig /\
                 importSignature sig = Throw e).
Proof.
  intros Hraise.
  apply isChainValid_iff in Hraise
    as (_ & i & _ & _ & cur & prev & Hcur & _ & _ & Hraise).
  apply hasValidTransactions_throws in Hraise
    as [(s & _ & _ & ->) | (l & tx & Hbody & Hin & Hthrow)]; [now left|].
  right. destruct (isValid_throws tx e Hthrow) as (from & Hfrom & Hwhy).
  exists tx, from. split.
  - unfold all_transactions. apply list_elem_of_lookup_2 in Hcur.
    clear - Hcur Hbody Hin.
    induction (chain bc) as [|b0 rest IH]; [inversion Hcur|].
    rewrite fmap_cons. simpl. apply elem_of_app.
    apply elem_of_cons in Hcur as [<- | Hcur].
    + left. unfold block_transactions. now rewrite Hbody.
    + right. now apply IH.
  - split; [exact Hfrom|]. split; [exact Hthrow|].
    destruct Hwhy as [[_ ->] | [[_ Hk] | [_ Hs]]]; auto.
Qed.

End ChainValiditySpec.

(** A block after the genesis block that opens with a transfer without a
    signature, under any digest and signature scheme. *)
Lemma isChainValid_raises_on_any_unsigned `{Crypto} (b : Block.t)
    (tx : Transaction.t) (from : string) (rest : list Transaction.t)
    (d : nat) (pool : list Transaction.t) (reward : number) :
  Block.previousHash b = Block.hash Blockchain.createGenesisBlock ->
  Block.transactions b = Block.Txs (tx :: rest) ->
  Transaction.fromAddress tx = Some from ->
  Transaction.signature tx = None ->
  Blockchain.isChainValid
    (Blockchain.mk [Blockchain.createGenesisBlock; b] d pool reward)
  = Throw (Error "No signature in this transaction").
Proof.
  intros Hlink Hbody Hfrom Hsig.
  apply isChainValid_iff. split; [reflexivity|].
  exists 1%nat. split; [simpl; lia|]. split; [intros j Hj; lia|].
  exists b, Blockchain.createGenesisBlock. repeat split; try assumption.
  unfold Block.hasValidTransactions. rewrite Hbody. simpl.
  unfold Transaction.isValid, Transaction.no_signature.
  now rewrite Hfrom, Hsig.
Qed.

(** C1. [isChainValid()] is not free of errors.  On a chain whose second
    block links to the genesis block and holds a transfer without a
    signature it returns neither false nor true: the error of [isValid()],
    'No signature in this transaction', leaves [hasValidTransactions()] and
    [isChainValid()] uncaught.  So does the error of decoding, on a chain
    whose second block holds a transfer with a signature that is not the
    encoding of one. *)
Theorem isChainValid_raises_on_unsigned :
  @Blockchain.isChainValid Toy.crypto TamperedExamples.unsigned_chain
    = Throw (Error "No signature in this transaction") /\
  @Blockchain.isChainValid Toy.crypto TamperedExamples.garbled_chain
    = Throw (Error "Signature without r or s").
Proof. split; vm_compute; reflexivity. Qed.

(** ** Serialisation: what [JSON.stringify] tells apart *)

Section Serialisation.

Lemma append_nil (b : string) : "" +:+ b = b.
Proof. reflexivity. Qed.

Lemma append_cons (x : ascii) (a b : string) :
  String x a +:+ b = String x (a +:+ b).
Proof. reflexivity. Qed.

Lemma append_assoc (a b c : string) : (a +:+ b) +:+ c = a +:+ (b +:+ c).
Proof.
  induction a as [|x a IH]; [reflexivity|].
  rewrite !append_cons. f_equal. exact IH.
Qed.

Lemma append_cancel_l (a b c : string) : a +:+ b = a +:+ c -> b = c.
Proof.
  induction a as [|x a IH]; [auto|].
  rewrite !append_cons. intros [= Heq]. auto.
Qed.

(** Two comma-free fields, each followed by a comma, can be read back. *)
Lemma comma_separates (p p' r r' : string) :
  comma_free p -> comma_free p' ->
  p +:+ String "," r = p' +:+ String "," r' -> p = p' /\ r = r'.
Proof.
  revert p'. induction p as [|c p IH]; intros [|c' p'] Hp Hp';
    rewrite ?append_nil, ?append_cons.
  - intros [= ->]. auto.
  - intros [= <- _]. destruct Hp' as [Hc _]. congruence.
  - intros [= -> _]. destruct Hp as [Hc _]. congruence.
  - intros [= -> Hrest]. destruct Hp as [_ Hp]. destruct Hp' as [_ Hp'].
    destruct (IH p' Hp Hp' Hrest) as [-> ->]. auto.
Qed.

Lemma numeric_comma_free (s : string) : numeric s -> comma_free s.
Proof.
  induction s as [|c s IH]; [auto|]. intros [Hc Hs]. split; [|auto].
  intros ->. discriminate.
Qed.

Lemma numeric_separates (p p' : string) (c c' : ascii) (r r' : string) :
  numeric p -> numeric p' ->
  numeric_char c = false -> numeric_char c' = false ->
  p +:+ String c r = p' +:+ String c' r' -> p = p' /\ c = c' /\ r = r'.
Proof.
  revert p'. induction p as [|x p IH]; intros [|x' p'] Hp Hp' Hc Hc';
    rewrite ?append_nil, ?append_cons.
  - intros [= -> ->]. auto.
  - intros [= -> _]. destruct Hp' as [Hx _]. congruence.
  - intros [= -> _]. destruct Hp as [Hx _]. congruence.
  - intros [= -> Hrest]. destruct Hp as [_ Hp]. destruct Hp' as [_ Hp'].
    destruct (IH p' Hp Hp' Hc Hc' Hrest) as (-> & -> & ->). auto.
Qed.

Lemma pretty_N_char_numeric (x : N) : numeric_char (pretty_N_char x) = true.
Proof. unfold pretty_N_char. repeat case_match; reflexivity. Qed.

Lemma pretty_N_go_numeric (x : N) (s : string) :
  numeric s -> numeric (pretty_N_go x s).
Proof.
  revert s. induction (N.lt_wf_0 x) as [x _ IH]. intros s Hs.
  destruct (decide (x = 0)%N) as [->|Hpos].
  - now rewrite pretty_N_go_0.
  - rewrite pretty_N_go_step by lia.
    apply IH; [apply N.div_lt; lia|].
    split; [apply pretty_N_char_numeric|exact Hs].
Qed.

(** The decimal notation of an integer: digits, after a minus sign if it is
    negative. *)
Lemma pretty_Z_numeric (n : Z) : numeric (pretty n).
Proof.
  unfold pretty, pretty_Z.
  assert (Hpos : forall p : positive, numeric (pretty p)).
  { intros p. unfold pretty, pretty_positive, pretty, pretty_N.
    rewrite decide_False by lia. now apply pretty_N_go_numeric. }
  destruct n as [|p|p].
  - simpl. auto.
  - apply Hpos.
  - rewrite append_cons, append_nil. split; [reflexivity|apply Hpos].
Qed.

(** The conversion of a number to a string tells all numbers apart. *)
Lemma number_to_string_inj (n m : number) :
  number_to_string n = number_to_string m -> n = m.
Proof.
  destruct n as [x| | |], m as [y| | |]; simpl; intros Heq;
    try reflexivity; try discriminate;
    try (f_equal; now apply pretty_Z_inj);
    try (pose proof (pretty_Z_numeric x) as Hnum; rewrite Heq in Hnum;
         simpl in Hnum; now intuition discriminate);
    try (pose proof (pretty_Z_numeric y) as Hnum; rewrite <- Heq in Hnum;
         simpl in Hnum; now intuition discriminate).
Qed.

(** What [JSON.stringify] prints for a number has no comma. *)
Lemma json_number_comma_free (n : number) : comma_free (json_number n).
Proof.
  destruct n as [z| | |]; simpl;
    try (repeat split; discriminate).
  apply numeric_comma_free, pretty_Z_numeric.
Qed.

(** [JSON.stringify] tells a finite number apart from every other number;
    it prints [null] for the three that are not finite. *)
Lemma json_number_inj_finite (n m : number) :
  Number.is_finite n = true -> json_number n = json_number m -> n = m.
Proof.
  destruct n as [x| | |]; try discriminate. intros _.
  destruct m as [y| | |]; simpl; intros Heq;
    try (f_equal; now apply pretty_Z_inj);
    pose proof (pretty_Z_numeric x) as Hnum; rewrite Heq in Hnum;
    simpl in Hnum; now intuition discriminate.
Qed.

Lemma json_number_differs (v a : number) :
  v <> a -> Number.is_finite v = true \/ Number.is_finite a = true ->
  json_number v <> json_number a.
Proof.
  intros Hne [Hv | Ha] Heq; apply Hne.
  - now apply json_number_inj_finite.
  - symmetry. now apply json_number_inj_finite.
Qed.

Lemma json_number_not_finite (a b : number) :
  Number.is_finite a = false -> Number.is_finite b = false ->
  json_number a = json_number b.
Proof. destruct a, b; simpl; intros; reflexivity || discriminate. Qed.

(** An integer field followed by a character that is no digit. *)
Lemma json_integer_inj (n n' : Z) (c c' : ascii) (r r' : string) :
  numeric_char c = false -> numeric_char c' = false ->
  json_number n +:+ String c r = json_number n' +:+ String c' r' ->
  n = n' /\ c = c' /\ r = r'.
Proof.
  intros Hc Hc' Heq. simpl in Heq.
  apply numeric_separates in Heq as (Hn & -> & ->);
    try assumption; try apply pretty_Z_numeric.
  apply pretty_Z_inj in Hn. auto.
Qed.

Lemma json_unescape_char (c : ascii) (rest : string) :
  json_unescape (json_escape_char c +:+ rest) = prepend c (json_unescape rest).
Proof. destruct c as [[] [] [] [] [] [] [] []]; reflexivity. Qed.

Lemma json_unescape_escape (s r : string) :
  json_unescape (json_escape s +:+ String "034" r) = Some (s, r).
Proof.
  induction s as [|c s IH]; [reflexivity|].
  cbn [json_escape]. rewrite append_assoc, json_unescape_char, IH. reflexivity.
Qed.

Lemma json_string_append (s r : string) :
  json_string s +:+ r = String "034" (json_escape s +:+ String "034" r).
Proof.
  unfold json_string, dquote. rewrite !append_cons, !append_nil.
  rewrite append_assoc, append_cons, append_nil. reflexivity.
Qed.

Lemma json_string_inj (s s' r r' : string) :
  json_string s +:+ r = json_string s' +:+ r' -> s = s' /\ r = r'.
Proof.
  rewrite !json_string_append. intros [= Heq].
  apply (f_equal json_unescape) in Heq.
  rewrite !json_unescape_escape in Heq. injection Heq as -> ->. auto.
Qed.

Lemma json_address_inj (a a' : Address) (r r' : string) :
  json_address a +:+ r = json_address a' +:+ r' -> a = a' /\ r = r'.
Proof.
  destruct a as [s|], a' as [s'|]; simpl.
  - intros Heq. apply json_string_inj in Heq as [-> ->]. auto.
  - rewrite json_string_append. discriminate.
  - rewrite json_string_append. discriminate.
  - intros Heq. apply append_cancel_l in Heq. auto.
Qed.

(** A serialised transaction, whatever follows it, reads back as the
    transaction up to what its amount was serialised from, and what
    follows. *)
Lemma toJSON_inj (tx tx' : Transaction.t) (r r' : string) :
  Transaction.toJSON tx +:+ r = Transaction.toJSON tx' +:+ r' ->
  same_json tx tx' /\ r = r'.
Proof.
  destruct tx as [from to amount ts sig], tx' as [from' to' amount' ts' sig'].
  unfold Transaction.toJSON, json_key, dquote, same_json, same_but_amount.
  cbn [Transaction.fromAddress Transaction.toAddress Transaction.amount
       Transaction.timestamp Transaction.signature].
  intros Heq.
  destruct sig as [sig|], sig' as [sig'|];
    repeat (rewrite append_assoc in Heq || rewrite append_cons in Heq
            || rewrite append_nil in Heq);
    injection Heq as Heq;
    apply json_address_inj in Heq as [-> Heq]; injection Heq as Heq;
    apply json_address_inj in Heq as [-> Heq]; injection Heq as Heq;
    apply comma_separates in Heq as [Hamount Heq];
    try apply json_number_comma_free;
    injection Heq as Heq;
    apply json_integer_inj in Heq as (-> & Hc & Heq); try reflexivity;
    try discriminate.
  - injection Heq as Heq. unfold dquote in Heq.
    repeat (rewrite append_assoc in Heq || rewrite append_cons in Heq
            || rewrite append_nil in Heq).
    apply (f_equal json_unescape) in Heq.
    rewrite !json_unescape_escape in Heq. injection Heq as -> ->.
    repeat split; assumption.
  - subst. repeat split; assumption.
Qed.

Lemma toJSON_starts (tx : Transaction.t) (r : string) :
  exists rest, Transaction.toJSON tx +:+ r = String "{" rest.
Proof.
  unfold Transaction.toJSON. rewrite append_assoc, append_cons, append_nil. eauto.
Qed.

Lemma json_join_cons_cons (x y : string) (ys : list string) :
  json_join (x :: y :: ys) = x +:+ "," +:+ json_join (y :: ys).
Proof. reflexivity. Qed.

Lemma json_join_cons (x : string) (xs : list string) (r : string) :
  json_join (x :: xs) +:+ String "]" r
  = x +:+ match xs with
          | [] => String "]" r
          | _ => String "," (json_join xs +:+ String "]" r)
          end.
Proof.
  destruct xs as [|y ys]; [reflexivity|].
  rewrite json_join_cons_cons, !append_assoc, append_cons, append_nil.
  reflexivity.
Qed.

(** The serialised array determines the transactions up to what their
    amounts were serialised from. *)
Lemma json_join_inj (l l' : list Transaction.t) (r r' : string) :
  json_join (Transaction.toJSON <$> l) +:+ String "]" r
  = json_join (Transaction.toJSON <$> l') +:+ String "]" r' ->
  Forall2 same_json l l' /\ r = r'.
Proof.
  revert l'. induction l as [|tx l IH]; intros [|tx' l'].
  - simpl. rewrite !append_nil. intros [= ->]. split; [constructor|reflexivity].
  - rewrite fmap_cons, json_join_cons. simpl. rewrite append_nil.
    destruct (toJSON_starts tx'
                match Transaction.toJSON <$> l' with
                | [] => String "]" r'
                | _ :: _ =>
                    String "," (json_join (Transaction.toJSON <$> l')
                                +:+ String "]" r')
                end) as [rest ->].
    discriminate.
  - rewrite fmap_cons, json_join_cons. simpl. rewrite append_nil.
    destruct (toJSON_starts tx
                match Transaction.toJSON <$> l with
                | [] => String "]" r
                | _ :: _ =>
                    String "," (json_join (Transaction.toJSON <$> l)
                                +:+ String "]" r)
                end) as [rest ->].
    discriminate.
  - rewrite !fmap_cons, !json_join_cons. intros Heq.
    apply toJSON_inj in Heq as [Htx Heq].
    destruct l as [|ty l], l' as [|ty' l']; simpl in Heq.
    + injection Heq as ->.
      split; [constructor; [exact Htx|constructor]|reflexivity].
    + discriminate.
    + discriminate.
    + injection Heq as Heq. destruct (IH (ty' :: l') Heq) as [Hrest ->].
      split; [constructor; assumption|reflexivity].
Qed.

Lemma json_array_append (l : list string) (r : string) :
  json_array l +:+ r = String "[" (json_join l +:+ String "]" r).
Proof.
  unfold json_array. rewrite !append_assoc, !append_cons, !append_nil.
  reflexivity.
Qed.

Lemma body_toJSON_inj (body body' : Block.Body) (r r' : string) :
  Block.body_toJSON body +:+ r = Block.body_toJSON body' +:+ r' ->
  body_same_json body body' /\ r = r'.
Proof.
  destruct body as [s|l], body' as [s'|l']; simpl;
    rewrite ?json_array_append, ?json_string_append.
  - rewrite <- !json_string_append. intros Heq.
    apply json_string_inj in Heq as [-> ->]. auto.
  - discriminate.
  - discriminate.
  - intros [= Heq]. now apply json_join_inj in Heq.
Qed.



(** The string a block hands to the digest determines its transactions up
    to what their amounts were serialised from, the rest of the block being
    the same. *)
Lemma block_preimage_transactions_inj (prev : string) (ts : Block.Time) (n : Z)
    (l l' : list Transaction.t) :
  Block.preimage prev ts (Block.Txs l) n = Block.preimage prev ts (Block.Txs l') n ->
  Forall2 same_json l l'.
Proof.
  unfold Block.preimage, Block.body_toJSON, json_array. intros Heq.
  do 2 apply append_cancel_l in Heq.
  rewrite !append_assoc, !append_cons, !append_nil in Heq. injection Heq as Heq.
  now apply json_join_inj in Heq as [Hsame _].
Qed.

Lemma json_string_not_number (s r : string) (n : Z) (r' : string) :
  json_string s +:+ r <> json_number n +:+ String "," r'.
Proof.
  rewrite json_string_append. simpl.
  pose proof (pretty_Z_numeric n) as Hnum.
  destruct (pretty n) as [|x rest].
  - rewrite append_nil. discriminate.
  - rewrite append_cons. intros [= <- _]. destruct Hnum as [Hx _]. discriminate.
Qed.

Lemma time_toJSON_inj (ts ts' : Block.Time) (r r' : string) :
  Block.time_toJSON ts +:+ String "," r = Block.time_toJSON ts' +:+ String "," r' ->
  ts = ts' /\ r = r'.
Proof.
  destruct ts as [s|n], ts' as [s'|n']; cbn [Block.time_toJSON]; intros Heq.
  - apply json_string_inj in Heq as [-> Heq]. injection Heq as ->. auto.
  - now apply json_string_not_number in Heq.
  - symmetry in Heq. now apply json_string_not_number in Heq.
  - apply json_integer_inj in Heq as (-> & _ & ->); auto.
Qed.

(** [json_string_inj] on a string whose opening quote is already gone. *)
Lemma json_string_tail_inj (s s' r r' : string) :
  ("" +:+ json_escape s +:+ dquote) +:+ r
  = ("" +:+ json_escape s' +:+ dquote) +:+ r' ->
  s = s' /\ r = r'.
Proof.
  unfold dquote. rewrite !append_nil, !append_assoc, !append_cons, !append_nil.
  intros Heq. apply (f_equal json_unescape) in Heq.
  rewrite !json_unescape_escape in Heq. injection Heq as -> ->. auto.
Qed.

(** The serialisation of a block determines the block up to what the
    amounts of its transactions were serialised from. *)
Lemma block_toJSON_inj (b b' : Block.t) :
  Block.toJSON b = Block.toJSON b' ->
  Block.previousHash b = Block.previousHash b' /\
  Block.timestamp b = Block.timestamp b' /\
  Block.nonce b = Block.nonce b' /\ Block.hash b = Block.hash b' /\
  body_same_json (Block.transactions b) (Block.transactions b').
Proof.
  destruct b as [prev ts body nonce hash], b' as [prev' ts' body' nonce' hash'].
  unfold Block.toJSON, json_key, dquote.
  cbn [Block.previousHash Block.timestamp Block.transactions Block.nonce
       Block.hash].
  intros Heq.
  repeat (rewrite append_assoc in Heq || rewrite append_cons in Heq
          || rewrite append_nil in Heq).
  injection Heq as Heq. apply json_string_tail_inj in Heq as [-> Heq].
  injection Heq as Heq. apply time_toJSON_inj in Heq as [-> Heq].
  injection Heq as Heq. apply body_toJSON_inj in Heq as [Hbody Heq].
  injection Heq as Heq.
  apply json_integer_inj in Heq as (-> & _ & Heq); try reflexivity.
  injection Heq as Heq.
  apply json_string_tail_inj in Heq as [-> _]. auto.
Qed.

(** A block serialised like a block whose [transactions] is a text is that
    block. *)
Lemma block_toJSON_text_inj (b g : Block.t) (s : string) :
  Block.transactions g = Block.Text s -> Block.toJSON b = Block.toJSON g -> b = g.
Proof.
  intros Htext Heq.
  apply block_toJSON_inj in Heq as (Hp & Ht & Hn & Hh & Hbody).
  destruct b, g. simpl in *. subst.
  destruct transactions as [s'|l]; simpl in Hbody; [|contradiction].
  now subst.
Qed.

End Serialisation.

Section GenesisExact.
Context `{Crypto}.

(** The comparison of serialisations that opens [isChainValid()] is a
    comparison of blocks. *)
Lemma genesis_intact_exact (bc : Blockchain.t) :
  genesis_intact bc ->
  Blockchain.chain bc !! 0%nat = Some Blockchain.createGenesisBlock.
Proof.
  unfold genesis_intact.
  destruct (Blockchain.chain bc !! 0%nat) as [g|]; [|discriminate].
  simpl. intros Heq.
  assert (Hjson : Block.toJSON g = Block.toJSON Blockchain.createGenesisBlock)
    by congruence.
  apply (block_toJSON_text_inj g Blockchain.createGenesisBlock "Genesis block")
    in Hjson; [now subst|reflexivity].
Qed.

End GenesisExact.

(** ** Tamper detection *)

Section OverwrittenAmounts.

Lemma same_but_amount_refl (tx : Transaction.t) : same_but_amount tx tx.
Proof. repeat split. Qed.

Lemma same_but_amount_set (v : number) (tx : Transaction.t) :
  same_but_amount tx (Transaction.set_amount v tx).
Proof. repeat split. Qed.

Lemma Forall2_imap_r {A} (R : A -> A -> Prop) (f : nat -> A -> A) (l : list A) :
  (forall i x, R x (f i x)) -> Forall2 R l (imap f l).
Proof.
  revert f. induction l as [|x l IH]; intros f HR; simpl; constructor.
  - apply HR.
  - apply IH. intros i y. apply HR.
Qed.

Lemma alter_set_amount_same (k : nat) (v : number) (l : list Transaction.t) :
  Forall2 same_but_amount l (alter (Transaction.set_amount v) k l).
Proof.
  revert k. induction l as [|tx l IH]; intros k; [constructor|].
  destruct k as [|k]; simpl; constructor.
  - repeat split.
  - clear IH. induction l; constructor; [repeat split|assumption].
  - repeat split.
  - apply IH.
Qed.

Lemma amounts_overwritten_refl (b : Block.t) : amounts_overwritten b b.
Proof.
  unfold amounts_overwritten. repeat split.
  destruct (Block.transactions b) as [s|l]; [reflexivity|].
  induction l; constructor; [apply same_but_amount_refl|assumption].
Qed.

Lemma write_amount_overwritten (here : nat -> bool) (v : number) (b : Block.t) :
  amounts_overwritten b (Block.write_amount here v b).
Proof.
  unfold amounts_overwritten, Block.write_amount.
  destruct (Block.transactions b) as [s|l] eqn:Hbody; simpl.
  - rewrite Hbody. auto.
  - repeat split. apply Forall2_imap_r. intros i tx.
    destruct (here i); [apply same_but_amount_set|apply same_but_amount_refl].
Qed.

Lemma set_amount_overwritten (k : nat) (v : number) (b : Block.t) :
  amounts_overwritten b (Block.set_amount k v b).
Proof.
  unfold amounts_overwritten, Block.set_amount.
  destruct (Block.transactions b) as [s|l] eqn:Hbody; simpl.
  - rewrite Hbody. auto.
  - repeat split. apply alter_set_amount_same.
Qed.

(** Blocks that differ in amounts only and hand the same string to the
    digest hold transactions that [JSON.stringify] does not tell apart. *)
Lemma amounts_overwritten_preimage (b b' : Block.t) (l l' : list Transaction.t) :
  amounts_overwritten b b' ->
  Block.transactions b = Block.Txs l -> Block.transactions b' = Block.Txs l' ->
  block_preimage b' = block_preimage b -> Forall2 same_json l l'.
Proof.
  intros (Hp & Ht & Hn & _ & _) Hbody Hbody'. unfold block_preimage.
  rewrite Hp, Ht, Hn, Hbody, Hbody'. intros Heq. symmetry in Heq.
  exact (block_preimage_transactions_inj _ _ _ _ _ Heq).
Qed.

End OverwrittenAmounts.

Section TamperDetection.
Context `{Crypto}.
Import Blockchain.

(** Changing an amount never makes [isValid] throw: the sender's key and
    the signature are decoded as before. *)
Lemma isValid_same_but_amount (tx tx' : Transaction.t) :
  same_but_amount tx tx' -> Transaction.isValid tx = Normal true ->
  exists r, Transaction.isValid tx' = Normal r.
Proof.
  intros (Hfrom & Hto & _ & Hsig) Hvalid.
  apply isValid_returns in Hvalid
    as [Hnone | (from & sig & key & s & Hf & Hs & Hne & Hkey & Himport)].
  - exists true. unfold Transaction.isValid. now rewrite <- Hfrom, Hnone.
  - rewrite Hfrom in Hf. rewrite Hsig in Hs.
    destruct (isValid_cases tx') as [_ Hcases].
    destruct (Hcases from Hf) as [_ Hsigned].
    destruct (Hsigned sig Hs Hne) as (h & _ & _ & _ & _ & Hok).
    eexists. exact (Hok key s Hkey Himport).
Qed.

(** Changing amounts never makes [hasValidTransactions] throw. *)
Lemma all_valid_same_but_amount (l l' : list Transaction.t) :
  Forall2 same_but_amount l l' ->
  Block.all_valid (Block.Tx <$> l) = Normal true ->
  exists r, Block.all_valid (Block.Tx <$> l') = Normal r.
Proof.
  intros Hsame. induction Hsame as [|tx tx' l l' Htx Hrest IH]; [eauto|].
  rewrite !fmap_cons. cbn [Block.all_valid].
  destruct (Transaction.isValid tx) as [[|]|e] eqn:Hvalid; simpl;
    try discriminate.
  intros Hall.
  destruct (isValid_same_but_amount _ _ Htx Hvalid) as [[|] ->]; simpl; eauto.
Qed.

Lemma hasValidTransactions_overwritten (b b' : Block.t) :
  amounts_overwritten b b' ->
  Block.hasValidTransactions b = Normal true ->
  exists r, Block.hasValidTransactions b' = Normal r.
Proof.
  intros (_ & _ & _ & _ & Hbody). unfold Block.hasValidTransactions.
  destruct (Block.transactions b) as [s|l], (Block.transactions b') as [s'|l'];
    try contradiction.
  - subst. eauto.
  - simpl. now apply all_valid_same_but_amount.
Qed.

(** A chain that was valid, and in which the block at an index [i >= 1] has
    since had amounts overwritten (the blocks before it are as they were,
    those after it may or may not be) so that it hands another string to
    the digest, is no longer valid: either a signature no longer verifies
    or the stored hash no longer matches. *)
Lemma overwritten_amounts_detected (bc bc' : t) (i : nat) (b b' : Block.t) :
  isChainValid bc = Normal true ->
  (1 <= i)%nat ->
  chain bc !! i = Some b -> chain bc' !! i = Some b' ->
  (forall j, (j < i)%nat -> chain bc' !! j = chain bc !! j) ->
  amounts_overwritten b b' ->
  block_preimage b' <> block_preimage b ->
  (Block.calculateHash b' = Block.calculateHash b ->
   block_preimage b' = block_preimage b) ->
  isChainValid bc' = Normal false.
Proof.
  intros Hvalid Hi Hb Hb' Hbefore Hover Hne Hcoll.
  apply isChainValid_iff in Hvalid as [Hgen Hall].
  assert (Hlen : (i < length (chain bc))%nat) by (eapply lookup_lt_Some; eauto).
  assert (Hlen' : (i < length (chain bc'))%nat) by (eapply lookup_lt_Some; eauto).
  apply isChainValid_iff. right. exists i. split; [lia|]. split.
  - intros j Hj.
    destruct (Hall j ltac:(lia)) as (cur & prev & Hc & Hp & Hrest).
    exists cur, prev. rewrite !Hbefore by lia. auto.
  - destruct (Hall i ltac:(lia)) as (cur & prev & Hc & Hp & Hlink & Htxs & Hfresh).
    rewrite Hb in Hc. injection Hc as <-.
    exists b', prev. split; [exact Hb'|]. split; [rewrite Hbefore by lia; exact Hp|].
    destruct (decide (Block.previousHash b' = Block.hash prev)) as [Hlink'|];
      [right|now left].
    destruct (hasValidTransactions_overwritten _ _ Hover Htxs) as [[|] Hr].
    + right. repeat split; try assumption.
      destruct Hover as (_ & _ & _ & Hhash & _).
      rewrite Hhash, Hfresh. intros Heq. symmetry in Heq. auto.
    + left. auto.
Qed.

(** The loop of [isChainValid] on a chain whose blocks have had amounts
    overwritten, after it has returned true on the chain as it was: it
    returns false, unless every block it visits still hands the same string
    to the digest. *)
Lemma loop_amounts_overwritten (chain chain' : list Block.t) (turns i : nat) :
  Forall2 amounts_overwritten chain chain' ->
  (forall j b b', chain !! j = Some b -> chain' !! j = Some b' ->
     Block.calculateHash b' = Block.calculateHash b ->
     block_preimage b' = block_preimage b) ->
  (1 <= i)%nat -> (i + turns)%nat = length chain ->
  isChainValid_loop chain i turns = Normal true ->
  isChainValid_loop chain' i turns = Normal false \/
  (isChainValid_loop chain' i turns = Normal true /\
   forall j b b', (i <= j)%nat -> chain !! j = Some b -> chain' !! j = Some b' ->
     block_preimage b' = block_preimage b).
Proof.
  intros Hover Hcoll. revert i. induction turns as [|turns IH]; intros i Hi Hlen.
  - intros _. right. split; [reflexivity|].
    intros j b b' Hj Hb _. apply lookup_lt_Some in Hb. lia.
  - destruct (lookup_lt_is_Some_2 chain i ltac:(lia)) as [cur Hcur].
    destruct (lookup_lt_is_Some_2 chain (i - 1) ltac:(lia)) as [prev Hprev].
    destruct (Forall2_lookup_l _ _ _ _ _ Hover Hcur) as (cur' & Hcur' & Hc).
    destruct (Forall2_lookup_l _ _ _ _ _ Hover Hprev) as (prev' & Hprev' & Hp).
    cbn [isChainValid_loop]. rewrite Hcur, Hprev, Hcur', Hprev'.
    destruct (decide (Block.hash prev <> Block.previousHash cur)) as [|Hlink];
      [discriminate|].
    apply dec_stable in Hlink.
    destruct (Block.hasValidTransactions cur) as [[|]|e] eqn:Hvalid; simpl;
      try discriminate.
    destruct (decide (Block.hash cur <> Block.calculateHash cur)) as [|Hfresh];
      [discriminate|].
    apply dec_stable in Hfresh. intros Hrest.
    pose proof Hc as (Hcp & _ & _ & Hch & _).
    pose proof Hp as (_ & _ & _ & Hph & _).
    rewrite decide_False by (intros Hbroken; apply Hbroken; congruence).
    destruct (hasValidTransactions_overwritten _ _ Hc Hvalid) as [[|] ->]; simpl;
      [|now left].
    destruct (decide (Block.hash cur' <> Block.calculateHash cur')) as [|Hfresh'];
      [now left|].
    apply dec_stable in Hfresh'.
    assert (Hsame : block_preimage cur' = block_preimage cur).
    { apply (Hcoll i); try assumption. congruence. }
    destruct (IH (S i) ltac:(lia) ltac:(lia) Hrest) as [Hfalse | [Htrue Hlater]];
      [now left|].
    right. split; [exact Htrue|].
    intros j b b' Hj Hb Hb'. destruct (decide (j = i)) as [->|Hne].
    + rewrite Hcur in Hb. rewrite Hcur' in Hb'. congruence.
    + apply (Hlater j); [lia|assumption|assumption].
Qed.

Lemma write_amount_chain (places : Places) (v : number) (bc : t) (j : nat) :
  chain (write_amount places v bc) !! j
  = Block.write_amount (in_chain places j) v <$> chain bc !! j.
Proof. unfold write_amount. simpl. now rewrite list_lookup_imap. Qed.

(** C2 (amended). On a chain that [isChainValid()] accepts, the write of a
    different amount to a transaction stored in a mined block (any block
    after the genesis block), the blocks' [hash] left as they are, makes
    [isChainValid()] return false, provided one of the two amounts, the old
    or the new, is finite: [JSON.stringify] then prints them differently.
    The write reaches the transaction object, so it shows at every place
    where that object stands: the statement holds whichever those places
    are.  The digest is taken not to collide on the content of a block
    before and after the write. *)
Theorem tampered_amount_detected (bc : t) (i k : nat) (v : number) (b : Block.t)
    (l : list Transaction.t) (tx : Transaction.t) (places : Places) :
  isChainValid bc = Normal true ->
  (1 <= i)%nat -> chain bc !! i = Some b ->
  Block.transactions b = Block.Txs l -> l !! k = Some tx ->
  in_chain places i k = true ->
  v <> Transaction.amount tx ->
  Number.is_finite v = true \/ Number.is_finite (Transaction.amount tx) = true ->
  (forall j b_j, chain bc !! j = Some b_j ->
     Block.calculateHash (Block.write_amount (in_chain places j) v b_j)
     = Block.calculateHash b_j ->
     block_preimage (Block.write_amount (in_chain places j) v b_j)
     = block_preimage b_j) ->
  isChainValid (write_amount places v bc) = Normal false.
Proof.
  intros Hvalid Hi Hb Hbody Hk Hplace Hv Hfin Hcoll.
  pose proof Hvalid as Hvalid'.
  apply isChainValid_iff in Hvalid' as [Hgen _].
  pose proof (genesis_intact_exact bc Hgen) as Hgenesis.
  assert (Hgen' : genesis_intact (write_amount places v bc)).
  { unfold genesis_intact. rewrite write_amount_chain, Hgenesis. reflexivity. }
  assert (Hlen : length (chain (write_amount places v bc)) = length (chain bc)).
  { unfold write_amount. simpl. apply length_imap. }
  rewrite isChainValid_genesis in Hvalid |- *.
  rewrite decide_True in Hvalid by assumption.
  rewrite decide_True by assumption. rewrite Hlen.
  destruct (loop_amounts_overwritten (chain bc) (chain (write_amount places v bc))
              (length (chain bc) - 1) 1) as [Hfalse | [_ Hsame]];
    try assumption; try lia.
  - unfold write_amount. simpl. apply Forall2_imap_r.
    intros j x. apply write_amount_overwritten.
  - intros j bj bj' Hbj Hbj'. rewrite write_amount_chain, Hbj in Hbj'.
    injection Hbj' as <-. now apply Hcoll.
  - apply genesis_intact_nonempty in Hgen. lia.
  - exfalso.
    specialize (Hsame i b (Block.write_amount (in_chain places i) v b) Hi Hb).
    rewrite write_amount_chain, Hb in Hsame. specialize (Hsame eq_refl).
    assert (Hbody' : Block.transactions (Block.write_amount (in_chain places i) v b)
                     = Block.Txs (imap (fun m tx => if in_chain places i m
                                                    then Transaction.set_amount v tx
                                                    else tx) l)).
    { unfold Block.write_amount. now rewrite Hbody. }
    pose proof (amounts_overwritten_preimage _ _ _ _
                  (write_amount_overwritten _ _ _) Hbody Hbody' Hsame) as Hjson.
    destruct (Forall2_lookup_l _ _ _ _ _ Hjson Hk) as (tx' & Hk' & _ & Hamount).
    rewrite list_lookup_imap, Hk, Hplace in Hk'. injection Hk' as <-.
    simpl in Hamount. symmetry in Hamount.
    exact (json_number_differs _ _ Hv Hfin Hamount).
Qed.

End TamperDetection.

Lemma tampered_amount_detected_witness :
  @Blockchain.isChainValid Toy.crypto Examples.chain_twice = Normal true /\
  Blockchain.chain (write_amount Examples.transfer30_places 999 Examples.chain_twice)
    !! 2%nat
  = Some (Block.mk "003cdecc" (Block.Millis 1005)
            (Block.Txs [Transaction.set_amount 999 Examples.transfer30;
                        Transaction.set_amount 999 Examples.transfer30;
                        Examples.reward_dave]) 240 "00e0da85") /\
  @Blockchain.isChainValid Toy.crypto
     (write_amount Examples.transfer30_places 999 Examples.chain_twice)
  = Normal false.
Proof.
  split; [vm_compute; reflexivity|]. split; [reflexivity|].
  apply (@tampered_amount_detected Toy.crypto Examples.chain_twice 2 1 999
           Examples.block_twice
           [Examples.transfer30; Examples.transfer30; Examples.reward_dave]
           Examples.transfer30 Examples.transfer30_places).
  - vm_compute. reflexivity.
  - lia.
  - reflexivity.
  - reflexivity.
  - reflexivity.
  - reflexivity.
  - discriminate.
  - left. reflexivity.
  - intros [|[|[|j]]] bj Hbj; try discriminate; injection Hbj as <-.
    + reflexivity.
    + reflexivity.
    + intros Hcollide. vm_compute in Hcollide. discriminate.
Defined.

(** C2 as stated fails on a reward whose amount is [NaN]: [isValid()] does
    not read the amount of a reward, and [JSON.stringify] prints [null] for
    [NaN] and for [Infinity] alike, so the block hands the same string to
    the digest after [Infinity] has been written over [NaN], and
    [isChainValid()] still returns true. *)
Lemma nan_amount_overwrite_undetected :
  @Blockchain.isChainValid Toy.crypto TamperedExamples.nan_reward_chain
    = Normal true /\
  Infinity <> Transaction.amount TamperedExamples.nan_reward /\
  write_amount (only_place 1 0) Infinity TamperedExamples.nan_reward_chain
    = Blockchain.set_amount 1 0 Infinity TamperedExamples.nan_reward_chain /\
  @Blockchain.isChainValid Toy.crypto
     (write_amount (only_place 1 0) Infinity TamperedExamples.nan_reward_chain)
  = Normal true.
Proof.
  split; [vm_compute; reflexivity|]. split; [discriminate|].
  split; [reflexivity|]. vm_compute. reflexivity.
Qed.

(** ** Reachable states *)

Section ReachableFacts.
Context `{Crypto} `{Engine}.
Import Blockchain.

Lemma addTransaction_accepts_sender (tx : Transaction.t) (bc bc' : t)
    (r : completion unit) :
  addTransaction tx bc = (r, bc') ->
  bc' = bc \/
  (Transaction.fromAddress tx <> None /\ bc' = push_pending tx bc).
Proof.
  rewrite addTransaction_cases.
  destruct (truthy (Transaction.fromAddress tx)) eqn:Hfrom; simpl.
  - intros Hrun. assert (Hsender : Transaction.fromAddress tx <> None).
    { intros Hnone. rewrite Hnone in Hfrom. discriminate. }
    destruct (negb (truthy (Transaction.toAddress tx))); [left; congruence|].
    destruct (Transaction.isValid tx) as [[|]|e]; try (left; congruence).
    destruct (Number.leb _ _); [left; congruence|].
    destruct (Number.ltb _ _); [left; congruence|]. right. split; congruence.
  - intros [= _ <-]. now left.
Qed.

(** A call of [minePendingTransactions] at the difficulty of the
    constructor, on a chain with a latest block, returns when it ends. *)
Lemma minePendingTransactions_at_2 (now_tx now_block : Z) (miner : Address)
    (fuel : nat) (bc bc' : t) (r : completion unit) :
  chain bc <> [] -> difficulty bc = 2%nat ->
  minePendingTransactions now_tx now_block miner fuel bc = Some (r, bc') ->
  r = Normal tt /\
  exists latest block,
    getLatestBlock bc = Some latest /\
    Block.mineBlock (difficulty bc) fuel
      (Block.new (Block.Millis now_block)
         (Block.Txs (pendingTransactions bc
                     ++ [Transaction.mk None miner (miningReward bc) now_tx None]))
         (Block.hash latest)) = Some (Normal tt, block) /\
    bc' = mk (chain bc ++ [block]) (difficulty bc) [] (miningReward bc).
Proof.
  intros Hne Hd Hmine.
  assert (Hr : r = Normal tt).
  { apply (minePendingTransactions_no_throw _ _ _ _ _ _ _ Hne) in Hmine;
      [exact Hmine|].
    rewrite Hd. apply zeros_short. lia. }
  subst r. split; [reflexivity|].
  exact (minePendingTransactions_returns _ _ _ _ _ _ Hne Hmine).
Qed.

(** What the public operations preserve. *)
Lemma reachable_invariant (miners : list Address) (bc : t) :
  reachable miners bc ->
  difficulty bc = 2%nat /\ miningReward bc = 100 /\
  Forall (fun tx => Transaction.fromAddress tx <> None) (pendingTransactions bc) /\
  exists blocks,
    chain bc = createGenesisBlock :: blocks /\
    Forall2 (ends_with_reward 100) miners blocks.
Proof.
  induction 1 as [|miners bc tx r bc' Hreach IH Hadd
                  |miners bc now_tx now_block miner fuel r bc' Hreach IH Hmine].
  - repeat split; [constructor|]. exists []. split; [reflexivity|constructor].
  - destruct IH as (Hd & Hr & Hpool & blocks & Hchain & Hblocks).
    apply addTransaction_accepts_sender in Hadd as [-> | [Hsender ->]].
    + repeat split; try assumption. eauto.
    + repeat split; try assumption.
      * simpl. apply Forall_app. split; [exact Hpool|]. now constructor.
      * exists blocks. auto.
  - destruct IH as (Hd & Hr & Hpool & blocks & Hchain & Hblocks).
    apply minePendingTransactions_at_2 in Hmine
      as (_ & latest & block & _ & Hblock & ->);
      [|now rewrite Hchain|exact Hd].
    apply mineBlock_fields in Hblock as (_ & _ & Hbody & _). simpl in Hbody.
    repeat split; try assumption; [constructor|].
    exists (blocks ++ [block]). simpl. split; [now rewrite Hchain|].
    apply Forall2_app; [exact Hblocks|]. constructor; [|constructor].
    exists (pendingTransactions bc), now_tx. rewrite Hbody, Hr. auto.
Qed.

Lemma sender_only_last (transfers : list Transaction.t) (reward tx : Transaction.t)
    (k : nat) :
  Forall (fun tx => Transaction.fromAddress tx <> None) transfers ->
  (transfers ++ [reward]) !! k = Some tx ->
  Transaction.fromAddress tx = None ->
  k = length transfers /\ tx = reward.
Proof.
  intros Hall Hk Hnone.
  destruct (decide (k < length transfers)%nat) as [Hlt|Hge].
  - rewrite lookup_app_l in Hk by exact Hlt.
    rewrite Forall_lookup in Hall. specialize (Hall k tx Hk). contradiction.
  - rewrite lookup_app_r in Hk by lia.
    destruct (k - length transfers)%nat as [|n] eqn:Hn; simpl in Hk.
    + injection Hk as <-. split; [lia|reflexivity].
    + discriminate.
Qed.

(** C10. In every state reached through the public operations, the chain is
    the genesis block followed by one block per call of
    [minePendingTransactions]; the transactions of each such block end with
    the reward [(null, miner, miningReward)] for the miner address that call
    was given, and no other transaction of the block has a [null] sender;
    nor has any pending transaction, [addTransaction] rejecting them. *)
Theorem reachable_blocks_end_with_reward (miners : list Address) (bc : t) :
  reachable miners bc ->
  Forall (fun tx => Transaction.fromAddress tx <> None) (pendingTransactions bc) /\
  exists blocks,
    chain bc = createGenesisBlock :: blocks /\
    Forall2 (ends_with_reward (miningReward bc)) miners blocks /\
    forall i miner b,
      miners !! i = Some miner -> chain bc !! S i = Some b ->
      exists l reward,
        Block.transactions b = Block.Txs l /\
        last l = Some reward /\
        Transaction.fromAddress reward = None /\
        Transaction.toAddress reward = miner /\
        Transaction.amount reward = miningReward bc /\
        forall k tx, l !! k = Some tx -> Transaction.fromAddress tx = None ->
                     S k = length l /\ tx = reward.
Proof.
  intros Hreach.
  destruct (reachable_invariant _ _ Hreach)
    as (_ & Hr & Hpool & blocks & Hchain & Hblocks).
  split; [exact Hpool|]. exists blocks. rewrite Hr.
  split; [exact Hchain|]. split; [exact Hblocks|].
  intros i miner b Hminer Hb. rewrite Hchain in Hb. simpl in Hb.
  destruct (Forall2_lookup_lr _ _ _ _ _ _ Hblocks Hminer Hb)
    as (transfers & now & Hbody & Hall).
  exists (transfers ++ [Transaction.mk None miner 100 now None]),
         (Transaction.mk None miner 100 now None).
  split; [exact Hbody|]. split; [apply last_snoc|].
  do 3 (split; [reflexivity|]).
  intros k tx Hk Hnone.
  destruct (sender_only_last _ _ _ _ Hall Hk Hnone) as [-> ->].
  rewrite length_app. simpl. split; [lia|reflexivity].
Qed.

End ReachableFacts.

Lemma toy_run_reachable :
  @reachable Toy.crypto Toy.engine [Examples.alice; Examples.dave] Examples.chain3.
Proof.
  change [Examples.alice; Examples.dave]
    with (([] ++ [Examples.alice]) ++ [Examples.dave]).
  apply (@reachable_mine Toy.crypto Toy.engine _
           (Blockchain.push_pending Examples.transfer2
              (Blockchain.push_pending Examples.transfer1 Examples.chain1))
           1004 1005 Examples.dave 200 (Normal tt)); [|vm_compute; reflexivity].
  apply (@reachable_add Toy.crypto Toy.engine _
           (Blockchain.push_pending Examples.transfer1 Examples.chain1)
           Examples.transfer2 (Normal tt)); [|vm_compute; reflexivity].
  apply (@reachable_add Toy.crypto Toy.engine _ Examples.chain1
           Examples.transfer1 (Normal tt)); [|vm_compute; reflexivity].
  apply (@reachable_mine Toy.crypto Toy.engine _ (@Blockchain.new Toy.crypto)
           1000 1001 Examples.alice 300 (Normal tt)); [|vm_compute; reflexivity].
  apply reachable_new.
Defined.

Lemma reachable_blocks_end_with_reward_witness :
  exists blocks,
    Blockchain.chain Examples.chain3
      = @Blockchain.createGenesisBlock Toy.crypto :: blocks /\
    Forall2 (ends_with_reward 100) [Examples.alice; Examples.dave] blocks.
Proof.
  destruct (@reachable_blocks_end_with_reward Toy.crypto Toy.engine _ _
              toy_run_reachable)
    as (_ & blocks & Hchain & Hblocks & _).
  exists blocks. split; [exact Hchain|exact Hblocks].
Defined.

(** ** Overdraft through the pending pool *)

Section PendingOverdraft.
Context `{Crypto} `{Engine}.
Import Blockchain.

Lemma getBalanceOfAddress_snoc (address : Address) (bc : t) (b : Block.t)
    (d : nat) (pool : list Transaction.t) (reward : number) :
  getBalanceOfAddress address (mk (chain bc ++ [b]) d pool reward)
  = (getBalanceOfAddress address bc
     + sum (contribution address <$> block_transactions b))%number.
Proof.
  rewrite !getBalanceOfAddress_replay.
  unfold balance_by_replay, all_transactions. simpl.
  rewrite fmap_app, concat_app, fmap_app, sum_app. simpl.
  rewrite app_nil_r. reflexivity.
Qed.

Lemma getBalanceOfAddress_push_pending (address : Address) (tx : Transaction.t)
    (bc : t) :
  getBalanceOfAddress address (push_pending tx bc) = getBalanceOfAddress address bc.
Proof. reflexivity. Qed.

Lemma contribution_sent (address : Address) (tx : Transaction.t) :
  Transaction.fromAddress tx = address -> Transaction.toAddress tx <> address ->
  contribution address tx = (- Transaction.amount tx)%number.
Proof.
  intros Hfrom Hto. unfold contribution.
  rewrite decide_True by exact Hfrom. rewrite decide_False by exact Hto.
  apply add_0_r.
Qed.

Lemma contribution_received (address : Address) (tx : Transaction.t) :
  Transaction.fromAddress tx <> address -> Transaction.toAddress tx = address ->
  contribution address tx = Transaction.amount tx.
Proof.
  intros Hfrom Hto. unfold contribution.
  rewrite decide_False by exact Hfrom. rewrite decide_True by exact Hto.
  apply add_0_l.
Qed.

Lemma contribution_unrelated (address : Address) (tx : Transaction.t) :
  Transaction.fromAddress tx <> address -> Transaction.toAddress tx <> address ->
  contribution address tx = 0.
Proof.
  intros Hfrom Hto. unfold contribution.
  rewrite decide_False by exact Hfrom. rewrite decide_False by exact Hto.
  reflexivity.
Qed.

Lemma sum_cons (a : number) (l : list number) : sum (a :: l) = (a + sum l)%number.
Proof. reflexivity. Qed.

Lemma sum_nil : sum [] = 0.
Proof. reflexivity. Qed.

(** C9. The balance check of [addTransaction] reads the chain only: its
    outcome is the same whatever the pending pool holds.  So after a fresh
    blockchain has mined one block for the holder of a key pair, whose
    balance is then 100, any two transfers from that holder which
    [isValid()] accepts, each of an amount within the balance but together
    above it, are both accepted by consecutive calls into the same pending
    pool; once they are mined by someone else the holder's balance is
    negative. *)
Theorem pending_pool_overdraft (signingKey : KeyPair) (now_tx now_block : Z)
    (fuel : nat) (bc1 : t) (tx1 tx2 : Transaction.t) :
  minePendingTransactions now_tx now_block (Some (getPublic signingKey)) fuel new
    = Some (Normal tt, bc1) ->
  Transaction.fromAddress tx1 = Some (getPublic signingKey) ->
  Transaction.fromAddress tx2 = Some (getPublic signingKey) ->
  names_both_parties tx1 -> names_both_parties tx2 ->
  Transaction.isValid tx1 = Normal true ->
  Transaction.isValid tx2 = Normal true ->
  (0 < Transaction.amount tx1 <= 100)%number ->
  (0 < Transaction.amount tx2 <= 100)%number ->
  (100 < Transaction.amount tx1 + Transaction.amount tx2)%number ->
  (forall tx bc pool,
     fst (addTransaction tx (mk (chain bc) (difficulty bc) pool (miningReward bc)))
     = fst (addTransaction tx bc)) /\
  getBalanceOfAddress (Some (getPublic signingKey)) bc1 = 100 /\
  addTransaction tx1 bc1 = (Normal tt, push_pending tx1 bc1) /\
  addTransaction tx2 (push_pending tx1 bc1)
    = (Normal tt, push_pending tx2 (push_pending tx1 bc1)) /\
  pendingTransactions (push_pending tx2 (push_pending tx1 bc1)) = [tx1; tx2] /\
  (forall now_tx' now_block' miner fuel' bc2,
     miner <> Some (getPublic signingKey) ->
     Transaction.toAddress tx1 <> Some (getPublic signingKey) ->
     Transaction.toAddress tx2 <> Some (getPublic signingKey) ->
     minePendingTransactions now_tx' now_block' miner fuel'
       (push_pending tx2 (push_pending tx1 bc1)) = Some (Normal tt, bc2) ->
     getBalanceOfAddress (Some (getPublic signingKey)) bc2
       = (100 - Transaction.amount tx1 - Transaction.amount tx2)%number /\
     (getBalanceOfAddress (Some (getPublic signingKey)) bc2 < 0)%number).
Proof.
  intros Hmine Hfrom1 Hfrom2 Hboth1 Hboth2 Hvalid1 Hvalid2 Ha1 Ha2 Hsum.
  split; [exact addTransaction_ignores_pending|].
  apply between_finite in Ha1 as (a1 & Hamt1 & Ha1).
  apply between_finite in Ha2 as (a2 & Hamt2 & Ha2).
  rewrite Hamt1, Hamt2 in Hsum |- *. apply lt_finite in Hsum.
  apply minePendingTransactions_returns in Hmine
    as (latest & block & _ & Hblock & ->); [|discriminate].
  apply mineBlock_fields in Hblock as (_ & _ & Hbody & _). simpl in Hbody.
  assert (Hbal : getBalanceOfAddress (Some (getPublic signingKey))
                   (mk (chain new ++ [block]) (difficulty new) [] (miningReward new))
                 = 100).
  { rewrite getBalanceOfAddress_snoc. unfold block_transactions.
    rewrite Hbody. cbn [fmap list_fmap]. rewrite sum_cons, sum_nil.
    rewrite contribution_received; [reflexivity|discriminate|reflexivity]. }
  apply names_both_parties_dec in Hboth1, Hboth2.
  split; [exact Hbal|]. split; [|split; [|split]].
  - rewrite addTransaction_cases, Hboth1, Hvalid1, Hfrom1, Hbal, Hamt1.
    simpl. rewrite (proj2 (Z.leb_gt _ _)) by lia.
    rewrite (proj2 (Z.ltb_ge _ _)) by lia. reflexivity.
  - rewrite addTransaction_cases, Hboth2, Hvalid2, Hfrom2.
    rewrite getBalanceOfAddress_push_pending, Hbal, Hamt2.
    simpl. rewrite (proj2 (Z.leb_gt _ _)) by lia.
    rewrite (proj2 (Z.ltb_ge _ _)) by lia. reflexivity.
  - reflexivity.
  - intros now_tx' now_block' miner fuel' bc2 Hminer Hto1 Hto2 Hmine2.
    apply minePendingTransactions_returns in Hmine2
      as (latest2 & block2 & _ & Hblock2 & ->); [|simpl; now destruct (chain new)].
    apply mineBlock_fields in Hblock2 as (_ & _ & Hbody2 & _). simpl in Hbody2.
    assert (Hbal2 : getBalanceOfAddress (Some (getPublic signingKey))
              (mk (chain (push_pending tx2 (push_pending tx1
                     (mk (chain new ++ [block]) (difficulty new) []
                         (miningReward new)))) ++ [block2])
                  (difficulty (push_pending tx2 (push_pending tx1
                     (mk (chain new ++ [block]) (difficulty new) []
                         (miningReward new))))) []
                  (miningReward (push_pending tx2 (push_pending tx1
                     (mk (chain new ++ [block]) (difficulty new) []
                         (miningReward new))))))
            = Finite (100 - a1 - a2)).
    { rewrite getBalanceOfAddress_snoc, !getBalanceOfAddress_push_pending, Hbal.
      unfold block_transactions. rewrite Hbody2.
      cbn [fmap list_fmap app]. rewrite !sum_cons, sum_nil.
      rewrite (contribution_sent _ tx1 Hfrom1 Hto1).
      rewrite (contribution_sent _ tx2 Hfrom2 Hto2).
      rewrite contribution_unrelated; [|discriminate|exact Hminer].
      rewrite Hamt1, Hamt2. simpl. f_equal. lia. }
    rewrite Hbal2. split.
    + simpl. f_equal; lia.
    + apply lt_finite. lia.
Qed.

End PendingOverdraft.

Lemma pending_pool_overdraft_witness :
  Blockchain.getBalanceOfAddress Examples.alice Examples.chain1 = 100 /\
  @Blockchain.addTransaction Toy.crypto Examples.transfer1 Examples.chain1
    = (Normal tt, Blockchain.push_pending Examples.transfer1 Examples.chain1) /\
  @Blockchain.addTransaction Toy.crypto Examples.transfer2
      (Blockchain.push_pending Examples.transfer1 Examples.chain1)
    = (Normal tt,
       Blockchain.push_pending Examples.transfer2
         (Blockchain.push_pending Examples.transfer1 Examples.chain1)) /\
  (Blockchain.getBalanceOfAddress Examples.alice Examples.chain3 < 0)%number.
Proof.
  destruct (@pending_pool_overdraft Toy.crypto Toy.engine "alice" 1000 1001 300
              Examples.chain1 Examples.transfer1 Examples.transfer2)
    as (_ & Hbal & Hadd1 & Hadd2 & _ & Hmined).
  - vm_compute. reflexivity.
  - reflexivity.
  - reflexivity.
  - split; reflexivity.
  - split; reflexivity.
  - vm_compute. reflexivity.
  - vm_compute. reflexivity.
  - split; reflexivity.
  - split; reflexivity.
  - reflexivity.
  - split; [exact Hbal|]. split; [exact Hadd1|]. split; [exact Hadd2|].
    apply (Hmined 1004 1005 Examples.dave 200%nat Examples.chain3).
    + discriminate.
    + discriminate.
    + discriminate.
    + vm_compute. reflexivity.
Defined.

(* ================================================================== *)
(** * Further properties of the code                                   *)
(* ================================================================== *)

(** ** hasValidTransactions *)

Section HasValidTransactions.
Context `{Crypto}.

Lemma all_valid_true_iff (l : list Transaction.t) :
  Block.all_valid (Block.Tx <$> l) = Normal true <->
  Forall (fun tx => Transaction.isValid tx = Normal true) l.
Proof.
  induction l as [|tx l IH]; [split; [constructor|reflexivity]|].
  rewrite fmap_cons. cbn [Block.all_valid]. rewrite Forall_cons.
  destruct (Transaction.isValid tx) as [[|]|e]; simpl.
  - rewrite IH. tauto.
  - split; [discriminate|]. intros [Hf _]. discriminate.
  - split; [discriminate|]. intros [Hf _]. discriminate.
Qed.

(** The loop stops at the first transaction that is not valid, and answers
    with what [isValid()] did there. *)
Lemma all_valid_stops (l1 l2 : list Transaction.t) (tx : Transaction.t) :
  Forall (fun tx => Transaction.isValid tx = Normal true) l1 ->
  Transaction.isValid tx <> Normal true ->
  Block.all_valid (Block.Tx <$> (l1 ++ tx :: l2))
  = completion_bind (Transaction.isValid tx) (fun _ => Normal false).
Proof.
  intros Hl1 Htx. induction Hl1 as [|ty l1 Hty _ IH].
  - simpl. destruct (Transaction.isValid tx) as [[|]|e]; simpl; congruence.
  - simpl. rewrite Hty. simpl. exact IH.
Qed.

(** X1. [hasValidTransactions()] returns true exactly when [isValid()]
    returns true on every transaction of the block; otherwise it stops at
    the first transaction on which [isValid()] does not, returning false if
    it returned false and throwing what it threw, whatever follows in the
    block; on a block whose [transactions] is a text it returns true for the
    empty text and throws a [TypeError] otherwise. *)
Theorem hasValidTransactions_spec (b : Block.t) :
  match Block.transactions b with
  | Block.Txs l =>
      (Block.hasValidTransactions b = Normal true <->
       Forall (fun tx => Transaction.isValid tx = Normal true) l) /\
      (forall l1 tx l2,
         l = l1 ++ tx :: l2 ->
         Forall (fun tx => Transaction.isValid tx = Normal true) l1 ->
         (Transaction.isValid tx = Normal false ->
          Block.hasValidTransactions b = Normal false) /\
         (forall e, Transaction.isValid tx = Throw e ->
                    Block.hasValidTransactions b = Throw e))
  | Block.Text s =>
      Block.hasValidTransactions b =
        if decide (s = "") then Normal true
        else Throw (TypeError "tx.isValid is not a function")
  end.
Proof.
  unfold Block.hasValidTransactions.
  destruct (Block.transactions b) as [s|l]; simpl.
  - destruct s; reflexivity.
  - split; [apply all_valid_true_iff|].
    intros l1 tx l2 -> Hl1. split.
    + intros Hf. rewrite all_valid_stops by (assumption || congruence).
      now rewrite Hf.
    + intros e He. rewrite all_valid_stops by (assumption || congruence).
      now rewrite He.
Qed.

End HasValidTransactions.

(** ** getAllTransactionsForWallet *)

Section Wallet.
Import Blockchain.

Lemma involves_concerns (address : Address) (tx : Transaction.t) :
  involves address (Block.Tx tx) = true <-> concerns address tx.
Proof.
  unfold involves, concerns.
  rewrite orb_true_iff, !bool_decide_eq_true. reflexivity.
Qed.

Lemma elem_of_concat {A} (x : A) (ls : list (list A)) :
  x ∈ concat ls <-> exists l, x ∈ l /\ l ∈ ls.
Proof.
  induction ls as [|l ls IH]; simpl.
  - split; [intros Hx; inversion Hx|intros (l & _ & Hl); inversion Hl].
  - rewrite elem_of_app, IH. split.
    + intros [Hx | (l' & Hx & Hl')].
      * exists l. split; [exact Hx|apply elem_of_cons; now left].
      * exists l'. split; [exact Hx|apply elem_of_cons; now right].
    + intros (l' & Hx & Hl'). apply elem_of_cons in Hl' as [-> | Hl'];
        [now left|right; eauto].
Qed.

Lemma filter_involves_chars (address : Address) (cs : list ascii) :
  filter (fun e => involves address e = true) (Block.Char <$> cs) = [].
Proof.
  induction cs as [|c cs IH]; [reflexivity|].
  rewrite fmap_cons, filter_cons_False; [exact IH|]. simpl. discriminate.
Qed.

Lemma filter_involves_txs (address : Address) (l : list Transaction.t) :
  filter (fun e => involves address e = true) (Block.Tx <$> l)
  = Block.Tx <$> filter (concerns address) l.
Proof.
  induction l as [|tx l IH]; [reflexivity|].
  rewrite fmap_cons. destruct (decide (concerns address tx)) as [Hc|Hc].
  - rewrite filter_cons_True by (now apply involves_concerns).
    rewrite (filter_cons_True (concerns address)) by exact Hc.
    rewrite fmap_cons, IH. reflexivity.
  - rewrite filter_cons_False by (now rewrite involves_concerns).
    rewrite (filter_cons_False (concerns address)) by exact Hc.
    exact IH.
Qed.

Lemma filter_involves_block (address : Address) (b : Block.t) :
  filter (fun e => involves address e = true)
         (Block.elements (Block.transactions b))
  = Block.Tx <$> filter (concerns address) (block_transactions b).
Proof.
  unfold block_transactions. destruct (Block.transactions b) as [s|l]; simpl.
  - apply filter_involves_chars.
  - apply filter_involves_txs.
Qed.

Lemma wallet_fold (address : Address) (blocks : list Block.t)
    (txs : list Block.Element) :
  fold_left
    (fun txs block =>
       txs ++ filter (fun e => involves address e = true)
                     (Block.elements (Block.transactions block)))
    blocks txs
  = txs ++ (Block.Tx <$> filter (concerns address)
                           (concat (block_transactions <$> blocks))).
Proof.
  revert txs. induction blocks as [|b blocks IH]; intros txs.
  - simpl. now rewrite app_nil_r.
  - rewrite fmap_cons. cbn [fold_left concat].
    rewrite IH, filter_involves_block, filter_app, fmap_app, app_assoc.
    reflexivity.
Qed.

Lemma getAllTransactionsForWallet_filter (address : Address) (bc : t) :
  getAllTransactionsForWallet address bc
  = Block.Tx <$> filter (concerns address) (all_transactions bc).
Proof. unfold getAllTransactionsForWallet. now rewrite wallet_fold. Qed.

Lemma contribution_not_concerned (address : Address) (tx : Transaction.t) :
  ~ concerns address tx -> contribution address tx = 0.
Proof.
  unfold concerns, contribution. intros Hnot.
  rewrite !decide_False by tauto. reflexivity.
Qed.

Lemma sum_contribution_filter (address : Address) (l : list Transaction.t) :
  sum (contribution address <$> filter (concerns address) l)
  = sum (contribution address <$> l).
Proof.
  induction l as [|tx l IH]; [reflexivity|].
  destruct (decide (concerns address tx)) as [Hc|Hc].
  - rewrite filter_cons_True by exact Hc. rewrite !fmap_cons, !sum_cons.
    now rewrite IH.
  - rewrite filter_cons_False by exact Hc. rewrite fmap_cons, sum_cons.
    now rewrite IH, (contribution_not_concerned _ _ Hc), add_0_l.
Qed.

(** X2. [getAllTransactionsForWallet(address)] returns, in chain order and
    with repetitions kept, exactly the transactions of the blocks whose
    sender or recipient is [address]: each such transaction once per
    occurrence (once too when it is both sender and recipient), nothing
    from the text of the genesis block, nothing from the pending pool. *)
Theorem getAllTransactionsForWallet_spec (address : Address) (bc : t) :
  getAllTransactionsForWallet address bc
    = Block.Tx <$> filter (concerns address) (all_transactions bc) /\
  (forall e, e ∈ getAllTransactionsForWallet address bc <->
     exists tx b, e = Block.Tx tx /\ b ∈ chain bc /\
                  tx ∈ block_transactions b /\ concerns address tx) /\
  (forall pool,
     getAllTransactionsForWallet address
       (mk (chain bc) (difficulty bc) pool (miningReward bc))
     = getAllTransactionsForWallet address bc).
Proof.
  split; [apply getAllTransactionsForWallet_filter|]. split.
  - intros e. rewrite getAllTransactionsForWallet_filter, list_elem_of_fmap.
    unfold all_transactions. split.
    + intros (tx & -> & Hin). apply list_elem_of_filter in Hin as [Hc Hin].
      apply elem_of_concat in Hin as (l & Htx & Hl).
      apply list_elem_of_fmap in Hl as (b & -> & Hb).
      exists tx, b. auto.
    + intros (tx & b & -> & Hb & Htx & Hc). exists tx. split; [reflexivity|].
      apply list_elem_of_filter. split; [exact Hc|].
      apply elem_of_concat. exists (block_transactions b).
      split; [exact Htx|]. apply list_elem_of_fmap. eauto.
  - intros pool. reflexivity.
Qed.

(** X3. The balance of an address is the sum of the contributions of the
    transactions [getAllTransactionsForWallet] returns for it; an address
    with no transaction in the chain has balance zero. *)
Theorem balance_of_wallet_transactions (address : Address) (bc : t) :
  getBalanceOfAddress address bc
    = sum (contribution address <$> filter (concerns address) (all_transactions bc)) /\
  (getAllTransactionsForWallet address bc = [] ->
   getBalanceOfAddress address bc = 0).
Proof.
  assert (Hsum : getBalanceOfAddress address bc
                 = sum (contribution address
                          <$> filter (concerns address) (all_transactions bc))).
  { rewrite sum_contribution_filter.
    unfold getBalanceOfAddress, all_transactions.
    rewrite (fold_balance_chain address (chain bc) 0). apply add_0_l. }
  split; [exact Hsum|].
  rewrite getAllTransactionsForWallet_filter. intros Hnone.
  apply fmap_nil_inv in Hnone. rewrite Hsum, Hnone. reflexivity.
Qed.

End Wallet.

(** ** Signing, verifying and submitting *)

Section Signing.
Context `{Crypto} `{Engine}.
Import Blockchain.

Lemma signTransaction_matching (signingKey : KeyPair) (tx : Transaction.t) :
  Transaction.fromAddress tx = Some (getPublic signingKey) ->
  signTransaction_result_ok signingKey tx.
Proof.
  intros Hfrom. unfold signTransaction_result_ok.
  exists (sha256_hex (getPublic signingKey
                      +:+ address_to_string (Transaction.toAddress tx)
                      +:+ number_to_string (Transaction.amount tx)
                      +:+ number_to_string (Transaction.timestamp tx))).
  split; [exact (calculateHash_of_sender tx _ Hfrom)|].
  unfold Transaction.signTransaction. unfold_method.
  rewrite bool_decide_eq_false_2 by (intros Hne; apply Hne; now symmetry).
  now rewrite (calculateHash_of_sender tx _ Hfrom).
Qed.

Lemma calculateHash_set_signature (sig : string) (tx : Transaction.t) :
  Transaction.calculateHash (Transaction.set_signature sig tx)
  = Transaction.calculateHash tx.
Proof. reflexivity. Qed.

Lemma isValid_signed (tx : Transaction.t) (from h sig : string) :
  Transaction.fromAddress tx = Some from ->
  Transaction.calculateHash tx = Normal h ->
  Transaction.isValid (Transaction.set_signature sig tx)
  = if decide (sig = "") then Throw (Error "No signature in this transaction")
    else verify_under from h sig.
Proof.
  intros Hfrom Hh. unfold Transaction.isValid, Transaction.no_signature.
  cbn [Transaction.fromAddress Transaction.signature Transaction.set_signature].
  rewrite Hfrom. destruct (decide (sig = "")) as [->|Hne]; [reflexivity|].
  apply String.eqb_neq in Hne. rewrite Hne.
  rewrite calculateHash_set_signature, Hh. reflexivity.
Qed.

(** X7. A transaction that names both parties but carries no signature is
    refused by [addTransaction] with the error of [isValid()], 'No signature
    in this transaction', which is none of the four errors of
    [addTransaction] itself; the blockchain is left as it was. *)
Theorem addTransaction_unsigned (tx : Transaction.t) (bc : t) :
  names_both_parties tx -> Transaction.no_signature tx = true ->
  addTransaction tx bc = (Throw (Error "No signature in this transaction"), bc) /\
  Error "No signature in this transaction"
    ∉ [err_addresses; err_invalid; err_amount; err_balance].
Proof.
  intros Hboth Hsig. split.
  - rewrite addTransaction_cases.
    destruct Hboth as [Hfrom Hto]. rewrite Hfrom, Hto. simpl.
    unfold Transaction.isValid. rewrite Hsig.
    destruct (Transaction.fromAddress tx); [reflexivity|discriminate].
  - apply (bool_decide_unpack _). vm_compute. reflexivity.
Qed.

(** X8. Signing and then verifying: after [signTransaction] with a key pair
    whose public key is [fromAddress], [isValid()] returns what the
    verification of that fresh signature under that public key returns (it
    throws if the signing capability produced the empty string); so under a
    signature scheme that verifies its own non-empty signatures, a freshly
    signed transaction is valid. *)
Theorem sign_then_isValid (signingKey : KeyPair) (tx : Transaction.t) :
  Transaction.fromAddress tx = Some (getPublic signingKey) ->
  exists h,
    Transaction.calculateHash tx = Normal h /\
    Transaction.isValid (snd (Transaction.signTransaction signingKey tx))
    = (if decide (ec_sign signingKey h = "")
       then Throw (Error "No signature in this transaction")
       else verify_under (getPublic signingKey) h (ec_sign signingKey h)) /\
    (ec_sign signingKey h <> "" ->
     verify_under (getPublic signingKey) h (ec_sign signingKey h) = Normal true ->
     Transaction.isValid (snd (Transaction.signTransaction signingKey tx))
     = Normal true).
Proof.
  intros Hfrom.
  destruct (signTransaction_matching signingKey tx Hfrom) as (h & Hh & Hsign).
  exists h. split; [exact Hh|]. rewrite Hsign. simpl.
  rewrite (isValid_signed tx _ h _ Hfrom Hh). split; [reflexivity|].
  intros Hne Hok. rewrite decide_False by exact Hne. exact Hok.
Qed.

(** X9. Signing is idempotent: calling [signTransaction] a second time with
    the same key pair has the same outcome and leaves the transaction as
    the first call left it, the digest signed not covering the signature
    field. *)
Theorem signTransaction_idempotent (signingKey : KeyPair) (tx : Transaction.t) :
  Transaction.signTransaction signingKey
    (snd (Transaction.signTransaction signingKey tx))
  = Transaction.signTransaction signingKey tx.
Proof.
  unfold Transaction.signTransaction. unfold_method.
  destruct (bool_decide (Some (getPublic signingKey) <> Transaction.fromAddress tx))
    eqn:Hkey.
  - simpl. now rewrite Hkey.
  - destruct (Transaction.calculateHash tx) as [h|e] eqn:Hh; simpl.
    + cbn [Transaction.fromAddress Transaction.set_signature]. rewrite Hkey.
      rewrite calculateHash_set_signature, Hh. reflexivity.
    + now rewrite Hkey, Hh.
Qed.

(** X14. The digest of a transaction runs [amount] and [timestamp] together
    without a separator: two transactions with the same sender, recipient
    and signature whose amount and timestamp spell the same characters when
    written one after the other have the same digest, so [isValid()] does
    not tell them apart and a signature for one is a signature for the
    other. *)
Theorem amount_timestamp_run_together (from : string) (to : Address)
    (amount amount' : number) (timestamp timestamp' : Z) (sig : option string) :
  number_to_string amount +:+ number_to_string timestamp
  = number_to_string amount' +:+ number_to_string timestamp' ->
  Transaction.calculateHash (Transaction.mk (Some from) to amount timestamp sig)
  = Transaction.calculateHash (Transaction.mk (Some from) to amount' timestamp' sig) /\
  Transaction.isValid (Transaction.mk (Some from) to amount timestamp sig)
  = Transaction.isValid (Transaction.mk (Some from) to amount' timestamp' sig).
Proof.
  intros Hdigits.
  assert (Hhash : Transaction.calculateHash
                    (Transaction.mk (Some from) to amount timestamp sig)
                  = Transaction.calculateHash
                      (Transaction.mk (Some from) to amount' timestamp' sig)).
  { unfold Transaction.calculateHash.
    cbn [Transaction.fromAddress Transaction.toAddress Transaction.amount
         Transaction.timestamp].
    now rewrite Hdigits. }
  split; [exact Hhash|].
  unfold Transaction.isValid, Transaction.no_signature.
  cbn [Transaction.fromAddress Transaction.signature].
  destruct sig as [sig|]; [|reflexivity].
  destruct (String.eqb sig ""); [reflexivity|]. now rewrite Hhash.
Qed.

(** X15. [addTransaction] keeps no record of what it has accepted: a
    transaction it accepts is accepted again by the next call, and then
    stands twice in the pending pool. *)
Theorem addTransaction_twice (tx : Transaction.t) (bc bc' : t) :
  addTransaction tx bc = (Normal tt, bc') ->
  addTransaction tx bc' = (Normal tt, push_pending tx bc') /\
  pendingTransactions (push_pending tx bc') = pendingTransactions bc ++ [tx; tx].
Proof.
  rewrite !addTransaction_cases.
  destruct (negb _ || negb _); [discriminate|].
  destruct (Transaction.isValid tx) as [[|]|e]; try discriminate.
  destruct (Number.leb _ _); [discriminate|].
  destruct (Number.ltb _ _) eqn:Hbal; [discriminate|].
  intros [= <-]. rewrite getBalanceOfAddress_push_pending, Hbal.
  split; [reflexivity|]. simpl. now rewrite <- app_assoc.
Qed.

Lemma sum_NaN (l1 l2 : list number) : sum (l1 ++ NaN :: l2) = NaN.
Proof. rewrite sum_app, sum_cons. simpl. apply add_NaN_r. Qed.

Lemma contribution_NaN (address : Address) (tx : Transaction.t) :
  Transaction.amount tx = NaN -> concerns address tx ->
  contribution address tx = NaN.
Proof.
  intros Hamt Hc. unfold contribution, concerns in *. rewrite Hamt.
  destruct Hc as [Hc | Hc].
  - rewrite (decide_True _ _ Hc). reflexivity.
  - rewrite (decide_True (P := Transaction.toAddress tx = address)) by exact Hc.
    apply add_NaN_r.
Qed.

(** X22. An amount of [NaN] passes both comparisons of [addTransaction]:
    a transfer of [NaN] that names both parties and that [isValid()] accepts
    is let in whatever the balance of the sender; once it is mined the
    balances of the sender and of the recipient are [NaN], and from then on
    the balance check lets through every transfer of that sender. *)
Theorem addTransaction_accepts_NaN (tx : Transaction.t) (bc : t) :
  names_both_parties tx -> Transaction.isValid tx = Normal true ->
  Transaction.amount tx = NaN ->
  addTransaction tx bc = (Normal tt, push_pending tx bc) /\
  (forall now_tx now_block miner fuel bc2,
     chain bc <> [] ->
     minePendingTransactions now_tx now_block miner fuel (push_pending tx bc)
       = Some (Normal tt, bc2) ->
     getBalanceOfAddress (Transaction.fromAddress tx) bc2 = NaN /\
     getBalanceOfAddress (Transaction.toAddress tx) bc2 = NaN /\
     forall tx',
       Transaction.fromAddress tx' = Transaction.fromAddress tx ->
       names_both_parties tx' -> Transaction.isValid tx' = Normal true ->
       ~ (Transaction.amount tx' <= 0)%number ->
       addTransaction tx' bc2 = (Normal tt, push_pending tx' bc2)).
Proof.
  intros Hboth Hvalid Hamt.
  pose proof Hboth as Hboth'. apply names_both_parties_dec in Hboth'.
  split.
  - rewrite addTransaction_cases, Hboth', Hvalid, Hamt. simpl.
    now rewrite ltb_NaN_r.
  - intros now_tx now_block miner fuel bc2 Hne Hmine.
    apply minePendingTransactions_returns in Hmine
      as (latest & block & _ & Hblock & ->); [|exact Hne].
    apply mineBlock_fields in Hblock as (_ & _ & Hbody & _). simpl in Hbody.
    assert (Hbal : forall address, concerns address tx ->
              getBalanceOfAddress address
                (mk (chain (push_pending tx bc) ++ [block])
                    (difficulty (push_pending tx bc)) []
                    (miningReward (push_pending tx bc))) = NaN).
    { intros address Hc. rewrite getBalanceOfAddress_snoc.
      unfold block_transactions. rewrite Hbody.
      rewrite <- app_assoc. cbn [app]. rewrite fmap_app, fmap_cons.
      rewrite (contribution_NaN _ _ Hamt Hc), sum_NaN. apply add_NaN_r. }
    split; [apply Hbal; now left|]. split; [apply Hbal; now right|].
    intros tx' Hfrom Hboth2 Hvalid2 Hpos.
    apply names_both_parties_dec in Hboth2. apply not_true_is_false in Hpos.
    rewrite addTransaction_cases, Hboth2, Hvalid2, Hpos, Hfrom.
    rewrite (Hbal (Transaction.fromAddress tx)) by now left.
    reflexivity.
Qed.

End Signing.

Lemma addTransaction_unsigned_witness :
  @Blockchain.addTransaction Toy.crypto TamperedExamples.unsigned_transfer
     Examples.chain1
  = (Throw (Error "No signature in this transaction"), Examples.chain1).
Proof.
  apply (@addTransaction_unsigned Toy.crypto TamperedExamples.unsigned_transfer
           Examples.chain1).
  - split; reflexivity.
  - reflexivity.
Defined.

Lemma sign_then_isValid_witness :
  @Transaction.isValid Toy.crypto
     (snd (@Transaction.signTransaction Toy.crypto "alice"
             (Transaction.new 1002 Examples.alice Examples.bob 60)))
  = Normal true.
Proof.
  destruct (@sign_then_isValid Toy.crypto "alice"
              (Transaction.new 1002 Examples.alice Examples.bob 60) eq_refl)
    as (h & Hh & _ & Hvalid).
  injection Hh as <-. apply Hvalid.
  - vm_compute. discriminate.
  - vm_compute. reflexivity.
Defined.

Lemma amount_timestamp_run_together_witness :
  @Transaction.isValid Toy.crypto
     (Transaction.mk Examples.alice Examples.bob 1 23 (Some "5f"))
  = @Transaction.isValid Toy.crypto
      (Transaction.mk Examples.alice Examples.bob 12 3 (Some "5f")).
Proof.
  apply (@amount_timestamp_run_together Toy.crypto "pk-alice" Examples.bob
           1 12 23 3 (Some "5f")).
  vm_compute. reflexivity.
Defined.

Lemma addTransaction_twice_witness :
  Blockchain.pendingTransactions
    (snd (@Blockchain.addTransaction Toy.crypto Examples.transfer1
            (Blockchain.push_pending Examples.transfer1 Examples.chain1)))
  = [Examples.transfer1; Examples.transfer1].
Proof.
  destruct (@addTransaction_twice Toy.crypto Examples.transfer1 Examples.chain1
              (Blockchain.push_pending Examples.transfer1 Examples.chain1))
    as [Hagain Hpool].
  - vm_compute. reflexivity.
  - rewrite Hagain. exact Hpool.
Defined.

Lemma addTransaction_accepts_NaN_witness :
  @Blockchain.addTransaction Toy.crypto
     (snd (@Transaction.signTransaction Toy.crypto "bob"
             (Transaction.new 1002 Examples.bob Examples.carol NaN)))
     Examples.chain1
  = (Normal tt,
     Blockchain.push_pending
       (snd (@Transaction.signTransaction Toy.crypto "bob"
               (Transaction.new 1002 Examples.bob Examples.carol NaN)))
       Examples.chain1).
Proof.
  apply (@addTransaction_accepts_NaN Toy.crypto Toy.engine).
  - split; reflexivity.
  - vm_compute. reflexivity.
  - reflexivity.
Defined.

(** ** What the public operations preserve *)

Section ReachableValidity.
Context `{Crypto} `{Engine}.
Import Blockchain.

(** What [addTransaction] has checked when it returns: neither comparison
    was true. *)
Lemma addTransaction_accepted (tx : Transaction.t) (bc bc' : t)
    (r : completion unit) :
  addTransaction tx bc = (r, bc') ->
  bc' = bc \/
  (bc' = push_pending tx bc /\ names_both_parties tx /\
   Transaction.isValid tx = Normal true /\
   Number.leb (Transaction.amount tx) 0 = false /\
   Number.ltb (getBalanceOfAddress (Transaction.fromAddress tx) bc)
              (Transaction.amount tx) = false).
Proof.
  rewrite addTransaction_cases.
  destruct (negb _ || negb _) eqn:Hboth; [left; congruence|].
  apply names_both_parties_dec in Hboth.
  destruct (Transaction.isValid tx) as [[|]|e]; try (left; congruence).
  destruct (Number.leb _ _) eqn:Hamt; [left; congruence|].
  destruct (Number.ltb _ _) eqn:Hbal; [left; congruence|].
  intros [= _ <-]. right.
  repeat split; try assumption; apply Hboth.
Qed.

Lemma last_cons_default {A} (x : A) (l : list A) :
  last (x :: l) = Some (default x (last l)).
Proof.
  revert x. induction l as [|y l IH]; intros x; [reflexivity|].
  change (last (x :: y :: l)) with (last (y :: l)). rewrite IH.
  destruct l; reflexivity.
Qed.

Lemma sound_from_snoc (prev : Block.t) (blocks : list Block.t) (b : Block.t) :
  sound_from prev blocks ->
  sound_block (default prev (last blocks)) b ->
  sound_from prev (blocks ++ [b]).
Proof.
  revert prev. induction blocks as [|b0 blocks IH]; intros prev Hs Hb.
  - simpl in *. auto.
  - destruct Hs as [Hb0 Hrest].
    change ((b0 :: blocks) ++ [b]) with (b0 :: (blocks ++ [b])).
    split; [exact Hb0|]. apply IH; [exact Hrest|].
    rewrite last_cons_default in Hb. exact Hb.
Qed.

Lemma reachable_sound (miners : list Address) (bc : t) :
  reachable miners bc ->
  difficulty bc = 2%nat /\ miningReward bc = 100 /\
  Forall sound_transfer (pendingTransactions bc) /\
  exists blocks,
    chain bc = createGenesisBlock :: blocks /\
    length blocks = length miners /\
    sound_from createGenesisBlock blocks.
Proof.
  induction 1 as [|miners bc tx r bc' Hreach IH Hadd
                  |miners bc now_tx now_block miner fuel r bc' Hreach IH Hmine].
  - repeat split; [constructor|]. exists []. repeat split.
  - destruct IH as (Hd & Hr & Hpool & blocks & Hchain & Hlen & Hsound).
    apply addTransaction_accepted in Hadd
      as [-> | (-> & Hboth & Hvalid & Hamt & _)].
    + repeat split; try assumption. eauto.
    + repeat split; try assumption; [|eauto].
      simpl. apply Forall_app. split; [exact Hpool|].
      constructor; [|constructor]. repeat split; try assumption; apply Hboth.
  - destruct IH as (Hd & Hr & Hpool & blocks & Hchain & Hlen & Hsound).
    apply minePendingTransactions_at_2 in Hmine
      as (_ & latest & block & Hlatest & Hblock & ->);
      [|now rewrite Hchain|exact Hd].
    pose proof (mineBlock_fields _ _ _ _ _ Hblock) as (Hprev & Hts & Hbody & _).
    pose proof (mineBlock_meets _ _ _ _ Hblock) as Hmeets.
    pose proof (mineBlock_fresh _ _ _ _ Hblock (or_introl (new_fresh _ _ _)))
      as Hfresh.
    simpl in Hprev, Hts, Hbody.
    repeat split; try assumption; [constructor|].
    exists (blocks ++ [block]). simpl. split; [now rewrite Hchain|].
    split; [rewrite !length_app; simpl; lia|].
    apply sound_from_snoc; [exact Hsound|].
    unfold getLatestBlock in Hlatest.
    rewrite Hchain, last_cons_default in Hlatest. injection Hlatest as <-.
    repeat split.
    + exact Hprev.
    + exact Hfresh.
    + now rewrite <- Hd.
    + eauto.
    + exists (pendingTransactions bc),
             (Transaction.mk None miner (miningReward bc) now_tx None).
      repeat split; assumption.
Qed.

Lemma sound_transfers_valid (transfers : list Transaction.t)
    (reward : Transaction.t) :
  Forall sound_transfer transfers -> Transaction.fromAddress reward = None ->
  Block.all_valid (Block.Tx <$> (transfers ++ [reward])) = Normal true.
Proof.
  intros Hall Hreward. apply all_valid_true_iff, Forall_app. split.
  - eapply Forall_impl; [exact Hall|]. intros tx (_ & _ & Hv). exact Hv.
  - constructor; [|constructor]. unfold Transaction.isValid. now rewrite Hreward.
Qed.

Lemma sound_block_lookup (prev : Block.t) (blocks : list Block.t) (i : nat)
    (b : Block.t) :
  sound_from prev blocks -> blocks !! i = Some b ->
  exists before, (prev :: blocks) !! i = Some before /\ sound_block before b.
Proof.
  revert prev i. induction blocks as [|b0 blocks IH]; intros prev i Hs Hb;
    [discriminate|].
  destruct Hs as [Hb0 Hrest]. destruct i as [|i]; simpl in *.
  - injection Hb as <-. eauto.
  - apply (IH b0 i Hrest Hb).
Qed.

Lemma sound_chain_valid (bc : t) (blocks : list Block.t) :
  chain bc = createGenesisBlock :: blocks ->
  sound_from createGenesisBlock blocks ->
  isChainValid bc = Normal true.
Proof.
  intros Hchain Hsound. apply isChainValid_iff. split.
  - unfold genesis_intact. now rewrite Hchain.
  - intros i Hi. rewrite Hchain in *. simpl in Hi.
    destruct i as [|i]; [lia|].
    destruct (lookup_lt_is_Some_2 blocks i ltac:(lia)) as [b Hb].
    destruct (sound_block_lookup _ _ _ _ Hsound Hb)
      as (before & Hbefore & Hlink & Hfresh & _ & _ & transfers & reward
          & Hbody & Hreward & Hall).
    exists b, before. simpl. rewrite Nat.sub_0_r.
    repeat split; try assumption.
    unfold Block.hasValidTransactions. rewrite Hbody. simpl.
    now apply sound_transfers_valid.
Qed.

(** X4. Every state reached through the public operations (the
    constructor, [addTransaction], [minePendingTransactions]) passes
    [isChainValid()]: it returns true, and in particular does not throw. *)
Theorem reachable_chain_valid (miners : list Address) (bc : t) :
  reachable miners bc -> isChainValid bc = Normal true.
Proof.
  intros Hreach.
  destruct (reachable_sound _ _ Hreach) as (_ & _ & _ & blocks & Hchain & _ & Hsound).
  exact (sound_chain_valid bc blocks Hchain Hsound).
Qed.

(** X5. In every reachable state the difficulty is still 2 and the reward
    still 100, the chain holds the genesis block and one block per call of
    [minePendingTransactions], and each of those blocks carries a numeric
    timestamp, a [previousHash] equal to the hash of the block before it, a
    hash equal to its [calculateHash()] and starting with two zeros. *)
Theorem reachable_blocks_mined (miners : list Address) (bc : t) :
  reachable miners bc ->
  difficulty bc = 2%nat /\ miningReward bc = 100 /\
  chain bc !! 0%nat = Some createGenesisBlock /\
  length (chain bc) = S (length miners) /\
  forall i b, chain bc !! S i = Some b ->
    (exists prev, chain bc !! i = Some prev /\
                  Block.previousHash b = Block.hash prev) /\
    Block.hash b = Block.calculateHash b /\
    (forall j, (j < 2)%nat -> String.get j (Block.hash b) = Some "0"%char) /\
    exists n, Block.timestamp b = Block.Millis n.
Proof.
  intros Hreach.
  destruct (reachable_sound _ _ Hreach)
    as (Hd & Hr & _ & blocks & Hchain & Hlen & Hsound).
  split; [exact Hd|]. split; [exact Hr|]. rewrite Hchain.
  split; [reflexivity|]. split; [simpl; now rewrite Hlen|].
  intros i b Hb. simpl in Hb.
  destruct (sound_block_lookup _ _ _ _ Hsound Hb)
    as (before & Hbefore & Hlink & Hfresh & Hmeets & Hts & _).
  split; [eauto|]. split; [exact Hfresh|]. split; [|exact Hts].
  now apply meets_difficulty_leading_zeros in Hmeets as [_ Hzeros].
Qed.

(** X6. In every reachable state, every transaction with a sender, pending
    or mined, has been through the checks of [addTransaction]: both
    addresses are non-empty strings, [isValid()] returns true on it, and
    the test [amount <= 0] was false of its amount, which therefore is a
    positive number, [Infinity] or [NaN]: nothing in [addTransaction]
    stops an amount that is not a number. *)
Theorem reachable_transfers_checked (miners : list Address) (bc : t) :
  reachable miners bc ->
  forall tx,
    tx ∈ pendingTransactions bc \/ tx ∈ all_transactions bc ->
    Transaction.fromAddress tx <> None ->
    (exists from to, Transaction.fromAddress tx = Some from /\ from <> "" /\
                     Transaction.toAddress tx = Some to /\ to <> "") /\
    ~ (Transaction.amount tx <= 0)%number /\
    (Transaction.amount tx = NaN \/ Transaction.amount tx = Infinity \/
     exists z, Transaction.amount tx = Finite z /\ 0 < z) /\
    Transaction.isValid tx = Normal true.
Proof.
  intros Hreach tx Hin Hsender.
  destruct (reachable_sound _ _ Hreach)
    as (_ & _ & Hpool & blocks & Hchain & _ & Hsound).
  assert (Hs : sound_transfer tx).
  { destruct Hin as [Hin | Hin].
    - rewrite Forall_forall in Hpool. now apply Hpool.
    - unfold all_transactions in Hin. rewrite Hchain in Hin.
      apply elem_of_concat in Hin as (l & Htx & Hl).
      apply list_elem_of_fmap in Hl as (b & -> & Hb).
      apply elem_of_cons in Hb as [-> | Hb]; [inversion Htx|].
      apply list_elem_of_lookup in Hb as [i Hb].
      destruct (sound_block_lookup _ _ _ _ Hsound Hb)
        as (before & _ & _ & _ & _ & _ & transfers & reward & Hbody & Hreward & Hall).
      unfold block_transactions in Htx. rewrite Hbody in Htx.
      apply elem_of_app in Htx as [Htx | Htx].
      + rewrite Forall_forall in Hall. now apply Hall.
      + apply list_elem_of_singleton in Htx as ->. contradiction. }
  destruct Hs as ([Hfrom Hto] & Hamt & Hvalid).
  split; [|split; [|split; [|exact Hvalid]]].
  - destruct (Transaction.fromAddress tx) as [from|]; [|discriminate].
    destruct (Transaction.toAddress tx) as [to|]; [|discriminate].
    exists from, to. simpl in Hfrom, Hto.
    apply negb_true_iff, String.eqb_neq in Hfrom, Hto. auto.
  - unfold Number.le. now rewrite Hamt.
  - now apply leb_0_false.
Qed.

End ReachableValidity.

Lemma reachable_chain_valid_witness :
  @Blockchain.isChainValid Toy.crypto Examples.chain3 = Normal true.
Proof.
  exact (@reachable_chain_valid Toy.crypto Toy.engine _ _ toy_run_reachable).
Defined.

Lemma reachable_blocks_mined_witness :
  length (Blockchain.chain Examples.chain3) = 3%nat /\
  Block.hash Examples.block2 = @Block.calculateHash Toy.crypto Examples.block2.
Proof.
  destruct (@reachable_blocks_mined Toy.crypto Toy.engine _ _ toy_run_reachable)
    as (_ & _ & _ & Hlen & Hblocks).
  split; [exact Hlen|].
  destruct (Hblocks 1%nat Examples.block2 eq_refl) as (_ & Hfresh & _).
  exact Hfresh.
Defined.

Lemma reachable_transfers_checked_witness :
  ~ (Transaction.amount Examples.transfer1 <= 0)%number /\
  @Transaction.isValid Toy.crypto Examples.transfer1 = Normal true.
Proof.
  destruct (@reachable_transfers_checked Toy.crypto Toy.engine _ _
              toy_run_reachable Examples.transfer1) as (_ & Hamt & _ & Hvalid).
  - right. unfold all_transactions. simpl.
    apply elem_of_cons. right. apply elem_of_cons. now left.
  - discriminate.
  - split; assumption.
Defined.

(** ** Mining: the nonce found, the loop that never ends, the balances *)

Section MiningMore.
Context `{Crypto} `{Engine}.
Import Blockchain.

(** The block after [n] turns of the loop of [mineBlock]. *)
Lemma try_next_nonce_iter (b : Block.t) (n : nat) :
  Block.hash b = Block.calculateHash b ->
  Nat.iter n Block.try_next_nonce b = at_nonce b n.
Proof.
  intros Hfresh. induction n as [|n IH].
  - simpl. now rewrite at_nonce_0.
  - rewrite Nat.iter_succ, IH. unfold Block.try_next_nonce, at_nonce, hash_at.
    unfold Block.calculateHash. simpl.
    replace (Block.nonce b + Z.of_nat n + 1) with (Block.nonce b + Z.of_nat (S n))
      by lia.
    reflexivity.
Qed.

Lemma mineBlock_first (d fuel : nat) (b b' : Block.t) :
  Block.mineBlock d fuel b = Some (Normal tt, b') ->
  exists n, (n <= fuel)%nat /\ b' = Nat.iter n Block.try_next_nonce b /\
            Block.meets_difficulty d b' = Normal true /\
            forall m, (m < n)%nat ->
              Block.meets_difficulty d (Nat.iter m Block.try_next_nonce b)
              = Normal false.
Proof.
  revert b. induction fuel as [|fuel IH]; intros b; simpl;
    destruct (Block.meets_difficulty d b) as [[|]|e] eqn:Hm; try discriminate.
  - intros [= <-]. exists 0%nat. repeat split; [lia|exact Hm|intros m Hlt; lia].
  - intros [= <-]. exists 0%nat. repeat split; [lia|exact Hm|intros m Hlt; lia].
  - intros Hrun. destruct (IH _ Hrun) as (n & Hn & -> & Hmeets & Hbefore).
    exists (S n). split; [lia|]. split; [now rewrite Nat.iter_succ_r|].
    split; [exact Hmeets|].
    intros m Hlt. destruct m as [|m]; [exact Hm|].
    rewrite Nat.iter_succ_r. apply Hbefore. lia.
Qed.

(** X12. On a block whose hash is up to date, [mineBlock(d)] returns with
    the first nonce, counting up from the block's own, whose digest starts
    with [d] zeros: the nonce and hash it leaves are those of that step, no
    earlier step had the zeros, and nothing else of the block changed. *)
Theorem mineBlock_first_nonce (d fuel : nat) (b b' : Block.t) :
  Block.hash b = Block.calculateHash b ->
  Block.mineBlock d fuel b = Some (Normal tt, b') ->
  exists n,
    (n <= fuel)%nat /\
    b' = Block.mk (Block.previousHash b) (Block.timestamp b)
                  (Block.transactions b) (Block.nonce b + Z.of_nat n)
                  (hash_at b n) /\
    solves d b n /\
    forall m, (m < n)%nat -> ~ solves d b m.
Proof.
  intros Hfresh Hrun.
  destruct (mineBlock_first _ _ _ _ Hrun) as (n & Hn & -> & Hmeets & Hbefore).
  exists n. split; [exact Hn|]. split; [now apply try_next_nonce_iter|].
  split.
  - unfold solves. now rewrite <- try_next_nonce_iter.
  - intros m Hm Hsol. specialize (Hbefore m Hm).
    unfold solves in Hsol. rewrite <- try_next_nonce_iter in Hsol by exact Hfresh.
    congruence.
Qed.

Lemma substring_length_le (d : nat) (s : string) :
  (String.length (String.substring 0 d s) <= String.length s)%nat.
Proof.
  revert s. induction d as [|d IH]; intros [|c s]; simpl; try lia.
  specialize (IH s). lia.
Qed.

Lemma zero_run_length (d : nat) : String.length (zero_run d) = d.
Proof. induction d as [|d IH]; simpl; [reflexivity|now rewrite IH]. Qed.

Lemma short_hash_never_meets (d : nat) (b : Block.t) :
  zeros d = Normal (zero_run d) ->
  (String.length (Block.hash b) < d)%nat ->
  Block.meets_difficulty d b = Normal false.
Proof.
  intros Hz Hshort. apply meets_difficulty_Normal. split; [exact Hz|].
  symmetry. apply String.eqb_neq.
  intros Heq. apply (f_equal String.length) in Heq.
  rewrite zero_run_length in Heq.
  pose proof (substring_length_le d (Block.hash b)). lia.
Qed.

Lemma zeros_cases (d : nat) :
  zeros d = Normal (zero_run d) \/
  zeros d = Throw (RangeError "Invalid array length") \/
  zeros d = Throw (RangeError "Invalid string length").
Proof.
  unfold zeros. destruct (_ <? _)%N; [auto|]. destruct (_ <? _)%N; auto.
Qed.

(** X13. A difficulty above the length of every digest (64 for SHA-256 in
    hexadecimal) and of the block's current hash.  [mineBlock] then never
    returns normally.  While the engine can build the comparison string
    [Array(difficulty + 1).join('0')], that is while [difficulty + 1] is at
    most the largest array length [2^32 - 1] and [difficulty] at most the
    engine's largest string length, the loop never ends: no number of turns
    makes it return.  Beyond either limit the first evaluation of the loop
    condition throws a [RangeError] and the block is left as it was. *)
Theorem mineBlock_beyond_digest_length (d : nat) (b : Block.t) :
  (forall s, (String.length (sha256_hex s) < d)%nat) ->
  (String.length (Block.hash b) < d)%nat ->
  (forall fuel b', Block.mineBlock d fuel b <> Some (Normal tt, b')) /\
  ((N.of_nat d + 1 <= max_array_length)%N /\ (N.of_nat d <= max_string_length)%N ->
   forall fuel, Block.mineBlock d fuel b = None) /\
  ((max_array_length < N.of_nat d + 1)%N ->
   forall fuel, Block.mineBlock d fuel b
                = Some (Throw (RangeError "Invalid array length"), b)) /\
  ((N.of_nat d + 1 <= max_array_length)%N /\ (max_string_length < N.of_nat d)%N ->
   forall fuel, Block.mineBlock d fuel b
                = Some (Throw (RangeError "Invalid string length"), b)).
Proof.
  intros Hdigest Hshort.
  assert (Hloop : zeros d = Normal (zero_run d) ->
                  forall fuel, Block.mineBlock d fuel b = None).
  { intros Hz fuel. revert b Hshort.
    induction fuel as [|fuel IH]; intros b Hshort; simpl;
      rewrite (short_hash_never_meets d b Hz Hshort); [reflexivity|].
    apply IH. simpl. apply Hdigest. }
  split; [|split; [|split]].
  - intros fuel b' Hrun.
    destruct (zeros_cases d) as [Hz | [Hz | Hz]].
    + rewrite (Hloop Hz) in Hrun. discriminate.
    + rewrite (mineBlock_throws _ fuel b _ Hz) in Hrun. discriminate.
    + rewrite (mineBlock_throws _ fuel b _ Hz) in Hrun. discriminate.
  - intros Hlimits. apply Hloop. now apply zeros_Normal_iff.
  - intros Harray fuel. apply mineBlock_throws. unfold zeros.
    apply N.ltb_lt in Harray. now rewrite Harray.
  - intros [Harray Hstring] fuel. apply mineBlock_throws. unfold zeros.
    apply N.ltb_ge in Harray. apply N.ltb_lt in Hstring.
    now rewrite Harray, Hstring.
Qed.

Lemma mined_balance (now_tx now_block : Z) (miner : Address) (fuel : nat)
    (bc bc' : t) (address : Address) :
  chain bc <> [] ->
  minePendingTransactions now_tx now_block miner fuel bc = Some (Normal tt, bc') ->
  getBalanceOfAddress address bc'
  = (getBalanceOfAddress address bc
     + sum (contribution address <$> pendingTransactions bc)
     + contribution address
         (Transaction.mk None miner (miningReward bc) now_tx None))%number.
Proof.
  intros Hne Hmine.
  apply minePendingTransactions_returns in Hmine
    as (latest & block & _ & Hblock & ->); [|exact Hne].
  apply mineBlock_fields in Hblock as (_ & _ & Hbody & _). simpl in Hbody.
  rewrite getBalanceOfAddress_snoc. unfold block_transactions. rewrite Hbody.
  rewrite fmap_app, sum_app. simpl. rewrite add_0_r. apply add_assoc.
Qed.

Lemma minePendingTransactions_thrown (now_tx now_block : Z) (miner : Address)
    (fuel : nat) (bc bc' : t) (e : JsError) :
  minePendingTransactions now_tx now_block miner fuel bc = Some (Throw e, bc') ->
  bc' = push_pending (Transaction.mk None miner (miningReward bc) now_tx None) bc.
Proof.
  unfold minePendingTransactions, getLatestBlock. simpl.
  destruct (last (chain bc)) as [latest|].
  - destruct (Block.mineBlock _ _ _) as [[[[]|e'] block]|]; try discriminate.
    now intros [= _ <-].
  - now intros [= _ <-].
Qed.

(** X16. What one call of [minePendingTransactions] does to the balances.
    When the call returns, the balance of an address is its balance before,
    plus what the transactions that were pending contribute to it, plus the
    reward if it is the miner's address; the balance read for [null] has the
    reward subtracted instead, and added back if [null] was given as the
    miner, which for a reward that is a finite number leaves it as it was.
    When the call throws, no block was added and every balance is as it
    was. *)
Theorem minePendingTransactions_balances (now_tx now_block : Z)
    (miner : Address) (fuel : nat) (bc bc' : t) (r : completion unit) :
  chain bc <> [] ->
  minePendingTransactions now_tx now_block miner fuel bc = Some (r, bc') ->
  (r = Normal tt ->
   (forall address : string,
      getBalanceOfAddress (Some address) bc'
      = (getBalanceOfAddress (Some address) bc
         + sum (contribution (Some address) <$> pendingTransactions bc)
         + (if decide (miner = Some address) then miningReward bc else 0))%number) /\
   getBalanceOfAddress None bc'
   = (getBalanceOfAddress None bc
      + sum (contribution None <$> pendingTransactions bc)
      + (if decide (miner = None) then - miningReward bc + miningReward bc
         else - miningReward bc))%number /\
   (Number.is_finite (miningReward bc) = true ->
    (- miningReward bc + miningReward bc)%number = 0)) /\
  (forall e, r = Throw e ->
     forall address, getBalanceOfAddress address bc'
                     = getBalanceOfAddress address bc).
Proof.
  intros Hne Hmine. split.
  - intros ->. split; [|split].
    + intros address.
      rewrite (mined_balance _ _ _ _ _ _ (Some address) Hne Hmine).
      unfold contribution at 2.
      cbn [Transaction.fromAddress Transaction.toAddress Transaction.amount].
      repeat case_decide; try congruence; now rewrite ?add_0_l, ?add_0_r.
    + rewrite (mined_balance _ _ _ _ _ _ None Hne Hmine).
      unfold contribution at 2.
      cbn [Transaction.fromAddress Transaction.toAddress Transaction.amount].
      repeat case_decide; try congruence; now rewrite ?add_0_l, ?add_0_r.
    + destruct (miningReward bc) as [z| | |]; try discriminate.
      intros _. simpl. f_equal. lia.
  - intros e -> address.
    apply minePendingTransactions_thrown in Hmine as ->. reflexivity.
Qed.

End MiningMore.

Lemma mineBlock_first_nonce_witness :
  exists n, (n <= 300)%nat /\ Block.nonce Examples.block1 = 0 + Z.of_nat n /\
            forall m, (m < n)%nat ->
              ~ @solves Toy.crypto Toy.engine 2 Examples.candidate1 m.
Proof.
  destruct (@mineBlock_first_nonce Toy.crypto Toy.engine 2 300 Examples.candidate1
              Examples.block1) as (n & Hn & Hblock & _ & Hfirst).
  - reflexivity.
  - vm_compute. reflexivity.
  - exists n. split; [exact Hn|]. split; [|exact Hfirst].
    apply (f_equal Block.nonce) in Hblock. exact Hblock.
Defined.

Lemma mineBlock_beyond_digest_length_witness :
  @Block.mineBlock Toy.crypto Toy.engine 9 1000 Examples.candidate1 = None.
Proof.
  destruct (@mineBlock_beyond_digest_length Toy.crypto Toy.engine 9
              Examples.candidate1) as (_ & Hloop & _).
  - intros s. simpl. lia.
  - simpl. lia.
  - apply Hloop. split; vm_compute; discriminate.
Defined.

(** A difficulty of [2^32 - 1]: [Array(difficulty + 1)] is refused. *)
Example mineBlock_array_length_error (fuel : nat) :
  @Block.mineBlock Toy.crypto Toy.engine (2 ^ 32 - 1) fuel Examples.candidate1
  = Some (Throw (RangeError "Invalid array length"), Examples.candidate1).
Proof.
  apply (@mineBlock_throws Toy.crypto Toy.engine). unfold zeros.
  replace (N.of_nat (2 ^ 32 - 1)) with 4294967295%N; [reflexivity|].
  rewrite Nat2N.inj_sub, Nat2N.inj_pow. reflexivity.
Qed.

Lemma minePendingTransactions_balances_witness :
  Blockchain.getBalanceOfAddress Examples.alice Examples.chain3
  = (100 - 60 - 70)%Z.
Proof.
  destruct (@minePendingTransactions_balances Toy.crypto Toy.engine 1004 1005
              Examples.dave 200
              (Blockchain.push_pending Examples.transfer2
                 (Blockchain.push_pending Examples.transfer1 Examples.chain1))
              Examples.chain3 (Normal tt)) as [Hbal _].
  - discriminate.
  - vm_compute. reflexivity.
  - destruct (Hbal eq_refl) as [Hbal' _].
    unfold Examples.alice. rewrite Hbal'. vm_compute. reflexivity.
Defined.

(** ** Outside writes to the header of a mined block *)

Section HeaderWrites.
Context `{Crypto}.
Import Blockchain.

(** A write to the block at index [i] that makes one of its three checks
    answer false, on a chain that was valid. *)
Lemma overwritten_block_detected (bc : t) (i : nat) (b : Block.t)
    (f : Block.t -> Block.t) :
  isChainValid bc = Normal true ->
  (1 <= i)%nat -> chain bc !! i = Some b ->
  (forall prev, chain bc !! (i - 1)%nat = Some prev ->
     Block.previousHash (f b) <> Block.hash prev \/
     (Block.hasValidTransactions (f b) = Normal true /\
      Block.hash (f b) <> Block.calculateHash (f b))) ->
  isChainValid (overwrite_block f i bc) = Normal false.
Proof.
  intros Hvalid Hi Hb Hbad.
  apply isChainValid_iff in Hvalid as [Hgen Hall].
  assert (Hlen : (i < length (chain bc))%nat) by (eapply lookup_lt_Some; eauto).
  apply isChainValid_iff. right. exists i. unfold overwrite_block. simpl.
  rewrite length_alter. split; [lia|]. split.
  - intros j Hj.
    destruct (Hall j ltac:(lia)) as (cur & prev & Hc & Hp & Hrest).
    exists cur, prev. rewrite !list_lookup_alter_ne by lia. auto.
  - destruct (Hall i ltac:(lia)) as (cur & prev & Hc & Hp & _).
    exists (f b), prev. rewrite list_lookup_alter_eq, Hb.
    rewrite list_lookup_alter_ne by lia.
    split; [reflexivity|]. split; [exact Hp|].
    destruct (Hbad prev Hp) as [Hlink | [Hv Hh]]; [now left|].
    destruct (decide (Block.previousHash (f b) = Block.hash prev)); [|now left].
    right. right. auto.
Qed.

(** X10. On a chain that [isChainValid()] accepts, overwriting the
    [previousHash] of a mined block, or its [hash], with a different value
    makes [isChainValid()] return false; this needs nothing of the digest:
    the first is caught by the link check, the second by the comparison of
    the stored hash with the recomputed one. *)
Theorem overwritten_hash_fields_detected (bc : t) (i : nat) (b : Block.t)
    (v : string) :
  isChainValid bc = Normal true ->
  (1 <= i)%nat -> chain bc !! i = Some b ->
  (v <> Block.previousHash b ->
   isChainValid (overwrite_block (with_previousHash v) i bc) = Normal false) /\
  (v <> Block.hash b ->
   isChainValid (overwrite_block (with_hash v) i bc) = Normal false).
Proof.
  intros Hvalid Hi Hb.
  pose proof Hvalid as Hvalid'.
  apply isChainValid_iff in Hvalid' as [_ Hall].
  assert (Hlen : (i < length (chain bc))%nat) by (eapply lookup_lt_Some; eauto).
  destruct (Hall i ltac:(lia)) as (cur & prev & Hc & Hp & Hlink & Htxs & Hfresh).
  rewrite Hb in Hc. injection Hc as <-.
  split; intros Hv; apply (overwritten_block_detected bc i b); try assumption.
  - intros prev' Hp'. rewrite Hp in Hp'. injection Hp' as <-.
    left. simpl. congruence.
  - intros prev' Hp'. right. split; [exact Htxs|].
    simpl. unfold Block.calculateHash in *. simpl. congruence.
Qed.

Lemma preimage_nonce_inj (prev : string) (ts : Block.Time) (body : Block.Body)
    (n m : Z) :
  Block.preimage prev ts body n = Block.preimage prev ts body m -> n = m.
Proof.
  unfold Block.preimage. intros Heq.
  do 3 apply append_cancel_l in Heq.
  apply number_to_string_inj in Heq. now injection Heq.
Qed.

(** X11. On a chain that [isChainValid()] accepts, overwriting the [nonce]
    of a mined block with a different number makes [isChainValid()] return
    false, the digest being taken not to collide on the block's content
    before and after the write. *)
Theorem overwritten_nonce_detected (bc : t) (i : nat) (b : Block.t) (v : Z) :
  isChainValid bc = Normal true ->
  (1 <= i)%nat -> chain bc !! i = Some b ->
  v <> Block.nonce b ->
  (Block.calculateHash (with_nonce v b) = Block.calculateHash b ->
   block_preimage (with_nonce v b) = block_preimage b) ->
  isChainValid (overwrite_block (with_nonce v) i bc) = Normal false.
Proof.
  intros Hvalid Hi Hb Hv Hcoll.
  pose proof Hvalid as Hvalid'.
  apply isChainValid_iff in Hvalid' as [_ Hall].
  assert (Hlen : (i < length (chain bc))%nat) by (eapply lookup_lt_Some; eauto).
  destruct (Hall i ltac:(lia)) as (cur & prev & Hc & Hp & Hlink & Htxs & Hfresh).
  rewrite Hb in Hc. injection Hc as <-.
  apply (overwritten_block_detected bc i b); try assumption.
  intros prev' Hp'. right. split; [exact Htxs|].
  cbn [with_nonce Block.hash]. rewrite Hfresh. intros Heq.
  symmetry in Heq. apply Hcoll in Heq. unfold block_preimage in Heq.
  simpl in Heq. apply preimage_nonce_inj in Heq. contradiction.
Qed.

End HeaderWrites.

Lemma overwritten_hash_fields_detected_witness :
  @Blockchain.isChainValid Toy.crypto
     (overwrite_block (with_previousHash "82e3395f") 2 Examples.chain3)
  = Normal false /\
  @Blockchain.isChainValid Toy.crypto
     (overwrite_block (with_hash "00f7a183") 2 Examples.chain3)
  = Normal false.
Proof.
  split.
  - apply (@overwritten_hash_fields_detected Toy.crypto Examples.chain3 2
             Examples.block2 "82e3395f");
      [vm_compute; reflexivity | lia | reflexivity | discriminate].
  - apply (@overwritten_hash_fields_detected Toy.crypto Examples.chain3 2
             Examples.block2 "00f7a183");
      [vm_compute; reflexivity | lia | reflexivity | discriminate].
Defined.

Lemma overwritten_nonce_detected_witness :
  @Blockchain.isChainValid Toy.crypto
     (overwrite_block (with_nonce 121) 2 Examples.chain3)
  = Normal false.
Proof.
  apply (@overwritten_nonce_detected Toy.crypto Examples.chain3 2
           Examples.block2 121).
  - vm_compute. reflexivity.
  - lia.
  - reflexivity.
  - discriminate.
  - intros Hcollide. vm_compute in Hcollide. discriminate.
Defined.

(** ** The driver script *)

Section DriverScript.
Context `{Crypto} `{Engine}.
Import Blockchain.

Lemma main_mine_step (miners : list Address) (bc : t) (now_tx now_block : Z)
    (miner : string) (fuel : nat) (c : completion t) :
  reachable miners bc ->
  Main.mine now_tx now_block miner fuel bc = Some c ->
  exists bc',
    c = Normal bc' /\ reachable (miners ++ [Some miner]) bc' /\
    pendingTransactions bc' = [] /\
    forall a : Address,
      getBalanceOfAddress a bc'
      = (getBalanceOfAddress a bc
         + sum (contribution a <$> pendingTransactions bc)
         + contribution a (Transaction.mk None (Some miner) 100 now_tx None))%number.
Proof.
  intros Hreach. unfold Main.mine.
  destruct (minePendingTransactions now_tx now_block (Some miner) fuel bc)
    as [[r bc']|] eqn:Hmine; [|discriminate].
  destruct (reachable_invariant _ _ Hreach) as (Hd & Hr & _ & blocks & Hchain & _).
  assert (Hne : chain bc <> []) by (rewrite Hchain; discriminate).
  pose proof (reachable_mine _ _ _ _ _ _ _ _ Hreach Hmine) as Hreach'.
  destruct (minePendingTransactions_at_2 _ _ _ _ _ _ _ Hne Hd Hmine)
    as (-> & latest & block & _ & _ & Hbc').
  pose proof (fun a => mined_balance _ _ _ _ _ _ a Hne Hmine) as Hbal.
  intros [= <-]. exists bc'. split; [reflexivity|]. split; [exact Hreach'|].
  split; [now rewrite Hbc'|]. intros a. rewrite Hbal, Hr. reflexivity.
Qed.

Lemma main_send_step (miners : list Address) (bc : t) (now : Z) (key : KeyPair)
    (to : string) (amount balance : Z) :
  reachable miners bc -> signs_correctly key ->
  getPublic key <> "" -> to <> "" ->
  getBalanceOfAddress (Some (getPublic key)) bc = balance ->
  0 < amount <= balance ->
  exists sig,
    Main.send now key (getPublic key) to amount bc
    = Normal (push_pending
                (Transaction.mk (Some (getPublic key)) (Some to) amount now
                                (Some sig)) bc) /\
    reachable miners
      (push_pending
         (Transaction.mk (Some (getPublic key)) (Some to) amount now (Some sig))
         bc).
Proof.
  intros Hreach Hkey Hpub Hto Hbal Hamt. unfold Main.send.
  destruct (signTransaction_matching key
              (Transaction.new now (Some (getPublic key)) (Some to) amount)
              eq_refl) as (h & Hh & Hsign).
  rewrite Hsign. destruct (Hkey h) as [Hne Hok].
  exists (ec_sign key h).
  assert (Hadd : addTransaction
                   (Transaction.set_signature (ec_sign key h)
                      (Transaction.new now (Some (getPublic key)) (Some to) amount))
                   bc
                 = (Normal tt,
                    push_pending
                      (Transaction.set_signature (ec_sign key h)
                         (Transaction.new now (Some (getPublic key)) (Some to) amount))
                      bc)).
  { rewrite addTransaction_cases.
    rewrite (isValid_signed
               (Transaction.new now (Some (getPublic key)) (Some to) amount)
               (getPublic key) h _ eq_refl Hh).
    rewrite decide_False by exact Hne. rewrite Hok.
    cbn [Transaction.fromAddress Transaction.toAddress Transaction.amount
         Transaction.set_signature Transaction.new truthy].
    apply String.eqb_neq in Hpub, Hto. rewrite Hpub, Hto, Hbal. simpl.
    rewrite (proj2 (Z.leb_gt _ _)) by lia.
    rewrite (proj2 (Z.ltb_ge _ _)) by lia. reflexivity. }
  rewrite Hadd. split; [reflexivity|].
  exact (reachable_add _ _ _ _ _ Hreach Hadd).
Qed.

Lemma balance_of_new (a : Address) : getBalanceOfAddress a new = 0.
Proof. reflexivity. Qed.

Lemma sum_singleton (a : number) : sum [a] = a.
Proof. unfold sum. simpl. apply add_0_r. Qed.

(** The state the script has built when it starts printing. *)
Lemma main_setup (key : KeyPair) (now : nat -> Z) (fuel : nat) (c : completion t) :
  signs_correctly key ->
  getPublic key <> "" -> getPublic key <> "address2" ->
  getPublic key <> "address3" ->
  Main.setup key now fuel = Some c ->
  exists bc miners,
    c = Normal bc /\ reachable miners bc /\
    getBalanceOfAddress (Some (getPublic key)) bc = 150 /\
    getBalanceOfAddress (Some "address2") bc = 100 /\
    getBalanceOfAddress (Some "address3") bc = 50 /\
    exists b, chain bc !! 1%nat = Some b /\
              Block.transactions b
              = Block.Txs [Transaction.mk None (Some (getPublic key)) 100
                                          (now 0%nat) None].
Proof.
  intros Hkey Hpub H2 H3. unfold Main.setup.
  destruct (Main.mine (now 0%nat) (now 1%nat) (getPublic key) fuel new)
    as [c1|] eqn:Hm1; [|discriminate].
  destruct (main_mine_step [] new _ _ _ _ _ reachable_new Hm1)
    as (bc1 & -> & Hr1 & Hp1 & Hb1).
  assert (Hbody1 : exists b, chain bc1 !! 1%nat = Some b /\
                     Block.transactions b
                     = Block.Txs [Transaction.mk None (Some (getPublic key)) 100
                                                 (now 0%nat) None]).
  { unfold Main.mine in Hm1.
    destruct (minePendingTransactions _ _ _ _ _) as [[[[]|e] bc']|] eqn:Hmine;
      try discriminate.
    apply minePendingTransactions_returns in Hmine
      as (latest & block & _ & Hblock & ->); [|discriminate].
    injection Hm1 as <-.
    apply mineBlock_fields in Hblock as (_ & _ & Hbody & _).
    exists block. split; [reflexivity|exact Hbody]. }
  assert (Hmine1 : getBalanceOfAddress (Some (getPublic key)) bc1 = 100).
  { rewrite Hb1, balance_of_new.
    rewrite contribution_received; [reflexivity|discriminate|reflexivity]. }
  destruct (main_send_step _ bc1 (now 2%nat) key "address2" 100 100 Hr1 Hkey Hpub
              ltac:(discriminate) Hmine1 ltac:(lia)) as (sig1 & -> & Hr1').
  destruct (Main.mine (now 3%nat) (now 4%nat) (getPublic key) fuel _)
    as [c2|] eqn:Hm2; [|discriminate].
  destruct (main_mine_step _ _ _ _ _ _ _ Hr1' Hm2)
    as (bc2 & -> & Hr2 & Hp2 & Hb2).
  cbn [pendingTransactions push_pending] in Hb2. rewrite Hp1 in Hb2.
  cbn [app] in Hb2.
  assert (Hmine2 : getBalanceOfAddress (Some (getPublic key)) bc2 = 100).
  { rewrite Hb2, getBalanceOfAddress_push_pending, Hmine1.
    rewrite list_fmap_singleton, sum_singleton.
    rewrite contribution_sent; [|reflexivity|simpl; congruence].
    rewrite contribution_received; [reflexivity|discriminate|reflexivity]. }
  destruct (main_send_step _ bc2 (now 5%nat) key "address3" 50 100 Hr2 Hkey Hpub
              ltac:(discriminate) Hmine2 ltac:(lia)) as (sig2 & -> & Hr2').
  intros Hm3.
  destruct (main_mine_step _ _ _ _ _ _ _ Hr2' Hm3)
    as (bc3 & -> & Hr3 & Hp3 & Hb3).
  cbn [pendingTransactions push_pending] in Hb3. rewrite Hp2 in Hb3.
  cbn [app] in Hb3.
  exists bc3. eexists. split; [reflexivity|]. split; [exact Hr3|].
  assert (Hother : forall a : string,
            a <> getPublic key ->
            getBalanceOfAddress (Some a) bc3
            = Finite ((if decide (a = "address2") then 100 else 0)
                      + (if decide (a = "address3") then 50 else 0))).
  { intros a Ha. rewrite Hb3, getBalanceOfAddress_push_pending, Hb2.
    rewrite getBalanceOfAddress_push_pending, Hb1, balance_of_new.
    rewrite !list_fmap_singleton, !sum_singleton.
    unfold contribution.
    cbn [Transaction.fromAddress Transaction.toAddress Transaction.amount
         pendingTransactions new fmap list_fmap sum foldr].
    repeat case_decide; simplify_eq; reflexivity. }
  split; [|split; [|split]].
  - rewrite Hb3, getBalanceOfAddress_push_pending, Hmine2.
    rewrite list_fmap_singleton, sum_singleton.
    rewrite contribution_sent; [|reflexivity|simpl; congruence].
    rewrite contribution_received; [reflexivity|discriminate|reflexivity].
  - rewrite Hother by congruence. reflexivity.
  - rewrite Hother by congruence. reflexivity.
  - destruct Hbody1 as (b & Hb & Hbody). exists b. split; [|exact Hbody].
    clear - Hb Hm2 Hm3.
    unfold Main.mine in Hm2, Hm3.
    destruct (minePendingTransactions (now 3%nat) _ _ _ _)
      as [[[[]|e2] s2]|] eqn:E2; try discriminate.
    apply minePendingTransactions_returns in E2
      as (? & blk2 & _ & _ & ->);
      [|simpl; intros Hn; rewrite Hn in Hb; discriminate].
    injection Hm2 as <-.
    destruct (minePendingTransactions (now 6%nat) _ _ _ _)
      as [[[[]|e3] s3]|] eqn:E3; try discriminate.
    apply minePendingTransactions_returns in E3
      as (? & blk3 & _ & _ & ->);
      [|simpl; intros Hn; apply app_eq_nil in Hn as [_ Hn]; discriminate].
    injection Hm3 as <-. simpl.
    apply lookup_app_l_Some, lookup_app_l_Some. exact Hb.
Qed.

(** X17. The driver script, run with a key pair that signs correctly and
    whose address is neither empty nor one of the two recipients, throws
    nothing; if its three proof-of-work searches finish it prints a balance
    of 150 for its own wallet (three rewards of 100, less the 100 and the 50
    it sent), 100 for ['address2'], 50 for ['address3'], and 'Yes' for the
    validity of the chain. *)
Theorem main_prints (key : KeyPair) (now : nat -> Z) (fuel : nat)
    (c : completion Main.Output) :
  signs_correctly key ->
  getPublic key <> "" -> getPublic key <> "address2" ->
  getPublic key <> "address3" ->
  Main.main key now fuel false = Some c ->
  c = Normal (Main.mkOutput 150 100 50 "Yes").
Proof.
  intros Hkey Hpub H2 H3. unfold Main.main.
  destruct (Main.setup key now fuel) as [c'|] eqn:Hsetup; [|discriminate].
  destruct (main_setup key now fuel c' Hkey Hpub H2 H3 Hsetup)
    as (bc & miners & -> & Hreach & Hmine & Haddr2 & Haddr3 & _).
  intros [= <-]. unfold Main.report. simpl.
  destruct (reachable_sound _ _ Hreach) as (_ & _ & _ & blocks & Hchain & _ & Hsound).
  rewrite (sound_chain_valid bc blocks Hchain Hsound). simpl.
  now rewrite Hmine, Haddr2, Haddr3.
Qed.

(** X18. With the line the script leaves commented out put back in, which
    overwrites with 10 the amount of the first reward, the script prints the
    same three balances (they are read before the write) and 'No' for the
    validity of the chain; the digest is taken not to collide on the content
    of that block before and after the write. *)
Theorem main_prints_tampered (key : KeyPair) (now : nat -> Z) (fuel : nat)
    (bc : t) (b : Block.t) :
  signs_correctly key ->
  getPublic key <> "" -> getPublic key <> "address2" ->
  getPublic key <> "address3" ->
  Main.setup key now fuel = Some (Normal bc) ->
  chain bc !! 1%nat = Some b ->
  (Block.calculateHash (Block.set_amount 0 10 b) = Block.calculateHash b ->
   block_preimage (Block.set_amount 0 10 b) = block_preimage b) ->
  Main.main key now fuel true = Some (Normal (Main.mkOutput 150 100 50 "No")).
Proof.
  intros Hkey Hpub H2 H3 Hsetup Hb Hcoll. unfold Main.main. rewrite Hsetup.
  destruct (main_setup key now fuel _ Hkey Hpub H2 H3 Hsetup)
    as (bc' & miners & Heq & Hreach & Hmine & Haddr2 & Haddr3 & b' & Hb' & Hbody).
  injection Heq as <-. rewrite Hb in Hb'. injection Hb' as <-.
  unfold Main.report, Main.tamper_line. rewrite Hb, Hbody. simpl.
  destruct (reachable_sound _ _ Hreach) as (_ & _ & _ & blocks & Hchain & _ & Hsound).
  pose proof (sound_chain_valid bc blocks Hchain Hsound) as Hvalid.
  assert (Hset : set_amount 1 0 10 bc
                 = mk (alter (Block.set_amount 0 10) 1%nat (chain bc)) (difficulty bc)
                      (pendingTransactions bc) (miningReward bc)) by reflexivity.
  assert (Hfalse : isChainValid (set_amount 1 0 10 bc) = Normal false).
  { apply (overwritten_amounts_detected bc (set_amount 1 0 10 bc) 1 b
             (Block.set_amount 0 10 b)); try assumption; try lia.
    - rewrite Hset. simpl. now rewrite list_lookup_alter_eq, Hb.
    - intros j Hj. rewrite Hset. simpl. apply list_lookup_alter_ne. lia.
    - apply set_amount_overwritten.
    - intros Hsame.
      apply (amounts_overwritten_preimage b (Block.set_amount 0 10 b)
               [Transaction.mk None (Some (getPublic key)) 100 (now 0%nat) None]
               [Transaction.mk None (Some (getPublic key)) 10 (now 0%nat) None])
        in Hsame.
      + inversion Hsame as [|? ? ? ? [_ Hjson] _]; subst. discriminate Hjson.
      + apply set_amount_overwritten.
      + exact Hbody.
      + unfold Block.set_amount. rewrite Hbody. reflexivity. }
  rewrite Hfalse. simpl. now rewrite Hmine, Haddr2, Haddr3.
Qed.

End DriverScript.

Lemma substring_whole (s : string) : String.substring 0 (String.length s) s = s.
Proof. induction s as [|c s IH]; simpl; [reflexivity|now rewrite IH]. Qed.

Lemma hex_digit_is_hex (n : N) : Toy.is_hex (hex_digit n) = true.
Proof.
  destruct n as [|p]; [reflexivity|].
  do 4 (destruct p as [p|p|]; try reflexivity).
Qed.

Lemma hex_le_is_hex (digits : nat) (n : N) :
  forallb Toy.is_hex (String.list_ascii_of_string (Toy.hex_le digits n)) = true /\
  String.length (Toy.hex_le digits n) = digits.
Proof.
  revert n. induction digits as [|d IH]; intros n; [split; reflexivity|].
  destruct (IH (n / 16)%N) as [Hhex Hlen].
  cbn [Toy.hex_le String.list_ascii_of_string forallb String.length].
  rewrite hex_digit_is_hex, Hhex, Hlen. split; reflexivity.
Qed.

(** Every key pair of the toy instance signs correctly. *)
Lemma toy_signs_correctly (private : string) :
  @signs_correctly Toy.crypto private.
Proof.
  intros h. split.
  - discriminate.
  - unfold verify_under, verify.
    change (completion_bind
              (Toy.decode_key (String "p" (String "k" (String "-" private))))
              (fun publicKey =>
                 completion_bind (Toy.decode_signature (Toy.sign private h))
                   (fun s => Normal (String.eqb s (Toy.sign publicKey h))))
            = Normal true).
    unfold Toy.decode_key, Toy.decode_signature.
    assert (Hprefix : String.prefix "pk-"
                        (String "p" (String "k" (String "-" private))) = true)
      by (simpl; now destruct private).
    assert (Hkey : String.substring 3
                     (String.length (String "p" (String "k" (String "-" private))) - 3)
                     (String "p" (String "k" (String "-" private))) = private)
      by (simpl; now rewrite Nat.sub_0_r, substring_whole).
    rewrite Hprefix, Hkey.
    destruct (hex_le_is_hex 8 (Toy.rolling 5381%N (private +:+ ":" +:+ h)))
      as [Hhex Hlen].
    unfold Toy.sign, Toy.digest. rewrite Hhex, Hlen.
    cbn [andb Nat.eqb completion_bind]. now rewrite String.eqb_refl.
Qed.

Lemma main_prints_witness :
  exists c,
    @Main.main Toy.crypto Toy.engine "alice" toy_clock 5000 false = Some c /\
    c = Normal (Main.mkOutput 150 100 50 "Yes").
Proof.
  exists (Normal (Main.mkOutput 150 100 50 "Yes")).
  assert (Hrun : @Main.main Toy.crypto Toy.engine "alice" toy_clock 5000 false
                 = Some (Normal (Main.mkOutput 150 100 50 "Yes")))
    by (vm_compute; reflexivity).
  split; [exact Hrun|].
  apply (@main_prints Toy.crypto Toy.engine "alice" toy_clock 5000 _
           (toy_signs_correctly "alice"));
    [discriminate | discriminate | discriminate | exact Hrun].
Defined.

Lemma main_prints_tampered_witness :
  @Main.main Toy.crypto Toy.engine "alice" toy_clock 5000 true
  = Some (Normal (Main.mkOutput 150 100 50 "No")).
Proof.
  apply (@main_prints_tampered Toy.crypto Toy.engine "alice" toy_clock 5000
           toy_script_chain toy_script_block1 (toy_signs_correctly "alice"));
    [discriminate | discriminate | discriminate | | reflexivity |].
  - vm_compute. reflexivity.
  - intros Hcollide. vm_compute in Hcollide. discriminate.
Defined.

(** ** Outside writes to the transactions of a mined block *)

Section ContentWrites.
Context `{Crypto}.
Import Blockchain.



End ContentWrites.


(** ** The genesis comparison *)

Section GenesisIntact.
Context `{Crypto}.
Import Blockchain.

(** X20. The comparison of serialisations that opens [isChainValid()] is a
    comparison of blocks: [isChainValid()] returns true only on a chain
    whose first block equals the newly built genesis block field by field,
    and on any other chain, the empty one included, it returns false
    without looking at the later blocks (so without throwing, whatever they
    hold). *)
Theorem genesis_compared_exactly (bc : t) :
  (isChainValid bc = Normal true -> chain bc !! 0%nat = Some createGenesisBlock) /\
  (chain bc !! 0%nat <> Some createGenesisBlock -> isChainValid bc = Normal false) /\
  (chain bc = [] -> isChainValid bc = Normal false).
Proof.
  pose proof (genesis_intact_exact bc) as Hexact.
  split; [|split].
  - intros Hvalid. apply isChainValid_iff in Hvalid as [Hgen _]. auto.
  - intros Hne. apply isChainValid_iff. left. auto.
  - intros Hempty. apply isChainValid_iff. left.
    unfold genesis_intact. rewrite Hempty. discriminate.
Qed.

End GenesisIntact.

(** ** What isChainValid does not notice *)

Section LastBlock.
Context `{Crypto}.
Import Blockchain.

(** X21. [isChainValid()] checks neither the proof of work nor what a
    block holds beyond its signatures: on a chain it accepts, the last
    block can be given any transactions on which [isValid()] returns true
    (a reward of any amount, for instance) and its hash recomputed, without
    mining, and [isChainValid()] still returns true. *)
Theorem rewritten_last_block_accepted (bc : t) (i : nat) (b : Block.t)
    (l : list Transaction.t) :
  isChainValid bc = Normal true ->
  (1 <= i)%nat -> S i = length (chain bc) -> chain bc !! i = Some b ->
  Forall (fun tx => Transaction.isValid tx = Normal true) l ->
  isChainValid (overwrite_block (rewrite_transactions l) i bc) = Normal true.
Proof.
  intros Hvalid Hi Hlast Hb Hl.
  apply isChainValid_iff in Hvalid as [Hgen Hall].
  apply isChainValid_iff. unfold overwrite_block. simpl. split.
  - unfold genesis_intact in *. simpl.
    rewrite list_lookup_alter_ne by lia. exact Hgen.
  - rewrite length_alter. intros j Hj.
    destruct (Hall j Hj) as (cur & prev & Hc & Hp & Hlink & Htxs & Hfresh).
    destruct (decide (j = i)) as [->|Hne].
    + rewrite Hb in Hc. injection Hc as <-.
      exists (rewrite_transactions l b), prev.
      rewrite list_lookup_alter_eq, Hb, list_lookup_alter_ne by lia.
      repeat split; try assumption.
      unfold Block.hasValidTransactions. simpl. now apply all_valid_true_iff.
    + exists cur, prev. rewrite !list_lookup_alter_ne by lia. auto.
Qed.

End LastBlock.

Lemma rewritten_last_block_accepted_witness :
  @Blockchain.isChainValid Toy.crypto
     (overwrite_block
        (@rewrite_transactions Toy.crypto
           [Transaction.mk None Examples.dave 1000000 1004 None]) 2
        Examples.chain3)
  = Normal true.
Proof.
  apply (@rewritten_last_block_accepted Toy.crypto Examples.chain3 2
           Examples.block2).
  - vm_compute. reflexivity.
  - lia.
  - reflexivity.
  - reflexivity.
  - repeat constructor.
Defined.
